(** * codex-mem: the storage engine, embedded and verified

    A shallow embedding of the TypeScript sources of codex-mem
    (schema.ts, memory-store.ts, file-lock.ts, indexer.ts, retriever.ts,
    prune.ts, summarizer.ts) together with the properties the
    specification states about them.

    Conventions of the embedding.
    - A JavaScript string is a [string]; its characters are read as code
      units below 256.
    - A JavaScript number that holds a count is a [nat]; an instant in
      milliseconds is a [Z]; any other number is a [Q], the rational a
      finite double holds.  The scores of retriever.ts are computed as
      the source computes them, in doubles: [Double.add], [Double.sub],
      [Double.mul] and [Double.div] round the exact result to the
      nearest double, ties to even.  The ages, thresholds and ranks of
      prune.ts and summarizer.ts are computed exactly.
    - The range of doubles is not modelled: a result beyond it is a
      number, not [Infinity], and [Double.finite] says of a result that
      it is within the range.  [NaN] only arises from [Date.parse] and
      is written [None].
    - A [Map] keeps its keys in insertion order and is an association
      list; a plain object used as a dictionary is a [gmap].
    - Built-ins of the runtime (Date, JSON, Math.exp, sha256) are the
      fields of the class [Host]. *)

From Stdlib Require Import ZArith QArith Qround Qabs Lqa Lia String Ascii Sorted Permutation.
From Stdlib Require Floats.
From stdpp Require Import base option list gmap strings pretty.

Local Open Scope string_scope.
Local Open Scope list_scope.
Local Open Scope Z_scope.

(** ** JavaScript strings *)

Module Js.

Definition chars (s : string) : list ascii := list_ascii_of_string s.
Definition str (l : list ascii) : string := string_of_list_ascii l.

Definition code (c : ascii) : nat := nat_of_ascii c.

(** White space and line terminators of ECMAScript among the code units
    below 256: TAB, LF, VT, FF, CR, SP, NBSP. *)
Definition is_whitespace (c : ascii) : bool :=
  match code c with
  | 9%nat | 10%nat | 11%nat | 12%nat | 13%nat | 32%nat | 160%nat => true
  | _ => false
  end.

Fixpoint trimStart_chars (l : list ascii) : list ascii :=
  match l with
  | c :: l' => if is_whitespace c then trimStart_chars l' else l
  | [] => []
  end.

Definition trim_chars (l : list ascii) : list ascii :=
  rev (trimStart_chars (rev (trimStart_chars l))).

(** [String.prototype.trim] *)
Definition trim (s : string) : string := str (trim_chars (chars s)).

(** [s.trim().length === 0] *)
Definition is_blank (s : string) : bool :=
  match trim_chars (chars s) with [] => true | _ => false end.

Definition lower_char (c : ascii) : ascii :=
  let n := code c in
  if ((65 <=? n) && (n <=? 90))%nat then ascii_of_nat (n + 32)
  else if ((192 <=? n) && (n <=? 222) && negb (n =? 215))%nat then ascii_of_nat (n + 32)
  else c.

(** [String.prototype.toLowerCase] *)
Definition toLowerCase (s : string) : string := str (List.map lower_char (chars s)).

Fixpoint starts_with (needle hay : list ascii) : bool :=
  match needle, hay with
  | [], _ => true
  | _ :: _, [] => false
  | a :: needle', b :: hay' => Ascii.eqb a b && starts_with needle' hay'
  end.

Fixpoint includes_chars (hay needle : list ascii) : bool :=
  starts_with needle hay ||
  match hay with
  | [] => false
  | _ :: hay' => includes_chars hay' needle
  end.

(** [String.prototype.includes] *)
Definition includes (hay needle : string) : bool :=
  includes_chars (chars hay) (chars needle).

(** [s.split(/\s+/)]: the pieces between maximal runs of white space; a
    leading or trailing run leaves an empty piece at that end. *)
Fixpoint split_ws_aux (cur : list ascii) (in_gap : bool) (l : list ascii) : list string :=
  match l with
  | [] => [str (rev cur)]
  | c :: l' =>
      if is_whitespace c
      then (if in_gap then split_ws_aux cur true l'
            else str (rev cur) :: split_ws_aux [] true l')
      else split_ws_aux (c :: cur) false l'
  end.

Definition split_ws (s : string) : list string := split_ws_aux [] false (chars s).

(** [s.replace(/\s+/g, " ")] *)
Fixpoint collapse_ws_aux (in_gap : bool) (l : list ascii) : list ascii :=
  match l with
  | [] => []
  | c :: l' =>
      if is_whitespace c
      then (if in_gap then collapse_ws_aux true l'
            else " "%char :: collapse_ws_aux true l')
      else c :: collapse_ws_aux false l'
  end.

Definition collapse_ws (s : string) : string := str (collapse_ws_aux false (chars s)).

Definition strip_cr (rcur : list ascii) : list ascii :=
  match rcur with
  | c :: rest => if (code c =? 13)%nat then rest else rcur
  | [] => []
  end.

(** [content.split(/\r?\n/)]: [rcur] holds the current piece reversed. *)
Fixpoint split_lines_aux (rcur : list ascii) (l : list ascii) : list string :=
  match l with
  | [] => [str (rev rcur)]
  | c :: l' =>
      if (code c =? 10)%nat
      then str (rev (strip_cr rcur)) :: split_lines_aux [] l'
      else split_lines_aux (c :: rcur) l'
  end.

Definition split_lines (s : string) : list string := split_lines_aux [] (chars s).

(** [Array.prototype.join] *)
Fixpoint join (sep : string) (l : list string) : string :=
  match l with
  | [] => ""
  | [x] => x
  | x :: l' => x +:+ sep +:+ join sep l'
  end.

(** [Buffer.byteLength(s, "utf8")] for code units below 256. *)
Definition byteLength (s : string) : nat :=
  list_sum (List.map (fun c => if (code c <? 128)%nat then 1%nat else 2%nat) (chars s)).

(** [set.add(x)] on the values of a [Set], in insertion order. *)
Definition Set_add (acc : list string) (x : string) : list string :=
  if bool_decide (x ∈ acc) then acc else acc ++ [x].

(** [Array.from(new Set(l))]: first occurrences, in order. *)
Definition Set_from (l : list string) : list string := fold_left Set_add l [].

(** A [Map] with string keys: insertion-ordered, [set] on a present key
    replaces the value where the key already stands. *)
Section Map.
Context {V : Type}.

Fixpoint Map_get (m : list (string * V)) (k : string) : option V :=
  match m with
  | [] => None
  | (k', v) :: m' => if String.eqb k' k then Some v else Map_get m' k
  end.

Fixpoint Map_set (m : list (string * V)) (k : string) (v : V) : list (string * V) :=
  match m with
  | [] => [(k, v)]
  | (k', v') :: m' =>
      if String.eqb k' k then (k', v) :: m' else (k', v') :: Map_set m' k v
  end.

Definition Map_values (m : list (string * V)) : list V := List.map snd m.
Definition Map_keys (m : list (string * V)) : list string := List.map fst m.
End Map.

(** The value a comparator hands to [Array.prototype.sort]; [None] is
    [NaN], which the sort reads as [+0]. *)
Definition is_positive (v : option Q) : bool :=
  match v with
  | Some q => negb (Qle_bool q 0)
  | None => false
  end.

(** [Array.prototype.sort(comparefn)].  The sort is stable; on a
    comparator that is a consistent ordering every stable sort returns
    the same array, and the model is the stable insertion sort: an
    element moves behind a neighbour only when the comparator is
    positive on the pair. *)
Section Sort.
Context {A : Type} (comparefn : A → A → option Q).

Fixpoint sort_insert (x : A) (l : list A) : list A :=
  match l with
  | [] => [x]
  | y :: l' =>
      if is_positive (comparefn x y) then y :: sort_insert x l' else x :: l
  end.

Fixpoint Array_sort (l : list A) : list A :=
  match l with
  | [] => []
  | x :: l' => sort_insert x (Array_sort l')
  end.
End Sort.

(** [Array.prototype.slice(0, end)] with a numeric [end]: the end is
    truncated towards zero and
    clipped to the array; a negative end counts from the back. *)
Definition trunc (e : Q) : Z := if Qle_bool 0 e then Qfloor e else Qceiling e.

Definition slice0 {A} (l : list A) (e : Q) : list A :=
  let n := trunc e in
  if (0 <=? n)%Z then take (Z.to_nat n) l
  else take (Z.to_nat (Z.max (Z.of_nat (length l) + n) 0)) l.

End Js.

(** ** JavaScript numbers: the arithmetic of doubles *)

(** IEEE 754 binary64, round to nearest, ties to even.  A double is
    written as the rational it holds; the doubles are the numbers
    [m * 2 ^ e] with [|m| < 2 ^ 53] and [-1074 ≤ e].  An operation
    returns the double nearest to its exact result ([round_double],
    [round_nearest] below), the one of even mantissa of two that are
    equally near. *)
Module Double.

(** The least positive double is [2 ^ -1074]: a double times [scale]
    is an integer. *)
Definition scale : Q := inject_Z (2 ^ 1074).

(** The integer nearest to [y], the even one of two that are equally
    near. *)
Definition nearest_even (y : Q) : Z :=
  let f := Qfloor y in
  match (y - inject_Z f ?= 1 # 2)%Q with
  | Lt => f
  | Eq => if Z.even f then f else f + 1
  | Gt => f + 1
  end.

(** The exponent of the unit in the last place at [x], a magnitude
    times [scale]: a mantissa of 53 bits, and no unit below the least
    positive double. *)
Definition shift (x : Q) : Z := Z.max 0 (Z.log2 (Qfloor x) - 52).

(** The multiple of the unit in the last place nearest to [x]. *)
Definition round_scaled (x : Q) : Z :=
  nearest_even (x / inject_Z (2 ^ shift x)) * 2 ^ shift x.

(** The double nearest to [q], in lowest terms. *)
Definition round (q : Q) : Q :=
  Qred (if Qle_bool 0 q then inject_Z (round_scaled (q * scale)) / scale
        else - (inject_Z (round_scaled (- q * scale)) / scale)).

(** [a + b], [a - b], [a * b] and [a / b] on doubles. *)
Definition add (a b : Q) : Q := round (a + b).
Definition sub (a b : Q) : Q := round (a - b).
Definition mul (a b : Q) : Q := round (a * b).
Definition div (a b : Q) : Q := round (a / b).

(** A rounded result below [2 ^ 1024] in magnitude is a double; from
    there on the operation returns [Infinity]. *)
Definition finite (q : Q) : Prop := (Qabs q < inject_Z (2 ^ 1024))%Q.

(** The doubles, the greatest exponent left out with the range: a
    mantissa of 53 bits at an exponent not below that of the least
    positive double. *)
Definition double (q : Q) : Prop :=
  ∃ m e : Z, Z.abs m < 2 ^ 53 ∧ 0 ≤ e ∧ (q * scale == inject_Z (m * 2 ^ e))%Q.

(** The binary64 numbers of the kernel, to run an expression on them
    beside the arithmetic above.  [of_float] is the rational such a
    number holds, [None] for an infinity and for [NaN]; [to_float] is
    the quotient of two integers below [2 ^ 53], rounded by the
    kernel. *)
Definition of_float (f : PrimFloat.float) : option Q :=
  match FloatOps.Prim2SF f with
  | SpecFloat.S754_zero _ => Some 0%Q
  | SpecFloat.S754_finite s m e =>
      let v :=
        (inject_Z (Zpos m)
         * (if 0 <=? e then inject_Z (2 ^ e) else / inject_Z (2 ^ (- e))))%Q in
      Some (Qred (if s then - v else v))
  | _ => None
  end.

Definition to_float (q : Q) : PrimFloat.float :=
  let n := PrimFloat.of_uint63 (Uint63.of_Z (Z.abs (Qnum q))) in
  let d := PrimFloat.of_uint63 (Uint63.of_Z (Zpos (Qden q))) in
  let r := PrimFloat.div n d in
  if Qnum q <? 0 then PrimFloat.opp r else r.

End Double.

(** Conversion unfolds the rounding after everything else: two scores
    are compared as expressions before they are compared as numbers. *)
Strategy 1000 [Double.round].

(** ** JSON values, as [JSON.parse] returns them *)

#[warnings="-register-all"] Inductive json : Type :=
  | JNull
  | JBool (b : bool)
  | JNumber (q : Q)
  | JString (s : string)
  | JArray (l : list json)
  | JObject (o : list (string * json)).

(** [value[key]]; [None] is [undefined]. *)
Definition prop (value : json) (key : string) : option json :=
  match value with
  | JObject o => Js.Map_get o key
  | _ => None
  end.

(** ** schema.ts *)

Record MemoryItem : Type := {
  id : string;
  createdAt : string;
  updatedAt : string;
  scope : string;
  tags : list string;
  content : string;
  summary : option string;
  metadata : option (list (string * json));
  importance : Q;
  deleted : bool;
}.

(** An optional field of a patch is [None] when it is not supplied; the
    nullable ones then hold [Some None] for an explicit [null]. *)
Module Patch.
Record MemoryPatch : Type := {
  scope : option string;
  tags : option (list string);
  content : option string;
  summary : option (option string);
  metadata : option (option (list (string * json)));
  importance : option Q;
  deleted : option bool;
}.

Definition empty : MemoryPatch :=
  {| scope := None; tags := None; content := None; summary := None;
     metadata := None; importance := None; deleted := None |}.
End Patch.
Abbreviation MemoryPatch := Patch.MemoryPatch.

Module Index.
Record MemoryIndex : Type := {
  version : Z;
  updatedAt : string;
  byScope : gmap string (list string);
  byTag : gmap string (list string);
  byScopeTag : gmap string (gmap string (list string));
}.
End Index.
Abbreviation MemoryIndex := Index.MemoryIndex.

Definition MEMORY_INDEX_VERSION : Z := 1.

Record SummarizationConfig : Type := {
  maxContentLength : Q;
  olderThanDays : Q;
}.

Record PruneConfig : Type := {
  maxPerScope : Q;
  deleteOlderThanDays : Q;
  compressOlderThanDays : Q;
  dedupe : bool;
}.

Module Scoring.
Record ScoringConfig : Type := {
  scope : Q;
  tag : Q;
  recency : Q;
  importance : Q;
  text : Q;
  halfLifeDays : Q;
}.
End Scoring.
Abbreviation ScoringConfig := Scoring.ScoringConfig.

Definition normalizeScope (scope : string) : string := Js.trim scope.

Definition normalizeTag (tag : string) : string := Js.toLowerCase (Js.trim tag).

Definition normalizeTags (tags : list string) : list string :=
  let normalized :=
    List.filter (fun tag => negb (String.length tag =? 0)%nat) (List.map normalizeTag tags) in
  Js.Set_from normalized.

(** [clampImportance(value, fallback)]; [None] stands for a value that
    is not a number ([undefined], [null], [NaN]). *)
Definition clampImportance (value : option Q) (fallback : Q) : Q :=
  match value with
  | None => fallback
  | Some v =>
      if negb (Qle_bool 0 v) then 0%Q
      else if negb (Qle_bool v 1) then 1%Q
      else v
  end.

Definition isRecord (value : json) : bool :=
  match value with
  | JObject _ => true
  | _ => false
  end.

Definition requiredStringFields : list string :=
  ["id"; "createdAt"; "updatedAt"; "scope"; "content"].

Definition is_string (v : json) : bool :=
  match v with JString _ => true | _ => false end.

Definition validateMemoryItem (value : json) : bool * list string :=
  if negb (isRecord value) then (false, ["Memory item is not an object"])
  else
    let errors :=
      flat_map
        (fun field =>
           match prop value field with
           | Some (JString s) =>
               if Js.is_blank s then ["Invalid or missing " +:+ field] else []
           | _ => ["Invalid or missing " +:+ field]
           end)
        requiredStringFields in
    let errors :=
      errors ++
      match prop value "tags" with
      | Some (JArray l) =>
          if existsb (fun tag => negb (is_string tag)) l
          then ["Invalid or missing tags"] else []
      | _ => ["Invalid or missing tags"]
      end in
    let errors :=
      errors ++
      match prop value "deleted" with
      | Some (JBool _) => []
      | _ => ["Invalid or missing deleted flag"]
      end in
    let errors :=
      errors ++
      match prop value "importance" with
      | Some (JNumber _) => []
      | _ => ["Invalid or missing importance"]
      end in
    let errors :=
      errors ++
      match prop value "summary" with
      | Some JNull | Some (JString _) => []
      | _ => ["Invalid summary"]
      end in
    let errors :=
      errors ++
      match prop value "metadata" with
      | Some JNull | Some (JObject _) => []
      | _ => ["Invalid metadata"]
      end in
    (bool_decide (errors = []), errors).

(** [parsed as MemoryItem]: the view of a validated object through the
    interface [MemoryItem]; properties the interface does not name are
    not part of the view. *)
Definition asMemoryItem (value : json) : MemoryItem :=
  let text key := match prop value key with Some (JString s) => s | _ => "" end in
  {| id := text "id";
     createdAt := text "createdAt";
     updatedAt := text "updatedAt";
     scope := text "scope";
     tags :=
       match prop value "tags" with
       | Some (JArray l) =>
           List.map (fun tag => match tag with JString s => s | _ => "" end) l
       | _ => []
       end;
     content := text "content";
     summary := match prop value "summary" with Some (JString s) => Some s | _ => None end;
     metadata := match prop value "metadata" with Some (JObject o) => Some o | _ => None end;
     importance := match prop value "importance" with Some (JNumber q) => q | _ => 0%Q end;
     deleted := match prop value "deleted" with Some (JBool b) => b | _ => false end |}.

(** The object an item serialises from, properties in the order the
    engine writes them. *)
Definition itemToJson (item : MemoryItem) : json :=
  JObject
    [("id", JString (id item));
     ("createdAt", JString (createdAt item));
     ("updatedAt", JString (updatedAt item));
     ("scope", JString (scope item));
     ("tags", JArray (List.map JString (tags item)));
     ("content", JString (content item));
     ("summary", match summary item with Some s => JString s | None => JNull end);
     ("metadata", match metadata item with Some o => JObject o | None => JNull end);
     ("importance", JNumber (importance item));
     ("deleted", JBool (deleted item))].

(** ** The runtime *)

(** What the sources take from Node.js and ECMAScript.
    - [Date_parse s] is [Date.parse(s)], [None] for [NaN].
    - [Date_toISOString t] is [new Date(t).toISOString()].
    - [JSON_parse s] is [JSON.parse(s)]; [inl m] is a thrown
      [SyntaxError] with message [m].
    - [JSON_stringify v] is [JSON.stringify(v)].
    - [Math_exp] is [Math.exp], where its value is a finite double.
    - [sha256_hex s] is
      [createHash("sha256").update(s).digest("hex")].
    - [process_pid] is [process.pid]. *)
Class Host : Type := {
  Date_parse : string → option Z;
  Date_toISOString : Z → string;
  JSON_parse : string → string + json;
  JSON_stringify : json → string;
  Math_exp : Q → Q;
  sha256_hex : string → string;
  process_pid : Z;
}.

(** ** The file system, the clock and exceptions *)

Module Fs.

Inductive FsOp : Type :=
  | OpMkdir | OpAccess | OpReadFile | OpWriteFile | OpAppendFile
  | OpRename | OpOpen | OpStat | OpUnlink.

#[global] Instance FsOp_eq_dec : EqDecision FsOp.
Proof. solve_decision. Defined.

Record File : Type := {
  data : string;
  mtimeMs : Z;
}.

(** The state an operation runs in: the files by path, the clock in
    milliseconds since the epoch, and the calls the file system refuses
    (operation, path, errno code) for reasons outside the model, such
    as permissions. *)
Record World : Type := {
  files : gmap string File;
  clock : Z;
  faults : list (FsOp * string * string);
}.

Definition set_files (f : gmap string File → gmap string File) (w : World) : World :=
  {| files := f (files w); clock := clock w; faults := faults w |}.

Definition set_clock (f : Z → Z) (w : World) : World :=
  {| files := files w; clock := f (clock w); faults := faults w |}.

(** A thrown value: a [NodeJS.ErrnoException] carries a [code], a plain
    [Error] only a message. *)
Inductive JsError : Type :=
  | ErrnoException (code : string) (op : FsOp) (path : string)
  | Error (message : string).

Definition error_code (e : JsError) : option string :=
  match e with
  | ErrnoException code _ _ => Some code
  | Error _ => None
  end.

(** The outcome of a computation: a value, a thrown error, or a loop
    that did not finish within the steps granted to it. *)
Inductive Result (A : Type) : Type :=
  | Ok (a : A)
  | Throw (e : JsError)
  | OutOfFuel.
Arguments Ok {A} a.
Arguments Throw {A} e.
Arguments OutOfFuel {A}.

Definition M (A : Type) : Type := World → Result A * World.

Definition ret {A} (a : A) : M A := fun w => (Ok a, w).

Definition throw {A} (e : JsError) : M A := fun w => (Throw e, w).

Definition bind {A B} (m : M A) (k : A → M B) : M B :=
  fun w =>
    match m w with
    | (Ok a, w') => k a w'
    | (Throw e, w') => (Throw e, w')
    | (OutOfFuel, w') => (OutOfFuel, w')
    end.

Notation "'let*' x ':=' m 'in' k" := (bind m (fun x => k))
  (at level 10, x name, m at level 100, k at level 200, only parsing).
Notation "'let*' '_' ':=' m 'in' k" := (bind m (fun _ => k))
  (at level 10, m at level 100, k at level 200, only parsing).

(** [try { m } catch (error) { handler(error) }] *)
Definition try_catch {A} (m : M A) (handler : JsError → M A) : M A :=
  fun w =>
    match m w with
    | (Throw e, w') => handler e w'
    | r => r
    end.

(** [try { m } finally { f }]: an error thrown by [f] replaces the
    outcome of [m]. *)
Definition try_finally {A} (m : M A) (f : M unit) : M A :=
  fun w =>
    match m w with
    | (OutOfFuel, w') => (OutOfFuel, w')
    | (r, w') =>
        match f w' with
        | (Ok _, w'') => (r, w'')
        | (Throw e, w'') => (Throw e, w'')
        | (OutOfFuel, w'') => (OutOfFuel, w'')
        end
    end.

Definition fault_of (w : World) (op : FsOp) (path : string) : option string :=
  match List.find (fun f => bool_decide (f.1.1 = op) && String.eqb f.1.2 path) (faults w) with
  | Some f => Some f.2
  | None => None
  end.

(** Every call first meets the refusals of the world. *)
Definition guarded {A} (op : FsOp) (path : string) (m : M A) : M A :=
  fun w =>
    match fault_of w op path with
    | Some code => (Throw (ErrnoException code op path), w)
    | None => m w
    end.

Definition enoent {A} (op : FsOp) (path : string) : M A :=
  throw (ErrnoException "ENOENT" op path).

(** [fs.mkdir(dir, { recursive: true })]: paths are flat in the model,
    nothing is recorded for a directory. *)
Definition mkdir_p (dir : string) : M unit := guarded OpMkdir dir (ret tt).

(** [fs.access(path)] *)
Definition access (path : string) : M unit :=
  guarded OpAccess path
    (fun w => match files w !! path with
              | Some _ => (Ok tt, w)
              | None => enoent OpAccess path w
              end).

(** [fs.readFile(path, "utf8")] *)
Definition readFile (path : string) : M string :=
  guarded OpReadFile path
    (fun w => match files w !! path with
              | Some f => (Ok (data f), w)
              | None => enoent OpReadFile path w
              end).

(** [fs.writeFile(path, text, "utf8")] *)
Definition writeFile (path : string) (text : string) : M unit :=
  guarded OpWriteFile path
    (fun w => (Ok tt, set_files (insert path {| data := text; mtimeMs := clock w |}) w)).

(** [fs.appendFile(path, text, "utf8")] *)
Definition appendFile (path : string) (text : string) : M unit :=
  guarded OpAppendFile path
    (fun w =>
       let old := match files w !! path with Some f => data f | None => "" end in
       (Ok tt, set_files (insert path {| data := old +:+ text; mtimeMs := clock w |}) w)).

(** [fs.rename(from, to)] *)
Definition rename (from to : string) : M unit :=
  guarded OpRename from
    (fun w => match files w !! from with
              | Some f => (Ok tt, set_files (fun fs => <[to := f]> (delete from fs)) w)
              | None => enoent OpRename from w
              end).

(** [fs.open(path, "wx")]: exclusive creation. *)
Definition open_wx (path : string) : M string :=
  guarded OpOpen path
    (fun w => match files w !! path with
              | Some _ => (Throw (ErrnoException "EEXIST" OpOpen path), w)
              | None => (Ok path, set_files (insert path {| data := ""; mtimeMs := clock w |}) w)
              end).

(** [fs.stat(path)], of which the sources read [mtimeMs]. *)
Definition stat (path : string) : M Z :=
  guarded OpStat path
    (fun w => match files w !! path with
              | Some f => (Ok (mtimeMs f), w)
              | None => enoent OpStat path w
              end).

(** [fs.unlink(path)] *)
Definition unlink (path : string) : M unit :=
  guarded OpUnlink path
    (fun w => match files w !! path with
              | Some _ => (Ok tt, set_files (delete path) w)
              | None => enoent OpUnlink path w
              end).

(** [Date.now()] *)
Definition Date_now : M Z := fun w => (Ok (clock w), w).

(** [await delay(ms)]: the clock moves on by the delay. *)
Definition delay (ms : Z) : M unit :=
  fun w => (Ok tt, set_clock (fun t => t + Z.max 0 ms) w).

(** [path.dirname], for the paths of the model: the text before the
    last slash, or a dot. *)
Fixpoint dirname_chars (rpath : list ascii) : list ascii :=
  match rpath with
  | [] => ["."%char]
  | c :: rest => if Ascii.eqb c "/"%char then rev rest else dirname_chars rest
  end.

Definition dirname (path : string) : string :=
  Js.str (dirname_chars (rev (Js.chars path))).

End Fs.

(** ** file-lock.ts *)

Module FileLock.
Import Fs.

Record FileLockOptions : Type := {
  timeoutMs : option Z;
  retryDelayMs : option Z;
  staleMs : option Z;
}.

Definition no_options : FileLockOptions :=
  {| timeoutMs := None; retryDelayMs := None; staleMs := None |}.

Definition DEFAULT_TIMEOUT_MS : Z := 5000.
Definition DEFAULT_RETRY_DELAY_MS : Z := 50.
Definition DEFAULT_STALE_MS : Z := 30000.

Definition lockPathOf (filePath : string) : string := filePath +:+ ".lock".

Definition timeoutMessage (lockPath : string) : string :=
  "Timed out waiting for lock: " +:+ lockPath.

Definition isLockStale (lockPath : string) (staleMs : Z) : M bool :=
  try_catch
    (let* mtime := stat lockPath in
     let* now := Date_now in
     ret (staleMs <? now - mtime))
    (fun error =>
       if bool_decide (error_code error = Some "ENOENT") then ret false
       else throw error).

(** [fs.unlink(lockPath).catch(...)]: "already removed" is tolerated. *)
Definition unlink_tolerant (lockPath : string) : M unit :=
  try_catch (unlink lockPath)
    (fun error =>
       if bool_decide (error_code error ≠ Some "ENOENT") then throw error
       else ret tt).

(** What one pass of the [while (true)] loop ends with. *)
Inductive Pass (T : Type) : Type :=
  | Return (t : T)
  | Continue.
Arguments Return {T} t.
Arguments Continue {T}.

Section withFileLock.
Context `{Host} {T : Type}.
Variables (filePath : string) (operation : M T) (options : FileLockOptions).

Let lockPath := lockPathOf filePath.
Let timeout := default DEFAULT_TIMEOUT_MS (timeoutMs options).
Let retryDelay := default DEFAULT_RETRY_DELAY_MS (retryDelayMs options).
Let stale := default DEFAULT_STALE_MS (staleMs options).

(** The metadata written into the marker, best effort. *)
Definition lockMetadata : M unit :=
  let* now := Date_now in
  writeFile lockPath
    (JSON_stringify
       (JObject [("pid", JNumber (inject_Z process_pid));
                 ("createdAt", JString (Date_toISOString now))])).

(** The body of the loop: the [try] block and its [catch]. *)
Definition pass (start : Z) : M (Pass T) :=
  try_catch
    (let* handle := open_wx lockPath in
     let* _ := try_catch lockMetadata (fun _ => ret tt) in
     let* t := try_finally operation (unlink_tolerant lockPath) in
     ret (Return t))
    (fun error =>
       if bool_decide (error_code error ≠ Some "EEXIST") then throw error
       else
         let* now := Date_now in
         if timeout <? now - start then throw (Error (timeoutMessage lockPath))
         else
           let* is_stale := isLockStale lockPath stale in
           if is_stale then
             let* _ := unlink_tolerant lockPath in
             ret Continue
           else
             let* _ := delay retryDelay in
             ret Continue).

Fixpoint lockLoop (fuel : nat) (start : Z) : M T :=
  match fuel with
  | O => fun w => (OutOfFuel, w)
  | S fuel' =>
      let* p := pass start in
      match p with
      | Return t => ret t
      | Continue => lockLoop fuel' start
      end
  end.

(** [fuel] bounds the passes of the loop. *)
Definition withFileLock (fuel : nat) : M T :=
  let* start := Date_now in
  let* _ := mkdir_p (dirname lockPath) in
  lockLoop fuel start.
End withFileLock.

End FileLock.

(** ** memory-store.ts *)

Module MemoryStore.
Import Fs.

Record ReadStats : Type := {
  totalLines : nat;
  emptyLines : nat;
  validLines : nat;
  invalidLines : nat;
  bytes : nat;
}.

Record ReadResult : Type := {
  items : list MemoryItem;
  errors : list string;
  stats : ReadStats;
}.

Record RepairOptions : Type := {
  compact : option bool;
  quarantine : option bool;
}.

Record CorruptEntry : Type := {
  lineNumber : nat;
  corruptError : string;
  raw : string;
}.

Module Repair.
Record RepairResult : Type := {
  repaired : bool;
  compacted : bool;
  errors : list string;
  stats : ReadStats;
  quarantinedFile : option string;
  quarantinedLines : nat;
}.
End Repair.
Abbreviation RepairResult := Repair.RepairResult.

Record HealthOptions : Type := {
  maxLineRatio : option Q;
  minLines : option Q;
  maxBytes : option Q;
}.

Module Health.
Record HealthResult : Type := {
  stats : ReadStats;
  errors : list string;
  latestItems : nat;
  needsRepair : bool;
  shouldCompact : bool;
  reasons : list string;
}.
End Health.
Abbreviation HealthResult := Health.HealthResult.

(** An optional property of an input is [None] when it is not supplied;
    the nullable ones then hold [Some None] for an explicit [null]. *)
Module Input.
Record MemoryInput : Type := {
  scope : string;
  tags : option (list string);
  content : string;
  summary : option (option string);
  metadata : option (option (list (string * json)));
  importance : option Q;
}.
End Input.
Abbreviation MemoryInput := Input.MemoryInput.

(** What [parseLine] returns; [error] is absent on a blank line and on a
    valid one. *)
Record ParsedLine : Type := {
  item : option MemoryItem;
  error : option string;
}.

(** A string is truthy when it is not empty. *)
Definition truthy (s : option string) : bool :=
  match s with
  | Some s => negb (String.length s =? 0)%nat
  | None => false
  end.

Definition bump_empty (s : ReadStats) : ReadStats :=
  {| totalLines := totalLines s; emptyLines := S (emptyLines s);
     validLines := validLines s; invalidLines := invalidLines s; bytes := bytes s |}.

Definition bump_valid (s : ReadStats) : ReadStats :=
  {| totalLines := totalLines s; emptyLines := emptyLines s;
     validLines := S (validLines s); invalidLines := invalidLines s; bytes := bytes s |}.

Definition bump_invalid (s : ReadStats) : ReadStats :=
  {| totalLines := totalLines s; emptyLines := emptyLines s;
     validLines := validLines s; invalidLines := S (invalidLines s); bytes := bytes s |}.

Section Store.
Context `{Host}.

(** [parseLine(line, lineNumber, errors)]; the array [errors] it
    pushes onto is threaded through. *)
Definition parseLine (line : string) (lineNumber : nat) (errors : list string)
  : ParsedLine * list string :=
  if Js.is_blank line then ({| item := None; error := None |}, errors)
  else
    match JSON_parse line with
    | inr parsed =>
        let validation := validateMemoryItem parsed in
        if negb validation.1 then
          let message :=
            "Line " +:+ pretty lineNumber +:+ ": " +:+ Js.join "; " validation.2 in
          ({| item := None; error := Some message |}, errors ++ [message])
        else ({| item := Some (asMemoryItem parsed); error := None |}, errors)
    | inl thrown =>
        let message := "Line " +:+ pretty lineNumber +:+ ": " +:+ thrown in
        ({| item := None; error := Some message |}, errors ++ [message])
    end.

Definition getTimestamp (item : MemoryItem) : Z :=
  match Date_parse (updatedAt item) with
  | Some updated => updated
  | None =>
      match Date_parse (createdAt item) with
      | Some created => created
      | None => 0
      end
  end.

(** The loop of [readAllItems] from index [i] on. *)
Fixpoint readLoop (lines : list string) (i : nat) (acc : ReadResult) : ReadResult :=
  match lines with
  | [] => acc
  | line :: rest =>
      if Js.is_blank line then
        readLoop rest (S i)
          {| items := items acc; errors := errors acc; stats := bump_empty (stats acc) |}
      else
        let '(parsed, errors') := parseLine line (i + 1) (errors acc) in
        match item parsed with
        | Some it =>
            readLoop rest (S i)
              {| items := items acc ++ [it]; errors := errors';
                 stats := bump_valid (stats acc) |}
        | None =>
            if truthy (error parsed) then
              readLoop rest (S i)
                {| items := items acc; errors := errors';
                   stats := bump_invalid (stats acc) |}
            else
              readLoop rest (S i)
                {| items := items acc; errors := errors'; stats := stats acc |}
        end
  end.

(** [readAllItems] once the content of the file is read. *)
Definition readContent (content : string) : ReadResult :=
  let lines := Js.split_lines content in
  readLoop lines 0
    {| items := []; errors := [];
       stats := {| totalLines := length lines; emptyLines := 0; validLines := 0;
                   invalidLines := 0; bytes := Js.byteLength content |} |}.

Definition ensureFile (filePath : string) : M unit :=
  let* _ := mkdir_p (dirname filePath) in
  try_catch (access filePath) (fun _ => writeFile filePath "").

Definition readAllItems (memoryFile : string) : M ReadResult :=
  let* _ := ensureFile memoryFile in
  let* content := readFile memoryFile in
  ret (readContent content).

Definition selectLatestItems (items : list MemoryItem) : list MemoryItem :=
  let latestById :=
    fold_left
      (fun latestById item =>
         match Js.Map_get latestById (id item) with
         | Some current =>
             if getTimestamp current <=? getTimestamp item
             then Js.Map_set latestById (id item) item
             else latestById
         | None => Js.Map_set latestById (id item) item
         end)
      items [] in
  Js.Map_values latestById.

Definition readLatestItems (memoryFile : string) : M ReadResult :=
  let* result := readAllItems memoryFile in
  ret {| items := selectLatestItems (items result); errors := errors result;
         stats := stats result |}.

Definition NEWLINE : string := String (ascii_of_nat 10) EmptyString.

Definition appendItem (fuel : nat) (memoryFile : string) (item : MemoryItem) : M unit :=
  FileLock.withFileLock memoryFile
    (let* _ := ensureFile memoryFile in
     let line := JSON_stringify (itemToJson item) +:+ NEWLINE in
     appendFile memoryFile line)
    FileLock.no_options fuel.

(** The object literal of [addMemoryItem]; [uuid] is what
    [randomUUID()] returned and [now] the instant of [new Date()]. *)
Definition newItem (input : MemoryInput) (uuid : string) (now : Z) : MemoryItem :=
  {| id := uuid;
     createdAt := Date_toISOString now;
     updatedAt := Date_toISOString now;
     scope := normalizeScope (Input.scope input);
     tags := normalizeTags (default [] (Input.tags input));
     content := Input.content input;
     summary := match Input.summary input with Some (Some s) => Some s | _ => None end;
     metadata := match Input.metadata input with Some (Some m) => Some m | _ => None end;
     importance := clampImportance (Input.importance input) (1 # 2);
     deleted := false |}.

Definition addMemoryItem (fuel : nat) (memoryFile : string) (input : MemoryInput)
    (uuid : string) : M MemoryItem :=
  let* now := Date_now in
  let item := newItem input uuid now in
  let* _ := appendItem fuel memoryFile item in
  ret item.

(** [items.find((item) => item.id === id)] *)
Definition find_id (id0 : string) (items : list MemoryItem) : option MemoryItem :=
  List.find (fun item => String.eqb (id item) id0) items.

(** The object literal of [updateMemoryItem]: the spreads of
    [existing] and of [patch], then the listed properties. *)
Definition mergePatch (existing : MemoryItem) (patch : MemoryPatch) (now : Z) : MemoryItem :=
  {| id := id existing;
     createdAt := createdAt existing;
     content := match Patch.content patch with Some c => c | None => content existing end;
     scope :=
       match Patch.scope patch with
       | Some s => if (String.length s =? 0)%nat then scope existing else normalizeScope s
       | None => scope existing
       end;
     tags :=
       match Patch.tags patch with
       | Some t => normalizeTags t
       | None => tags existing
       end;
     summary :=
       match Patch.summary patch with
       | Some s => s
       | None => summary existing
       end;
     metadata :=
       match Patch.metadata patch with
       | Some m => m
       | None => metadata existing
       end;
     importance :=
       match Patch.importance patch with
       | Some i => clampImportance (Some i) (importance existing)
       | None => importance existing
       end;
     deleted :=
       match Patch.deleted patch with
       | Some d => d
       | None => deleted existing
       end;
     updatedAt := Date_toISOString now |}.

(** [null] is [None]. *)
Definition updateMemoryItem (fuel : nat) (memoryFile : string) (id0 : string)
    (patch : MemoryPatch) : M (option MemoryItem) :=
  let* latest := readLatestItems memoryFile in
  match find_id id0 (items latest) with
  | None => ret None
  | Some existing =>
      let* now := Date_now in
      let updated := mergePatch existing patch now in
      let* _ := appendItem fuel memoryFile updated in
      ret (Some updated)
  end.

(** [memory.delete] of the server: [updateMemoryItem(file, id, { deleted: true })]. *)
Definition deleteMemoryItem (fuel : nat) (memoryFile : string) (id0 : string)
  : M (option MemoryItem) :=
  updateMemoryItem fuel memoryFile id0
    {| Patch.scope := None; Patch.tags := None; Patch.content := None;
       Patch.summary := None; Patch.metadata := None; Patch.importance := None;
       Patch.deleted := Some true |}.

Definition getMemoryItem (memoryFile : string) (id0 : string) : M (option MemoryItem) :=
  let* latest := readLatestItems memoryFile in
  ret (find_id id0 (items latest)).

Definition listMemoryItems (memoryFile : string) : M ReadResult :=
  readLatestItems memoryFile.

(** The text a rewrite puts into the log. *)
Definition serialize (items : list MemoryItem) : string :=
  Js.join NEWLINE (List.map (fun item => JSON_stringify (itemToJson item)) items) +:+ NEWLINE.

Definition compactMemoryFile (fuel : nat) (memoryFile : string) : M unit :=
  FileLock.withFileLock memoryFile
    (let* latest := readLatestItems memoryFile in
     let tempFile := memoryFile +:+ ".tmp" in
     let* now := Date_now in
     let backupFile := memoryFile +:+ ".bak." +:+ pretty now in
     let* _ := writeFile tempFile (serialize (items latest)) in
     let* _ := rename memoryFile backupFile in
     rename tempFile memoryFile)
    FileLock.no_options fuel.
(** What the loop of [repairMemoryFile] accumulates. *)
Record RepairScan : Type := {
  scanItems : list MemoryItem;
  scanErrors : list string;
  scanCorrupt : list CorruptEntry;
  scanStats : ReadStats;
}.

Fixpoint repairLoop (lines : list string) (i : nat) (acc : RepairScan) : RepairScan :=
  match lines with
  | [] => acc
  | rawLine :: rest =>
      if Js.is_blank rawLine then
        repairLoop rest (S i)
          {| scanItems := scanItems acc; scanErrors := scanErrors acc;
             scanCorrupt := scanCorrupt acc; scanStats := bump_empty (scanStats acc) |}
      else
        let '(parsed, errors') := parseLine rawLine (i + 1) (scanErrors acc) in
        match item parsed with
        | Some it =>
            repairLoop rest (S i)
              {| scanItems := scanItems acc ++ [it]; scanErrors := errors';
                 scanCorrupt := scanCorrupt acc; scanStats := bump_valid (scanStats acc) |}
        | None =>
            match error parsed with
            | Some message =>
                if truthy (Some message) then
                  repairLoop rest (S i)
                    {| scanItems := scanItems acc; scanErrors := errors';
                       scanCorrupt :=
                         scanCorrupt acc ++
                         [{| lineNumber := i + 1; corruptError := message; raw := rawLine |}];
                       scanStats := bump_invalid (scanStats acc) |}
                else
                  repairLoop rest (S i)
                    {| scanItems := scanItems acc; scanErrors := errors';
                       scanCorrupt := scanCorrupt acc; scanStats := scanStats acc |}
            | None =>
                repairLoop rest (S i)
                  {| scanItems := scanItems acc; scanErrors := errors';
                     scanCorrupt := scanCorrupt acc; scanStats := scanStats acc |}
            end
        end
  end.

Definition scanContent (content : string) : RepairScan :=
  let lines := Js.split_lines content in
  repairLoop lines 0
    {| scanItems := []; scanErrors := []; scanCorrupt := [];
       scanStats := {| totalLines := length lines; emptyLines := 0; validLines := 0;
                       invalidLines := 0; bytes := Js.byteLength content |} |}.

Definition corruptToJson (entry : CorruptEntry) : json :=
  JObject [("lineNumber", JNumber (inject_Z (Z.of_nat (lineNumber entry))));
           ("error", JString (corruptError entry));
           ("raw", JString (raw entry))].

Definition repairMemoryFile (fuel : nat) (memoryFile : string) (options : RepairOptions)
  : M RepairResult :=
  let compact := default false (compact options) in
  let quarantine := default true (quarantine options) in
  FileLock.withFileLock memoryFile
    (let* _ := ensureFile memoryFile in
     let* content := readFile memoryFile in
     let scan := scanContent content in
     let repaired := (0 <? invalidLines (scanStats scan))%nat in
     let compacted := compact && (0 <? length (scanItems scan))%nat in
     let shouldWrite := repaired || compacted in
     let* quarantinedFile :=
       (if quarantine && (0 <? length (scanCorrupt scan))%nat then
          let* now := Date_now in
          let file := memoryFile +:+ ".corrupt." +:+ pretty now +:+ ".jsonl" in
          let payload :=
            Js.join NEWLINE
              (List.map (fun entry => JSON_stringify (corruptToJson entry)) (scanCorrupt scan))
            +:+ NEWLINE in
          let* _ := writeFile file payload in
          ret (Some file)
        else ret None) in
     let* _ :=
       (if shouldWrite then
          let outputItems :=
            if compacted then selectLatestItems (scanItems scan) else scanItems scan in
          let tempFile := memoryFile +:+ ".tmp" in
          let* now := Date_now in
          let backupFile := memoryFile +:+ ".bak." +:+ pretty now in
          let* _ := writeFile tempFile (serialize outputItems) in
          let* _ := rename memoryFile backupFile in
          rename tempFile memoryFile
        else ret tt) in
     ret {| Repair.repaired := repaired;
            Repair.compacted := compacted;
            Repair.errors := scanErrors scan;
            Repair.stats := scanStats scan;
            Repair.quarantinedFile := quarantinedFile;
            Repair.quarantinedLines := length (scanCorrupt scan) |})
    FileLock.no_options fuel.
End Store.

(** A count as a number. *)
Definition count (n : nat) : Q := inject_Z (Z.of_nat n).

Section Health.
Context `{Host}.

(** [Number_toString x] is the text of [x] in a template literal and
    [Number_toFixed x digits] is [x.toFixed(digits)]. *)
Variables (Number_toString : Q → string) (Number_toFixed : Q → nat → string).

Definition getMemoryHealth (memoryFile : string) (options : HealthOptions) : M HealthResult :=
  let maxLineRatio := default 2%Q (maxLineRatio options) in
  let minLines := default 200%Q (minLines options) in
  let maxBytes := default 5000000%Q (maxBytes options) in
  let* all := readAllItems memoryFile in
  let latestItems := selectLatestItems (items all) in
  let reasons : list string := [] in
  let reasons :=
    if Qle_bool minLines (count (validLines (stats all))) && (0 <? length latestItems)%nat then
      let ratio := (count (validLines (stats all)) / count (length latestItems))%Q in
      if Qle_bool maxLineRatio ratio then
        reasons ++
        ["line-ratio:" +:+ Number_toFixed ratio 2 +:+ ">=" +:+ Number_toString maxLineRatio]
      else reasons
    else reasons in
  let reasons :=
    if Qle_bool maxBytes (count (bytes (stats all))) then
      reasons ++
      ["bytes:" +:+ pretty (bytes (stats all)) +:+ ">=" +:+ Number_toString maxBytes]
    else reasons in
  let needsRepair := (0 <? invalidLines (stats all))%nat in
  let reasons :=
    if needsRepair then reasons ++ ["invalid-lines:" +:+ pretty (invalidLines (stats all))]
    else reasons in
  ret {| Health.stats := stats all;
         Health.errors := errors all;
         Health.latestItems := length latestItems;
         Health.needsRepair := needsRepair;
         Health.shouldCompact := (0 <? length reasons)%nat;
         Health.reasons := reasons |}.
End Health.

End MemoryStore.

(** ** retriever.ts *)

Module Retriever.

Module Query.
Record SearchQuery : Type := {
  scope : option string;
  tags : option (list string);
  text : option string;
  limit : option Q;
  includeDeleted : option bool;
  now : option Z;
}.
End Query.
Abbreviation SearchQuery := Query.SearchQuery.


Definition MS_PER_DAY : Q := inject_Z (1000 * 60 * 60 * 24).

Definition tokenize (text : string) : list string :=
  List.filter (fun token => negb (String.length token =? 0)%nat)
    (List.map Js.trim (Js.split_ws (Js.toLowerCase text))).

(** [matches / total], the counts of a loop over a list. *)
Definition fraction (matches : nat) (total : nat) : Q :=
  Double.div (inject_Z (Z.of_nat matches)) (inject_Z (Z.of_nat total)).

Definition textScore (item : MemoryItem) (tokens : list string) : Q :=
  if (length tokens =? 0)%nat then 0%Q
  else
    let haystack :=
      Js.toLowerCase (content item +:+ " " +:+ default "" (summary item)) in
    let matches := length (List.filter (fun token => Js.includes haystack token) tokens) in
    fraction matches (length tokens).

Definition tagScore (item : MemoryItem) (queryTags : list string) : Q :=
  if (length queryTags =? 0)%nat then 0%Q
  else
    let tagSet := Js.Set_from (List.map Js.toLowerCase (tags item)) in
    let matches :=
      length (List.filter (fun tag => bool_decide (Js.toLowerCase tag ∈ tagSet)) queryTags) in
    fraction matches (length queryTags).

(** A string is truthy when it is not empty. *)
Definition given (s : option string) : option string :=
  match s with
  | Some s => if (String.length s =? 0)%nat then None else Some s
  | None => None
  end.

Section Retriever.
Context `{Host}.

Definition recencyScore (item : MemoryItem) (halfLifeDays : Q) (now : Z) : Q :=
  if Qle_bool halfLifeDays 0 then 1%Q
  else
    match Date_parse (updatedAt item) with
    | None => 0%Q
    | Some updated =>
        let ageDays := Double.div (Double.sub (inject_Z now) (inject_Z updated)) MS_PER_DAY in
        Math_exp (Double.div (- ageDays) halfLifeDays)
    end.

(** The constants [tags] and [tokens] of [scoreItem]. *)
Definition queryTags (query : SearchQuery) : list string := default [] (Query.tags query).

Definition queryTokens (query : SearchQuery) : list string :=
  match given (Query.text query) with
  | Some t => tokenize t
  | None => []
  end.

(** The constant [scopeScore] of [scoreItem]. *)
Definition scopeScore (item : MemoryItem) (query : SearchQuery) : Q :=
  match given (Query.scope query) with
  | Some s => if String.eqb (scope item) s then 1%Q else 0%Q
  | None => 0%Q
  end.

(** [clock] is the instant [new Date()] reads when the query carries no
    [now]. *)
Definition scoreItem (clock : Z) (item : MemoryItem) (query : SearchQuery)
    (config : ScoringConfig) : Q :=
  let now := default clock (Query.now query) in
  Double.add
    (Double.add
       (Double.add
          (Double.add
             (Double.mul (Scoring.scope config) (scopeScore item query))
             (Double.mul (Scoring.tag config) (tagScore item (queryTags query))))
          (Double.mul (Scoring.recency config)
             (recencyScore item (Scoring.halfLifeDays config) now)))
       (Double.mul (Scoring.importance config) (importance item)))
    (Double.mul (Scoring.text config) (textScore item (queryTokens query))).


End Retriever.

End Retriever.

(** ** summarizer.ts *)

Module Summarizer.

(** [s.lastIndexOf(c)], [-1] when [c] does not occur. *)
Fixpoint lastIndexOf_aux (c : ascii) (l : list ascii) (i : Z) (found : Z) : Z :=
  match l with
  | [] => found
  | d :: l' => lastIndexOf_aux c l' (i + 1) (if Ascii.eqb d c then i else found)
  end.

Definition lastIndexOf (s : string) (c : ascii) : Z := lastIndexOf_aux c (Js.chars s) 0 (-1).

(** [s.slice(0, end)] *)
Definition slice0 (s : string) (e : Q) : string := Js.str (Js.slice0 (Js.chars s) e).

Definition len (s : string) : Q := inject_Z (Z.of_nat (String.length s)).

Definition summarizeContent (content : string) (maxLength : Q) : string :=
  if Qle_bool (len content) maxLength then content
  else
    let snippet := slice0 content maxLength in
    let lastSentence :=
      Z.max (Z.max (lastIndexOf snippet ".") (lastIndexOf snippet "!")) (lastIndexOf snippet "?") in
    if negb (Qle_bool (inject_Z lastSentence) (maxLength * (6 # 10)))
    then slice0 snippet (inject_Z (lastSentence + 1))
    else Js.trim snippet +:+ "...".

Section Summarizer.
Context `{Host}.

Definition ageInDays (dateIso : string) (now : Z) : Q :=
  match Date_parse dateIso with
  | None => 0%Q
  | Some parsed => (inject_Z (now - parsed) / inject_Z (1000 * 60 * 60 * 24))%Q
  end.

Definition needsSummary (item : MemoryItem) (config : SummarizationConfig) (now : Z) : bool :=
  let ageDays := ageInDays (updatedAt item) now in
  Qle_bool (olderThanDays config) ageDays
  && Qle_bool (maxContentLength config) (len (content item)).

Definition summarizeItem (item : MemoryItem) (config : SummarizationConfig) (now : Z)
  : option string :=
  if negb (needsSummary item config now) then summary item
  else
    let tagPrefix :=
      if (0 <? length (tags item))%nat
      then "Tags: " +:+ Js.join ", " (tags item) +:+ ". "
      else "" in
    Some (tagPrefix +:+ summarizeContent (content item) (maxContentLength config)).
End Summarizer.

End Summarizer.

(** ** prune.ts *)

Module Prune.

Module Action.
Record PruneAction : Type := {
  id : string;
  patch : MemoryPatch;
  reason : string;
}.
End Action.
Abbreviation PruneAction := Action.PruneAction.

Module Stats.
Record PruneStats : Type := {
  deduped : nat;
  deleted : nat;
  summarized : nat;
  retained : nat;
}.
End Stats.
Abbreviation PruneStats := Stats.PruneStats.

(** An entry of [ranked]. *)
Record Ranked : Type := {
  item : MemoryItem;
  score : Q;
  ageDays : Q;
}.

Definition deletePatch : MemoryPatch :=
  {| Patch.scope := None; Patch.tags := None; Patch.content := None; Patch.summary := None;
     Patch.metadata := None; Patch.importance := None; Patch.deleted := Some true |}.

Definition tagsPatch (mergedTags : list string) : MemoryPatch :=
  {| Patch.scope := None; Patch.tags := Some mergedTags; Patch.content := None;
     Patch.summary := None; Patch.metadata := None; Patch.importance := None;
     Patch.deleted := None |}.

Definition summaryPatch (text : string) : MemoryPatch :=
  {| Patch.scope := None; Patch.tags := None; Patch.content := None;
     Patch.summary := Some (Some text); Patch.metadata := None; Patch.importance := None;
     Patch.deleted := None |}.

Definition bump_deduped (s : PruneStats) : PruneStats :=
  {| Stats.deduped := S (Stats.deduped s); Stats.deleted := Stats.deleted s;
     Stats.summarized := Stats.summarized s; Stats.retained := Stats.retained s |}.

Definition bump_deleted (s : PruneStats) : PruneStats :=
  {| Stats.deduped := Stats.deduped s; Stats.deleted := S (Stats.deleted s);
     Stats.summarized := Stats.summarized s; Stats.retained := Stats.retained s |}.

Definition bump_summarized (s : PruneStats) : PruneStats :=
  {| Stats.deduped := Stats.deduped s; Stats.deleted := Stats.deleted s;
     Stats.summarized := S (Stats.summarized s); Stats.retained := Stats.retained s |}.

Definition bump_retained (s : PruneStats) : PruneStats :=
  {| Stats.deduped := Stats.deduped s; Stats.deleted := Stats.deleted s;
     Stats.summarized := Stats.summarized s; Stats.retained := S (Stats.retained s) |}.

(** The grouping loop: [byScope.get(item.scope).push(item)]. *)
Definition groupByScope (items : list MemoryItem) : list (string * list MemoryItem) :=
  fold_left
    (fun byScope item =>
       let byScope :=
         match Js.Map_get byScope (scope item) with
         | Some _ => byScope
         | None => Js.Map_set byScope (scope item) []
         end in
       Js.Map_set byScope (scope item)
         (default [] (Js.Map_get byScope (scope item)) ++ [item]))
    items [].

Section Prune.
Context `{Host}.

Definition ageInDays (dateIso : string) (now : Z) : Q :=
  match Date_parse dateIso with
  | None => 0%Q
  | Some parsed => (inject_Z (now - parsed) / inject_Z (1000 * 60 * 60 * 24))%Q
  end.

Definition contentFingerprint (content : string) : string :=
  let normalized := Js.trim (Js.collapse_ws (Js.toLowerCase content)) in
  sha256_hex normalized.

(** The dedupe loop over the items of one scope; [actions] and [stats]
    are the accumulators of [pruneMemory]. *)
Fixpoint dedupeLoop (scopeItems : list MemoryItem)
    (fingerprintMap : list (string * MemoryItem))
    (actions : list PruneAction) (stats : PruneStats)
  : list PruneAction * PruneStats :=
  match scopeItems with
  | [] => (actions, stats)
  | item :: rest =>
      if deleted item then dedupeLoop rest fingerprintMap actions stats
      else
        let fingerprint := contentFingerprint (content item) in
        match Js.Map_get fingerprintMap fingerprint with
        | None =>
            dedupeLoop rest (Js.Map_set fingerprintMap fingerprint item) actions stats
        | Some existing =>
            let mergedTags := Js.Set_from (tags existing ++ tags item) in
            let actions :=
              if negb (length mergedTags =? length (tags existing))%nat
              then actions ++
                   [{| Action.id := id existing; Action.patch := tagsPatch mergedTags;
                       Action.reason := "merge tags from duplicate" |}]
              else actions in
            let actions :=
              actions ++
              [{| Action.id := id item; Action.patch := deletePatch;
                  Action.reason := "duplicate content in scope" |}] in
            dedupeLoop rest fingerprintMap actions (bump_deduped stats)
        end
  end.

Definition rank (now : Z) (scopeItems : list MemoryItem) : list Ranked :=
  Js.Array_sort (fun a b => Some (score b - score a)%Q)
    (List.map
       (fun item =>
          let ageDays := ageInDays (updatedAt item) now in
          let recency := (1 / (1 + ageDays))%Q in
          {| item := item; score := (importance item + recency)%Q; ageDays := ageDays |})
       (List.filter (fun item => negb (deleted item)) scopeItems)).

(** The loop over [ranked]. *)
Fixpoint ageLoop (pruneConfig : PruneConfig) (summarizationConfig : SummarizationConfig)
    (now : Z) (keep : list string) (ranked : list Ranked)
    (actions : list PruneAction) (stats : PruneStats)
  : list PruneAction * PruneStats :=
  match ranked with
  | [] => (actions, stats)
  | entry :: rest =>
      let it := item entry in
      let continue := ageLoop pruneConfig summarizationConfig now keep rest in
      if bool_decide (id it ∈ keep) then continue actions (bump_retained stats)
      else if Qle_bool (deleteOlderThanDays pruneConfig) (ageDays entry) then
        continue
          (actions ++ [{| Action.id := id it; Action.patch := deletePatch; Action.reason := "aged out" |}])
          (bump_deleted stats)
      else if Qle_bool (compressOlderThanDays pruneConfig) (ageDays entry) then
        match Summarizer.summarizeItem it summarizationConfig now with
        | Some text =>
            if negb (String.length text =? 0)%nat
               && negb (bool_decide (Some text = summary it))
            then
              continue
                (actions ++
                 [{| Action.id := id it; Action.patch := summaryPatch text;
                     Action.reason := "compress older memory" |}])
                (bump_summarized stats)
            else continue actions stats
        | None => continue actions stats
        end
      else continue actions stats
  end.

(** The body of the loop over the scopes. *)
Definition pruneScope (pruneConfig : PruneConfig) (summarizationConfig : SummarizationConfig)
    (now : Z) (scopeItems : list MemoryItem)
    (actions : list PruneAction) (stats : PruneStats)
  : list PruneAction * PruneStats :=
  let '(actions, stats) :=
    if dedupe pruneConfig then dedupeLoop scopeItems [] actions stats
    else (actions, stats) in
  let ranked := rank now scopeItems in
  let keep :=
    Js.Set_from
      (List.map (fun entry => id (item entry))
         (Js.slice0 ranked (maxPerScope pruneConfig))) in
  ageLoop pruneConfig summarizationConfig now keep ranked actions stats.

Definition pruneMemory (items : list MemoryItem) (pruneConfig : PruneConfig)
    (summarizationConfig : SummarizationConfig) (now : Z)
  : list PruneAction * PruneStats :=
  fold_left
    (fun acc entry => pruneScope pruneConfig summarizationConfig now entry.2 acc.1 acc.2)
    (groupByScope items)
    ([], {| Stats.deduped := 0; Stats.deleted := 0; Stats.summarized := 0; Stats.retained := 0 |}).
End Prune.

End Prune.

(** ** indexer.ts *)

Module Indexer.

(** [ids.filter((existing) => existing !== id)], the bucket dropped
    where nothing is left. *)
Definition dropId (id0 : string) (ids : list string) : option (list string) :=
  let ids := List.filter (fun existing => negb (String.eqb existing id0)) ids in
  if (length ids =? 0)%nat then None else Some ids.

(** Each loop of [removeIdFromIndex] visits every own key of its
    object once and rewrites or deletes only that key. *)
Definition removeIdFromIndex (index : MemoryIndex) (id0 : string) : MemoryIndex :=
  {| Index.version := Index.version index;
     Index.updatedAt := Index.updatedAt index;
     Index.byScope := omap (dropId id0) (Index.byScope index);
     Index.byTag := omap (dropId id0) (Index.byTag index);
     Index.byScopeTag :=
       omap
         (fun byTag : gmap string (list string) =>
            let byTag := omap (dropId id0) byTag in
            if bool_decide (byTag = ∅) then None else Some byTag)
         (Index.byScopeTag index) |}.

(** [if (!bucket[key]) bucket[key] = []; bucket[key].push(id)] *)
Definition push (bucket : gmap string (list string)) (key : string) (id0 : string)
  : gmap string (list string) :=
  <[key := default [] (bucket !! key) ++ [id0]]> bucket.

Definition addIdToIndex (index : MemoryIndex) (item : MemoryItem) : MemoryIndex :=
  let index :=
    {| Index.version := Index.version index;
       Index.updatedAt := Index.updatedAt index;
       Index.byScope := push (Index.byScope index) (scope item) (id item);
       Index.byTag := Index.byTag index;
       Index.byScopeTag := Index.byScopeTag index |} in
  fold_left
    (fun index tag =>
       {| Index.version := Index.version index;
          Index.updatedAt := Index.updatedAt index;
          Index.byScope := Index.byScope index;
          Index.byTag := push (Index.byTag index) tag (id item);
          Index.byScopeTag :=
            <[scope item :=
                push (default ∅ (Index.byScopeTag index !! scope item)) tag (id item)]>
              (Index.byScopeTag index) |})
    (tags item) index.

Section Indexer.
Context `{Host}.

(** [aItem ? Date.parse(aItem.updatedAt) : 0]; [None] is [NaN]. *)
Definition timeOf (itemsById : list (string * MemoryItem)) (id0 : string) : option Z :=
  match Js.Map_get itemsById id0 with
  | Some item => Date_parse (updatedAt item)
  | None => Some 0
  end.

Definition compareIds (itemsById : list (string * MemoryItem)) (a b : string) : option Q :=
  match timeOf itemsById a, timeOf itemsById b with
  | Some aTime, Some bTime => Some (inject_Z (bTime - aTime))
  | _, _ => None
  end.

Definition sortByUpdated (itemsById : list (string * MemoryItem)) (ids : list string)
  : list string :=
  Js.Array_sort (compareIds itemsById) ids.

Definition sortIndex (index : MemoryIndex) (itemsById : list (string * MemoryItem))
  : MemoryIndex :=
  {| Index.version := Index.version index;
     Index.updatedAt := Index.updatedAt index;
     Index.byScope := sortByUpdated itemsById <$> Index.byScope index;
     Index.byTag := sortByUpdated itemsById <$> Index.byTag index;
     Index.byScopeTag :=
       (fun byTag : gmap string (list string) => sortByUpdated itemsById <$> byTag)
         <$> Index.byScopeTag index |}.

(** [clock] is the instant [new Date()] reads. *)
Definition createEmptyIndex (clock : Z) : MemoryIndex :=
  {| Index.version := MEMORY_INDEX_VERSION;
     Index.updatedAt := Date_toISOString clock;
     Index.byScope := ∅; Index.byTag := ∅; Index.byScopeTag := ∅ |}.

Definition buildIndex (clock : Z) (items : list MemoryItem) : MemoryIndex :=
  let '(index, itemsById) :=
    fold_left
      (fun '(index, itemsById) item =>
         if deleted item then (index, itemsById)
         else (addIdToIndex index item, Js.Map_set itemsById (id item) item))
      items (createEmptyIndex clock, []) in
  sortIndex index itemsById.

(** The loop of [updateIndexFromItems]. *)
Definition applyItems (index : MemoryIndex) (items : list MemoryItem)
  : MemoryIndex * list (string * MemoryItem) :=
  fold_left
    (fun '(index, itemsById) item =>
       let itemsById := Js.Map_set itemsById (id item) item in
       let index := removeIdFromIndex index (id item) in
       let index := if negb (deleted item) then addIdToIndex index item else index in
       (index, itemsById))
    items (index, []).

(** [updateIndexFromItems] between [loadIndex] and [saveIndex]: from the
    index that was loaded to the index that is saved and returned. *)
Definition updateIndex (index : MemoryIndex) (items : list MemoryItem) : MemoryIndex :=
  let '(index, itemsById) := applyItems index items in
  sortIndex index itemsById.

(** [loadIndex] once the file is read: [stored] is the document
    [JSON.parse(raw) as MemoryIndex], [None] when the parse throws or
    yields nothing. *)
Definition loadIndex (clock : Z) (stored : option MemoryIndex) : MemoryIndex :=
  match stored with
  | Some parsed =>
      if bool_decide (Index.version parsed ≠ MEMORY_INDEX_VERSION)
      then createEmptyIndex clock else parsed
  | None => createEmptyIndex clock
  end.

(** The document [saveIndex] writes:
    [{ ...index, updatedAt: new Date().toISOString() }]. *)
Definition savedIndex (clock : Z) (index : MemoryIndex) : MemoryIndex :=
  {| Index.version := Index.version index;
     Index.updatedAt := Date_toISOString clock;
     Index.byScope := Index.byScope index;
     Index.byTag := Index.byTag index;
     Index.byScopeTag := Index.byScopeTag index |}.

(** [updateIndexFromItems]: from the stored document to the index
    returned and the document stored. *)
Definition updateIndexFromItems (clock : Z) (stored : option MemoryIndex)
    (items : list MemoryItem) : MemoryIndex * MemoryIndex :=
  let index := loadIndex clock stored in
  let index := updateIndex index items in
  (index, savedIndex clock index).
End Indexer.

End Indexer.

(** * A reference runtime

    An executable instance of [Host], on which the operations run on
    concrete logs.  Its [Date.parse] reads the form [toISOString]
    prints, which is the form of every timestamp the engine writes, and
    answers [NaN] to any other text; its JSON is the JSON of the
    records: no exponents, no [\u] escapes. *)

Module Reference.

Definition QUOTE : ascii := ascii_of_nat 34.
Definition BACKSLASH : ascii := ascii_of_nat 92.

Definition digit (c : ascii) : option Z :=
  let n := Js.code c in
  if ((48 <=? n) && (n <=? 57))%nat then Some (Z.of_nat n - 48) else None.

Fixpoint number_of (acc : Z) (l : list ascii) : option Z :=
  match l with
  | [] => Some acc
  | c :: l' =>
      match digit c with
      | Some d => number_of (10 * acc + d) l'
      | None => None
      end
  end.

(** [n] in at least [width] decimal digits. *)
Definition pad (width : nat) (n : Z) : string :=
  let s := pretty (Z.abs n) in
  Js.str (replicate (width - String.length s) "0"%char) +:+ s.

(** Days since the epoch of a civil date, and back. *)
Definition days_from_civil (y m d : Z) : Z :=
  let y := if m <=? 2 then y - 1 else y in
  let era := y / 400 in
  let yoe := y - era * 400 in
  let doy := (153 * (m + (if 2 <? m then -3 else 9)) + 2) / 5 + d - 1 in
  let doe := yoe * 365 + yoe / 4 - yoe / 100 + doy in
  era * 146097 + doe - 719468.

Definition civil_from_days (z : Z) : Z * Z * Z :=
  let z := z + 719468 in
  let era := z / 146097 in
  let doe := z - era * 146097 in
  let yoe := (doe - doe / 1460 + doe / 36524 - doe / 146096) / 365 in
  let y := yoe + era * 400 in
  let doy := doe - (365 * yoe + yoe / 4 - yoe / 100) in
  let mp := (5 * doy + 2) / 153 in
  let d := doy - (153 * mp + 2) / 5 + 1 in
  let m := if mp <? 10 then mp + 3 else mp - 9 in
  (if m <=? 2 then y + 1 else y, m, d).

Definition MS_PER_DAY : Z := 86400000.

(** [new Date(t).toISOString()] *)
Definition toISOString (t : Z) : string :=
  let days := t / MS_PER_DAY in
  let ms := t mod MS_PER_DAY in
  let '(y, m, d) := civil_from_days days in
  let year :=
    if (0 <=? y) && (y <=? 9999) then pad 4 y
    else (if y <? 0 then "-" else "+") +:+ pad 6 y in
  year +:+ "-" +:+ pad 2 m +:+ "-" +:+ pad 2 d +:+ "T"
  +:+ pad 2 (ms / 3600000) +:+ ":" +:+ pad 2 (ms / 60000 mod 60) +:+ ":"
  +:+ pad 2 (ms / 1000 mod 60) +:+ "." +:+ pad 3 (ms mod 1000) +:+ "Z".

(** [Date.parse] on the form above. *)
Definition parseISO (s : string) : option Z :=
  match Js.chars s with
  | [y1; y2; y3; y4; _; m1; m2; _; d1; d2; _; h1; h2; _; n1; n2; _; s1; s2; _; f1; f2; f3; _] =>
      match number_of 0 [y1; y2; y3; y4], number_of 0 [m1; m2], number_of 0 [d1; d2],
            number_of 0 [h1; h2], number_of 0 [n1; n2], number_of 0 [s1; s2],
            number_of 0 [f1; f2; f3] with
      | Some y, Some m, Some d, Some h, Some n, Some sec, Some f =>
          let t :=
            days_from_civil y m d * MS_PER_DAY + h * 3600000 + n * 60000 + sec * 1000 + f in
          if String.eqb (toISOString t) s then Some t else None
      | _, _, _, _, _, _, _ => None
      end
  | _ => None
  end.

(** [JSON.stringify] *)
Definition escape_char (c : ascii) : list ascii :=
  if Ascii.eqb c QUOTE then [BACKSLASH; QUOTE]
  else if Ascii.eqb c BACKSLASH then [BACKSLASH; BACKSLASH]
  else if (Js.code c =? 10)%nat then [BACKSLASH; "n"%char]
  else if (Js.code c =? 13)%nat then [BACKSLASH; "r"%char]
  else if (Js.code c =? 9)%nat then [BACKSLASH; "t"%char]
  else [c].

Definition quote (s : string) : string :=
  Js.str (QUOTE :: flat_map escape_char (Js.chars s) ++ [QUOTE]).

(** The digits of a fraction [n / d] below one, at most [fuel] of them. *)
Fixpoint fraction_digits (fuel : nat) (n d : Z) : string :=
  match fuel with
  | O => ""
  | S fuel' =>
      if n =? 0 then ""
      else pretty (10 * n / d) +:+ fraction_digits fuel' (10 * n mod d) d
  end.

Definition print_number (q : Q) : string :=
  let n := Z.abs (Qnum q) in
  let d := Z.pos (Qden q) in
  let whole := n / d in
  let frac := fraction_digits 17 (n mod d) d in
  (if Qnum q <? 0 then "-" else "") +:+ pretty whole
  +:+ (if (String.length frac =? 0)%nat then "" else "." +:+ frac).

Fixpoint stringify (v : json) : string :=
  match v with
  | JNull => "null"
  | JBool true => "true"
  | JBool false => "false"
  | JNumber q => print_number q
  | JString s => quote s
  | JArray l => "[" +:+ Js.join "," (List.map stringify l) +:+ "]"
  | JObject o =>
      "{" +:+ Js.join "," (List.map (fun kv => quote kv.1 +:+ ":" +:+ stringify kv.2) o) +:+ "}"
  end.

(** [JSON.parse]: a recursive descent over the characters; [fuel]
    bounds the nesting and the lengths. *)
Definition skip_ws (l : list ascii) : list ascii := Js.trimStart_chars l.

Fixpoint parse_string (fuel : nat) (acc : list ascii) (l : list ascii)
  : option (string * list ascii) :=
  match fuel with
  | O => None
  | S fuel' =>
      match l with
      | [] => None
      | c :: l' =>
          if Ascii.eqb c QUOTE then Some (Js.str (rev acc), l')
          else if Ascii.eqb c BACKSLASH then
            match l' with
            | e :: l'' =>
                if Ascii.eqb e "n"%char then parse_string fuel' (ascii_of_nat 10 :: acc) l''
                else if Ascii.eqb e "r"%char then parse_string fuel' (ascii_of_nat 13 :: acc) l''
                else if Ascii.eqb e "t"%char then parse_string fuel' (ascii_of_nat 9 :: acc) l''
                else if Ascii.eqb e QUOTE || Ascii.eqb e BACKSLASH || Ascii.eqb e "/"%char
                then parse_string fuel' (e :: acc) l''
                else None
            | [] => None
            end
          else if (Js.code c <? 32)%nat then None
          else parse_string fuel' (c :: acc) l'
      end
  end.

Fixpoint take_digits (l : list ascii) : list ascii * list ascii :=
  match l with
  | c :: l' =>
      match digit c with
      | Some _ => let '(ds, rest) := take_digits l' in (c :: ds, rest)
      | None => ([], l)
      end
  | [] => ([], [])
  end.

Definition parse_number (l : list ascii) : option (Q * list ascii) :=
  let '(negative, l) :=
    match l with
    | c :: l' => if Ascii.eqb c "-"%char then (true, l') else (false, l)
    | [] => (false, l)
    end in
  let '(whole, l) := take_digits l in
  match whole, number_of 0 whole with
  | _ :: _, Some w =>
      let '(q, l) :=
        match l with
        | c :: l' =>
            if Ascii.eqb c "."%char then
              let '(frac, l'') := take_digits l' in
              match frac, number_of 0 frac with
              | _ :: _, Some f =>
                  (Some (Qred (inject_Z w + (f # Pos.of_nat (Nat.pow 10 (length frac))))%Q), l'')
              | _, _ => (None, l)
              end
            else (Some (inject_Z w), l)
        | [] => (Some (inject_Z w), l)
        end in
      match q with
      | Some q => Some (if negative then Qred (- q) else q, l)
      | None => None
      end
  | _, _ => None
  end.

Definition expect (word : string) (v : json) (l : list ascii) : option (json * list ascii) :=
  if Js.starts_with (Js.chars word) l
  then Some (v, drop (String.length word) l) else None.

Fixpoint parse_value (fuel : nat) (l : list ascii) : option (json * list ascii) :=
  match fuel with
  | O => None
  | S fuel' =>
      let elements :=
        fix elements (n : nat) (acc : list json) (l : list ascii) : option (json * list ascii) :=
          match n with
          | O => None
          | S n' =>
              match parse_value fuel' l with
              | Some (v, l) =>
                  match skip_ws l with
                  | c :: l' =>
                      if Ascii.eqb c ","%char then elements n' (acc ++ [v]) l'
                      else if Ascii.eqb c "]"%char then Some (JArray (acc ++ [v]), l')
                      else None
                  | [] => None
                  end
              | None => None
              end
          end in
      let members :=
        fix members (n : nat) (acc : list (string * json)) (l : list ascii)
          : option (json * list ascii) :=
          match n with
          | O => None
          | S n' =>
              match skip_ws l with
              | q :: l =>
                  if Ascii.eqb q QUOTE then
                    match parse_string (length l) [] l with
                    | Some (key, l) =>
                        match skip_ws l with
                        | c :: l =>
                            if Ascii.eqb c ":"%char then
                              match parse_value fuel' l with
                              | Some (v, l) =>
                                  let acc := Js.Map_set acc key v in
                                  match skip_ws l with
                                  | c :: l' =>
                                      if Ascii.eqb c ","%char then members n' acc l'
                                      else if Ascii.eqb c "}"%char then Some (JObject acc, l')
                                      else None
                                  | [] => None
                                  end
                              | None => None
                              end
                            else None
                        | [] => None
                        end
                    | None => None
                    end
                  else None
              | [] => None
              end
          end in
      match skip_ws l with
      | [] => None
      | c :: l' =>
          if Ascii.eqb c QUOTE then
            match parse_string (length l') [] l' with
            | Some (s, rest) => Some (JString s, rest)
            | None => None
            end
          else if Ascii.eqb c "["%char then
            match skip_ws l' with
            | d :: l'' =>
                if Ascii.eqb d "]"%char then Some (JArray [], l'')
                else elements (length l') [] l'
            | [] => None
            end
          else if Ascii.eqb c "{"%char then
            match skip_ws l' with
            | d :: l'' =>
                if Ascii.eqb d "}"%char then Some (JObject [], l'')
                else members (length l') [] l'
            | [] => None
            end
          else if Ascii.eqb c "t"%char then expect "true" (JBool true) (c :: l')
          else if Ascii.eqb c "f"%char then expect "false" (JBool false) (c :: l')
          else if Ascii.eqb c "n"%char then expect "null" JNull (c :: l')
          else
            match parse_number (c :: l') with
            | Some (q, rest) => Some (JNumber q, rest)
            | None => None
            end
      end
  end.

Definition parse (s : string) : string + json :=
  match parse_value (S (String.length s)) (Js.chars s) with
  | Some (v, rest) =>
      match skip_ws rest with
      | [] => inr v
      | _ => inl "Unexpected non-whitespace character after JSON"
      end
  | None => inl "Unexpected token in JSON"
  end.

(** A polynomial for [Math.exp] about zero. *)
Definition exp (x : Q) : Q :=
  Qred (1 + x * (1 + x / 2 * (1 + x / 3 * (1 + x / 4 * (1 + x / 5 * (1 + x / 6))))))%Q.

(** In place of the digest, the text itself: like the digest, it is
    the same for two texts exactly when the texts are the same. *)
Definition digest (s : string) : string := "sha256:" +:+ s.

#[export] Instance host : Host := {|
  Date_parse := parseISO;
  Date_toISOString := toISOString;
  JSON_parse := parse;
  JSON_stringify := stringify;
  Math_exp := fun x => Double.round (exp x);
  sha256_hex := digest;
  process_pid := 4242;
|}.

End Reference.

(** * Predicates of the specification *)

Section LatestSpec.
Context `{Host}.
Import MemoryStore.

(** The step of the loop of [selectLatestItems]. *)
Definition latestStep (latestById : list (string * MemoryItem)) (item : MemoryItem)
  : list (string * MemoryItem) :=
  match Js.Map_get latestById (id item) with
  | Some current =>
      if getTimestamp current <=? getTimestamp item
      then Js.Map_set latestById (id item) item
      else latestById
  | None => Js.Map_set latestById (id item) item
  end.

(** The resolved timestamp in the words of the specification:
    [updatedAt] parsed as an instant, else [createdAt], else the epoch. *)
Definition resolvedTimestamp (item : MemoryItem) : Z :=
  default (default 0 (Date_parse (createdAt item))) (Date_parse (updatedAt item)).

(** [x] is the record of its id that wins in [log]: nothing of that id
    before it is newer, everything of that id after it is older. *)
Definition wins (log : list MemoryItem) (x : MemoryItem) : Prop :=
  ∃ before after,
    log = before ++ x :: after ∧
    (∀ y, In y before → id y = id x → resolvedTimestamp y ≤ resolvedTimestamp x) ∧
    (∀ y, In y after → id y = id x → resolvedTimestamp y < resolvedTimestamp x).

(** What the map holds once the records [log] went through the loop. *)
Definition latest_inv (log : list MemoryItem) (m : list (string * MemoryItem)) : Prop :=
  NoDup (Js.Map_keys m) ∧
  (∀ k, In k (Js.Map_keys m) ↔ In k (List.map id log)) ∧
  (∀ k x, In (k, x) m → id x = k ∧ wins log x).
End LatestSpec.

Section SearchSpec.
Context `{Host}.
Import Retriever.










(** The products and the partial sums of [scoreItem], in the order in
    which the expression computes them; the last one is the score. *)
Definition scoreSteps (clock : Z) (query : SearchQuery) (config : ScoringConfig)
    (item : MemoryItem) : list Q :=
  let now := default clock (Query.now query) in
  let p1 := Double.mul (Scoring.scope config) (scopeScore item query) in
  let p2 := Double.mul (Scoring.tag config) (tagScore item (queryTags query)) in
  let s2 := Double.add p1 p2 in
  let p3 :=
    Double.mul (Scoring.recency config)
      (recencyScore item (Scoring.halfLifeDays config) now) in
  let s3 := Double.add s2 p3 in
  let p4 := Double.mul (Scoring.importance config) (importance item) in
  let s4 := Double.add s3 p4 in
  let p5 := Double.mul (Scoring.text config) (textScore item (queryTokens query)) in
  let s5 := Double.add s4 p5 in
  [p1; p2; s2; p3; s3; p4; s4; p5; s5].


(** The score of an item all of whose signals are 1: the five weights,
    added as the expression of [scoreItem] adds them. *)
Definition fullScore (config : ScoringConfig) : Q :=
  Double.add
    (Double.add
       (Double.add
          (Double.add (Double.mul (Scoring.scope config) 1) (Double.mul (Scoring.tag config) 1))
          (Double.mul (Scoring.recency config) 1))
       (Double.mul (Scoring.importance config) 1))
    (Double.mul (Scoring.text config) 1).
End SearchSpec.

Section RankingSpec.
Context `{Host}.
Import Retriever.


End RankingSpec.

Section LogSpec.
Context `{Host}.
Import Fs MemoryStore.

(** The text of the log of a world, empty while the file is not there. *)
Definition logText (w : World) (memoryFile : string) : string :=
  match files w !! memoryFile with
  | Some f => data f
  | None => ""
  end.

(** The latest view of a log text. *)
Definition latestView (text : string) : list MemoryItem :=
  selectLatestItems (items (readContent text)).

(** The world in which the holder of the lock runs its operation: the
    marker created, its metadata written. *)
Definition locked (filePath : string) (w : World) : World :=
  let lockPath := FileLock.lockPathOf filePath in
  set_files
    (insert lockPath
       {| data :=
            JSON_stringify
              (JObject [("pid", JNumber (inject_Z process_pid));
                        ("createdAt", JString (Date_toISOString (clock w)))]);
          mtimeMs := clock w |})
    (set_files (insert lockPath {| data := ""; mtimeMs := clock w |}) w).
End LogSpec.

Section ReadBackSpec.
Context `{Host}.
Import MemoryStore.

(** The record a line of the log stands for, when it stands for one. *)
Definition lineItem (line : string) : option MemoryItem :=
  if Js.is_blank line then None
  else
    match JSON_parse line with
    | inr parsed =>
        if (validateMemoryItem parsed).1 then Some (asMemoryItem parsed) else None
    | inl _ => None
    end.

(** A text without a line feed or a carriage return. *)
Definition singleLine (text : string) : bool :=
  forallb (fun c => negb (Js.code c =? 10)%nat && negb (Js.code c =? 13)%nat) (Js.chars text).

(** A record that reads back from the line the engine writes for it. *)
Definition readsBack (item : MemoryItem) : Prop :=
  singleLine (JSON_stringify (itemToJson item)) = true ∧
  lineItem (JSON_stringify (itemToJson item)) = Some item.

(** A log text that is empty or ends with a line feed. *)
Definition terminated (text : string) : Prop :=
  text = "" ∨ ∃ body, text = body +:+ NEWLINE.
End ReadBackSpec.

Section RepairSpec.
Context `{Host}.
Import MemoryStore.

(** A line of the log that is neither blank nor a record. *)
Definition invalidLine (line : string) : bool :=
  negb (Js.is_blank line) && negb (bool_decide (is_Some (lineItem line))).

(** The text of the quarantine file for the entries [corrupt]. *)
Definition quarantinePayload (corrupt : list CorruptEntry) : string :=
  Js.join NEWLINE (List.map (fun entry => JSON_stringify (corruptToJson entry)) corrupt)
  +:+ NEWLINE.
End RepairSpec.

Section PatchSpec.
(** A field after a patch: the supplied value when there is one, the
    prior value otherwise. *)
Definition patched {A} (supplied : option A) (prior result : A) : Prop :=
  match supplied with
  | Some v => result = v
  | None => result = prior
  end.

(** A supplied scope counts when it is not the empty string. *)
Definition suppliedScope (patch : MemoryPatch) : option string :=
  match Patch.scope patch with
  | Some s => if bool_decide (s = "") then None else Some s
  | None => None
  end.
End PatchSpec.

Section DedupSpec.
Context `{Host}.
Import Prune.

(** The first of the items seen so far that has the fingerprint. *)
Definition canonicalFor (seen : list MemoryItem) (fingerprint : string) : option MemoryItem :=
  List.find (fun x => String.eqb (contentFingerprint (content x)) fingerprint) seen.

(** The tags of the duplicate add a tag that is not in the tag set of
    the canonical item. *)
Definition addsTag (canonical duplicate : MemoryItem) : bool :=
  existsb (fun tag => negb (bool_decide (tag ∈ tags canonical))) (tags duplicate).

Definition mergeAction (canonical duplicate : MemoryItem) : PruneAction :=
  {| Action.id := id canonical;
     Action.patch := tagsPatch (Js.Set_from (tags canonical ++ tags duplicate));
     Action.reason := "merge tags from duplicate" |}.

Definition duplicateAction (duplicate : MemoryItem) : PruneAction :=
  {| Action.id := id duplicate;
     Action.patch := deletePatch;
     Action.reason := "duplicate content in scope" |}.

(** The proposals of the dedup pass over the items of one scope, in the
    words of the specification: scanning the items that are not deleted
    in their order, [seen] being those already scanned, the first item
    of a fingerprint is canonical and draws no proposal; a later item
    of the fingerprint draws its soft-deletion, preceded by a tag merge
    for the canonical item exactly when it adds a tag. *)
Fixpoint dedupProposals (seen : list MemoryItem) (scopeItems : list MemoryItem)
  : list PruneAction :=
  match scopeItems with
  | [] => []
  | item :: rest =>
      if deleted item then dedupProposals seen rest
      else
        match canonicalFor seen (contentFingerprint (content item)) with
        | None => dedupProposals (seen ++ [item]) rest
        | Some canonical =>
            (if addsTag canonical item then [mergeAction canonical item] else [])
            ++ [duplicateAction item]
            ++ dedupProposals (seen ++ [item]) rest
        end
  end.

(** The distinct scopes of the items, in the order of their first
    items, and the items of a scope in their order. *)
Definition scopesOf (items : list MemoryItem) : list string :=
  Js.Set_from (List.map scope items).

Definition inScope (s : string) (items : list MemoryItem) : list MemoryItem :=
  List.filter (fun item => String.eqb (scope item) s) items.

(** The proposals of the dedup pass among the actions of a prune. *)
Definition isDedupAction (a : PruneAction) : bool :=
  String.eqb (Action.reason a) "merge tags from duplicate"
  || String.eqb (Action.reason a) "duplicate content in scope".
End DedupSpec.

Section IndexSpec.
Import Indexer.

(** The ids of a bucket that [keep] lets through; a bucket of which
    nothing is left is dropped. *)
Definition keepIds (keep : string → bool) (ids : list string) : option (list string) :=
  let ids := List.filter keep ids in
  if (length ids =? 0)%nat then None else Some ids.

Definition keepNested (keep : string → bool) (byTag : gmap string (list string))
  : option (gmap string (list string)) :=
  let byTag := omap (keepIds keep) byTag in
  if bool_decide (byTag = ∅) then None else Some byTag.

(** An index cut down to the ids that [keep] lets through. *)
Definition restrict (keep : string → bool) (index : MemoryIndex) : MemoryIndex :=
  {| Index.version := Index.version index;
     Index.updatedAt := Index.updatedAt index;
     Index.byScope := omap (keepIds keep) (Index.byScope index);
     Index.byTag := omap (keepIds keep) (Index.byTag index);
     Index.byScopeTag := omap (keepNested keep) (Index.byScopeTag index) |}.

(** The three mappings of an index. *)
Definition mappings (index : MemoryIndex)
  : gmap string (list string) * gmap string (list string)
    * gmap string (gmap string (list string)) :=
  (Index.byScope index, Index.byTag index, Index.byScopeTag index).

(** An index under another stamp. *)
Definition stamped (stamp : string) (index : MemoryIndex) : MemoryIndex :=
  {| Index.version := Index.version index;
     Index.updatedAt := stamp;
     Index.byScope := Index.byScope index;
     Index.byTag := Index.byTag index;
     Index.byScopeTag := Index.byScopeTag index |}.

(** Every id but [id0], and every id but those of [items]. *)
Definition allBut (id0 : string) (existing : string) : bool :=
  negb (String.eqb existing id0).

Definition allButItems (items : list MemoryItem) (existing : string) : bool :=
  negb (bool_decide (existing ∈ List.map id items)).

(** What the loop of [updateIndexFromItems] does to the index for one
    item, and the step of [addIdToIndex] for one tag. *)
Definition indexStep (index : MemoryIndex) (item : MemoryItem) : MemoryIndex :=
  let index := removeIdFromIndex index (id item) in
  if negb (deleted item) then addIdToIndex index item else index.

Definition tagStep (item : MemoryItem) (index : MemoryIndex) (tag : string) : MemoryIndex :=
  {| Index.version := Index.version index;
     Index.updatedAt := Index.updatedAt index;
     Index.byScope := Index.byScope index;
     Index.byTag := push (Index.byTag index) tag (id item);
     Index.byScopeTag :=
       <[scope item :=
           push (default ∅ (Index.byScopeTag index !! scope item)) tag (id item)]>
         (Index.byScopeTag index) |}.
End IndexSpec.

Section IndexViewSpec.
Import Indexer.

(** The ids under a key of a mapping, none when the key is absent. *)
Definition idsAt (m : gmap string (list string)) (key : string) : list string :=
  default [] (m !! key).

Definition idsAt2 (m : gmap string (gmap string (list string))) (s t : string)
  : list string :=
  idsAt (default ∅ (m !! s)) t.

(** A place of the index where ids are listed: under a scope, under a
    tag, or under a scope and a tag. *)
Inductive Slot : Type :=
  | ByScope (s : string)
  | ByTag (t : string)
  | ByScopeTag (s t : string).

Definition slotIds (index : MemoryIndex) (slot : Slot) : list string :=
  match slot with
  | ByScope s => idsAt (Index.byScope index) s
  | ByTag t => idsAt (Index.byTag index) t
  | ByScopeTag s t => idsAt2 (Index.byScopeTag index) s t
  end.

(** The places an item is listed at. *)
Definition belongs (item : MemoryItem) (slot : Slot) : Prop :=
  match slot with
  | ByScope s => scope item = s
  | ByTag t => In t (tags item)
  | ByScopeTag s t => scope item = s ∧ In t (tags item)
  end.

(** No key of the index is left with nothing under it. *)
Definition noEmptyBucket (index : MemoryIndex) : Prop :=
  (∀ s, Index.byScope index !! s ≠ Some []) ∧
  (∀ t, Index.byTag index !! t ≠ Some []) ∧
  (∀ s, Index.byScopeTag index !! s ≠ Some ∅) ∧
  (∀ s bucket t, Index.byScopeTag index !! s = Some bucket → bucket !! t ≠ Some []).

(** The last of the items given under an id. *)
Definition lastOf (id0 : string) (items : list MemoryItem) : option MemoryItem :=
  List.find (fun item => String.eqb (id item) id0) (rev items).
End IndexViewSpec.

Section IndexOrderSpec.
Context `{Host}.

(** Of two ids, the items that are not deleted and carry them: the one
    of the first id was updated no earlier than the one of the second. *)
Definition newerFirst (items : list MemoryItem) (a b : string) : Prop :=
  ∀ x y aTime bTime,
    In x items → In y items → deleted x = false → deleted y = false →
    id x = a → id y = b →
    Date_parse (updatedAt x) = Some aTime → Date_parse (updatedAt y) = Some bTime →
    bTime ≤ aTime.
End IndexOrderSpec.

Section PruneAccountSpec.
Import Prune.

(** The actions proposed for a reason. *)
Definition reasonCount (reason : string) (actions : list PruneAction) : nat :=
  length (List.filter (fun a => String.eqb (Action.reason a) reason) actions).

(** The statistics count the actions by their reasons. *)
Definition accounted (actions : list PruneAction) (stats : PruneStats) : Prop :=
  reasonCount "duplicate content in scope" actions = Stats.deduped stats ∧
  reasonCount "aged out" actions = Stats.deleted stats ∧
  reasonCount "compress older memory" actions = Stats.summarized stats.

(** The items that are not deleted. *)
Definition alive (items : list MemoryItem) : list MemoryItem :=
  List.filter (fun item => negb (deleted item)) items.

(** An action on an item that is there and not deleted. *)
Definition targetsAlive (items : list MemoryItem) (a : PruneAction) : Prop :=
  ∃ x, In x items ∧ deleted x = false ∧ id x = Action.id a.
End PruneAccountSpec.

(** * Worked examples: the data *)

Module Examples.
Import Fs.

Definition record (id0 updated : string) (tags0 : list string) (content0 : string)
    (importance0 : Q) : MemoryItem :=
  {| id := id0; createdAt := "2025-01-01T00:00:00.000Z"; updatedAt := updated;
     scope := "project"; tags := tags0; content := content0; summary := None;
     metadata := None; importance := importance0; deleted := false |}.

(** Three records of one score; the [updatedAt] of the second is not a
    date. *)
Definition older : MemoryItem := record "a" "2025-01-01T00:00:00.000Z" [] "notes" (1 # 2).
Definition newer : MemoryItem := record "b" "2025-01-02T00:00:00.000Z" [] "notes" (1 # 2).


(** Two records one unit in the last place apart in the importance, 1
    and [1 - 2 ^ -52], which JavaScript prints [0.9999999999999998]; the
    more important one is the older. *)
Definition whole : MemoryItem := record "w" "2025-01-01T00:00:00.000Z" [] "notes" 1.
Definition nearlyWhole : MemoryItem :=
  record "v" "2025-01-02T00:00:00.000Z" [] "notes" (4503599627370495 # 4503599627370496).

(** The weight [1 + 2 ^ -50], which JavaScript prints
    [1.0000000000000009]. *)
Definition raised : Q := 1125899906842625 # 1125899906842624.

(** The expression of [scoreItem] on the binary64 numbers of the
    kernel, from the five signals of a record. *)
Definition binary64Score (config : ScoringConfig) (scope0 tag0 recency0 importance0 text0 : Q)
  : option Q :=
  let f := Double.to_float in
  Double.of_float
    (PrimFloat.add
       (PrimFloat.add
          (PrimFloat.add
             (PrimFloat.add
                (PrimFloat.mul (f (Scoring.scope config)) (f scope0))
                (PrimFloat.mul (f (Scoring.tag config)) (f tag0)))
             (PrimFloat.mul (f (Scoring.recency config)) (f recency0)))
          (PrimFloat.mul (f (Scoring.importance config)) (f importance0)))
       (PrimFloat.mul (f (Scoring.text config)) (f text0))).

Definition anyQuery : Retriever.SearchQuery :=
  {| Retriever.Query.scope := None; Retriever.Query.tags := None;
     Retriever.Query.text := None; Retriever.Query.limit := None;
     Retriever.Query.includeDeleted := None; Retriever.Query.now := None |}.

(** The weights of the shipped configuration, the decay switched off. *)
Definition weights (importanceWeight : Q) : ScoringConfig :=
  {| Scoring.scope := 2; Scoring.tag := 3 # 2; Scoring.recency := 1;
     Scoring.importance := importanceWeight; Scoring.text := 14 # 10;
     Scoring.halfLifeDays := 0 |}.

(** Two records of one content up to case and white space. *)
Definition repeated : MemoryItem :=
  record "c" "2025-01-01T00:00:00.000Z" ["x"; "x"] "Same text" (1 # 2).
Definition repeating : MemoryItem :=
  record "d" "2025-01-02T00:00:00.000Z" ["y"] "same   TEXT " (1 # 2).
Definition tagged : MemoryItem :=
  record "c" "2025-01-01T00:00:00.000Z" ["x"] "Same text" (1 # 2).

Definition pruning : PruneConfig :=
  {| maxPerScope := 200; deleteOlderThanDays := 365; compressOlderThanDays := 60;
     dedupe := true |}.

Definition summarizing : SummarizationConfig :=
  {| maxContentLength := 600; olderThanDays := 30 |}.

Definition memoryFile : string := "data/memory.jsonl".

(** The reference time of the examples: 2025-01-10T00:00:00.000Z. *)
Definition today : Z := 1736467200000.

Definition line (item : MemoryItem) : string :=
  Reference.stringify (itemToJson item) +:+ MemoryStore.NEWLINE.

(** A world with the log [text], written at the epoch, read at [now]. *)
Definition world (text : string) (now : Z) : World :=
  {| files := {[ memoryFile := {| data := text; mtimeMs := 0 |} ]};
     clock := now; faults := [] |}.

(** The same world with a lock marker last touched at [touched], and
    one where the file system refuses to open the marker. *)
Definition contended (touched now : Z) : World :=
  {| files := {[ FileLock.lockPathOf memoryFile := {| data := ""; mtimeMs := touched |} ]};
     clock := now; faults := [] |}.

Definition refusing : World :=
  {| files := ∅; clock := 0;
     faults := [(OpOpen, FileLock.lockPathOf memoryFile, "EACCES")] |}.

Definition emptyScopePatch : MemoryPatch :=
  {| Patch.scope := Some ""; Patch.tags := None; Patch.content := None;
     Patch.summary := None; Patch.metadata := None; Patch.importance := None;
     Patch.deleted := None |}.

Definition clearSummaryPatch : MemoryPatch :=
  {| Patch.scope := Some " notes "; Patch.tags := Some ["B"; "a"; "b "];
     Patch.content := None; Patch.summary := Some None; Patch.metadata := None;
     Patch.importance := Some (3 # 2); Patch.deleted := None |}.

(** What a caller hands to [addMemoryItem]. *)
Definition note : MemoryStore.MemoryInput :=
  {| MemoryStore.Input.scope := " project "; MemoryStore.Input.tags := Some ["Todo"; "todo "; ""];
     MemoryStore.Input.content := "remember the milk"; MemoryStore.Input.summary := None;
     MemoryStore.Input.metadata := Some None; MemoryStore.Input.importance := Some (7 # 2) |}.

Definition compacting : MemoryStore.RepairOptions :=
  {| MemoryStore.compact := Some true; MemoryStore.quarantine := None |}.

(** An operation that fails, and one that meets an [EEXIST] of its own
    until the clock has moved on. *)
Definition failing : M unit := throw (Error "disk full").

Definition colliding : M unit :=
  let* now := Date_now in
  if now <=? today then throw (ErrnoException "EEXIST" OpMkdir "data/archive")
  else ret tt.

(** A world in which the log is there and [access] to it is refused. *)
Definition unreadable : World :=
  {| files := {[ memoryFile := {| data := line older; mtimeMs := 0 |} ]};
     clock := today; faults := [(OpAccess, memoryFile, "EIO")] |}.

End Examples.

(** * Properties *)

(** ** Insertion-ordered maps *)

Section MapFacts.
Context {V : Type}.
Implicit Types (m : list (string * V)) (k : string) (v : V).

Lemma Map_get_None m k : Js.Map_get m k = None ↔ ¬ In k (Js.Map_keys m).
Proof.
  induction m as [|[k' v'] m IH]; simpl; [tauto|].
  destruct (String.eqb_spec k' k) as [->|Hne]; [split; [discriminate|tauto]|].
  rewrite IH. tauto.
Qed.

Lemma Map_get_Some_In m k v : Js.Map_get m k = Some v → In (k, v) m.
Proof.
  induction m as [|[k' v'] m IH]; simpl; [discriminate|].
  destruct (String.eqb_spec k' k) as [->|Hne]; [intros [= ->]; auto|auto].
Qed.

Lemma Map_set_fresh m k v : Js.Map_get m k = None → Js.Map_set m k v = m ++ [(k, v)].
Proof.
  induction m as [|[k' v'] m IH]; simpl; [done|].
  destruct (String.eqb_spec k' k) as [->|Hne]; [discriminate|].
  intros Hm. by rewrite IH.
Qed.

Lemma Map_keys_set_present m k v :
  Js.Map_get m k ≠ None → Js.Map_keys (Js.Map_set m k v) = Js.Map_keys m.
Proof.
  induction m as [|[k' v'] m IH]; simpl; [done|].
  destruct (String.eqb_spec k' k) as [->|Hne]; [done|].
  intros Hm. simpl. f_equal. by apply IH.
Qed.

Lemma In_Map_set m k v k' v' :
  NoDup (Js.Map_keys m) →
  In (k', v') (Js.Map_set m k v) → (k' = k ∧ v' = v) ∨ (k' ≠ k ∧ In (k', v') m).
Proof.
  induction m as [|[k0 v0] m IH]; simpl.
  - intros _ [[= <- <-]|[]]. by left.
  - intros [Hk0 Hnd]%NoDup_cons.
    destruct (String.eqb_spec k0 k) as [->|Hne]; simpl.
    + intros [[= <- <-]|Hin]; [by left|].
      right. split; [|by right].
      intros ->. apply Hk0, list_elem_of_In, in_map_iff. by exists (k, v').
    + intros [[= <- <-]|Hin].
      * right. split; [done|by left].
      * destruct (IH Hnd Hin) as [?|[? ?]]; [by left|right; split; [done|by right]].
Qed.

Lemma Map_In_functional m k v v' :
  NoDup (Js.Map_keys m) → In (k, v) m → In (k, v') m → v = v'.
Proof.
  induction m as [|[k0 v0] m IH]; simpl; [done|].
  intros [Hk0 Hnd]%NoDup_cons [[= -> ->]|Hv] [[= <-]|Hv']; [done| | |by apply IH].
  - exfalso. apply Hk0, list_elem_of_In, in_map_iff. by exists (k, v').
  - exfalso. apply Hk0, list_elem_of_In, in_map_iff. by exists (k0, v).
Qed.

Lemma In_Map_set_other m k v k' v' :
  k' ≠ k → In (k', v') m → In (k', v') (Js.Map_set m k v).
Proof.
  intros Hne. induction m as [|[k0 v0] m IH]; simpl; [done|].
  destruct (String.eqb_spec k0 k) as [->|Hk]; simpl.
  - intros [[= -> ->]|Hin]; [done|by right].
  - intros [Heq|Hin]; [by left|right; auto].
Qed.

Lemma In_Map_set_same m k v : In (k, v) (Js.Map_set m k v).
Proof.
  induction m as [|[k0 v0] m IH]; simpl; [by left|].
  destruct (String.eqb_spec k0 k) as [->|Hk]; simpl; [by left|by right].
Qed.
End MapFacts.

(** ** C1: resolve-latest *)

Section LatestFacts.
Context `{Host}.
Import MemoryStore.

Lemma getTimestamp_resolved (item : MemoryItem) :
  getTimestamp item = resolvedTimestamp item.
Proof. unfold getTimestamp, resolvedTimestamp. by repeat case_match. Qed.

Lemma wins_older log x z :
  wins log x → (id z = id x → resolvedTimestamp z < resolvedTimestamp x) → wins (log ++ [z]) x.
Proof.
  intros (before & after & -> & Hb & Ha) Hz.
  exists before, (after ++ [z]). split; [by rewrite <- app_assoc|].
  split; [done|].
  intros y [Hy|[<-|[]]]%in_app_or; auto.
Qed.

Lemma wins_newest log z :
  (∀ y, In y log → id y = id z → resolvedTimestamp y ≤ resolvedTimestamp z) →
  wins (log ++ [z]) z.
Proof.
  intros Hz. exists log, []. split; [done|]. split; [done|]. intros y [].
Qed.

Lemma wins_bound log x y :
  wins log x → In y log → id y = id x → resolvedTimestamp y ≤ resolvedTimestamp x.
Proof.
  intros (before & after & -> & Hb & Ha) Hy Hid.
  apply in_app_or in Hy as [Hy|[<-|Hy]]; [auto|lia|].
  specialize (Ha y Hy Hid). lia.
Qed.

Lemma latest_inv_step log m z :
  latest_inv log m → latest_inv (log ++ [z]) (latestStep m z).
Proof.
  intros (Hnd & Hkeys & Hwin). unfold latestStep.
  destruct (Js.Map_get m (id z)) as [current|] eqn:Hget.
  - assert (Hcur : In (id z, current) m) by by apply Map_get_Some_In.
    destruct (Hwin _ _ Hcur) as [Hidc Hwc].
    assert (Hin : In (id z) (List.map id log)).
    { apply Hkeys, in_map_iff. by exists (id z, current). }
    rewrite (getTimestamp_resolved current), (getTimestamp_resolved z).
    destruct (Z.leb_spec (resolvedTimestamp current) (resolvedTimestamp z)) as [Hle|Hlt].
    + split; [|split].
      * rewrite Map_keys_set_present; [done|by rewrite Hget].
      * intros k. rewrite Map_keys_set_present by (by rewrite Hget).
        rewrite Hkeys, map_app, in_app_iff. simpl. split; [auto|].
        intros [?|[<-|[]]]; auto.
      * intros k x Hx. apply In_Map_set in Hx as [[-> ->]|[Hne Hx]]; [| |done].
        -- split; [done|]. apply wins_newest. intros y Hy Hid.
           pose proof (wins_bound log current y Hwc Hy) as Hb.
           rewrite Hidc in Hb. specialize (Hb Hid). lia.
        -- destruct (Hwin _ _ Hx) as [Hid Hw]. split; [done|].
           apply wins_older; [done|]. intros Hz. congruence.
    + split; [done|split].
      * intros k. rewrite Hkeys, map_app, in_app_iff. simpl. split; [auto|].
        intros [?|[<-|[]]]; auto.
      * intros k x Hx. destruct (Hwin _ _ Hx) as [Hid Hw]. split; [done|].
        apply wins_older; [done|]. intros Hz.
        assert (x = current) as ->; [|done].
        assert (k = id z) as -> by congruence.
        by apply (Map_In_functional m (id z)).
  - assert (Hfresh : ¬ In (id z) (List.map id log)).
    { rewrite <- Hkeys. by apply Map_get_None. }
    rewrite Map_set_fresh by done. split; [|split].
    + unfold Js.Map_keys in *. rewrite map_app. simpl.
      apply NoDup_app. split; [done|]. split; [|apply NoDup_singleton].
      intros k Hk ->%list_elem_of_singleton.
      apply list_elem_of_In in Hk. apply Hkeys in Hk. done.
    + intros k. unfold Js.Map_keys in *. rewrite !map_app, !in_app_iff. simpl.
      rewrite <- Hkeys. done.
    + intros k x [Hx|[[= <- <-]|[]]]%in_app_or.
      * destruct (Hwin _ _ Hx) as [Hid Hw]. split; [done|].
        apply wins_older; [done|]. intros Hz. exfalso. apply Hfresh.
        rewrite Hz, Hid. apply Hkeys, in_map_iff. by exists (k, x).
      * split; [done|]. apply wins_newest. intros y Hy Hid.
        exfalso. apply Hfresh. rewrite <- Hid. by apply in_map.
Qed.

Lemma latest_inv_fold log :
  latest_inv log (fold_left latestStep log []).
Proof.
  induction log as [|z log IH] using rev_ind.
  - split; [apply NoDup_nil_2|]. split; [done|]. intros k x [].
  - rewrite fold_left_app. simpl. by apply latest_inv_step.
Qed.

(** C1. For every log, resolve-latest returns exactly one item per
    distinct id, and that item is the record of the id whose resolved
    timestamp ([updatedAt], else [createdAt], else zero) is greatest, the
    later record winning when two resolved timestamps are equal: no
    record of the id before it in the log has a greater timestamp and
    every record of the id after it has a smaller one. *)
Theorem selectLatestItems_latest_wins (log : list MemoryItem) :
  let latest := selectLatestItems log in
  NoDup (List.map id latest) ∧
  (∀ i, In i (List.map id latest) ↔ In i (List.map id log)) ∧
  (∀ x, In x latest → wins log x).
Proof.
  destruct (latest_inv_fold log) as (Hnd & Hkeys & Hwin).
  change (selectLatestItems log) with (Js.Map_values (fold_left latestStep log [])).
  set (m := fold_left latestStep log []) in *.
  assert (Hids : List.map id (Js.Map_values m) = Js.Map_keys m).
  { unfold Js.Map_values, Js.Map_keys. rewrite map_map. apply map_ext_in.
    intros [k x] Hx. simpl. by destruct (Hwin _ _ Hx). }
  simpl. rewrite Hids. split; [done|]. split; [done|].
  intros x [[k x'] [<- Hx]]%in_map_iff. by destruct (Hwin _ _ Hx).
Qed.

End LatestFacts.

(** ** C10: the statistics of a read *)

Section ReadFacts.
Context `{Host}.
Import MemoryStore.

(** On a line that is not blank [parseLine] either yields an item and
    leaves the diagnostics alone, or yields a truthy error and records
    exactly one diagnostic. *)
Lemma parseLine_cases line n errs :
  Js.is_blank line = false →
  (∃ it, parseLine line n errs = ({| item := Some it; error := None |}, errs)) ∨
  (∃ message, parseLine line n errs = ({| item := None; error := Some message |}, errs ++ [message])
              ∧ truthy (Some message) = true).
Proof.
  intros Hblank. unfold parseLine. rewrite Hblank.
  destruct (JSON_parse line) as [thrown|parsed].
  - right. eexists. split; [done|]. done.
  - destruct (validateMemoryItem parsed).1; simpl.
    + left. by eexists.
    + right. eexists. split; [done|]. done.
Qed.

Lemma readLoop_stats lines i acc :
  let r := readLoop lines i acc in
  totalLines (stats r) = totalLines (stats acc) ∧
  (emptyLines (stats r) + validLines (stats r) + invalidLines (stats r) =
   emptyLines (stats acc) + validLines (stats acc) + invalidLines (stats acc) + length lines)%nat ∧
  (validLines (stats r) + length (items acc) = validLines (stats acc) + length (items r))%nat ∧
  (invalidLines (stats r) + length (errors acc) = invalidLines (stats acc) + length (errors r))%nat.
Proof.
  revert i acc. induction lines as [|line rest IH]; intros i acc; simpl.
  - lia.
  - destruct (Js.is_blank line) eqn:Hblank.
    + specialize (IH (S i)
        {| items := items acc; errors := errors acc; stats := bump_empty (stats acc) |}).
      simpl in IH. lia.
    + destruct (parseLine_cases line (i + 1) (errors acc) Hblank)
        as [[it ->]|(message & -> & Htruthy)]; simpl item; cbv iota beta.
      * specialize (IH (S i)
          {| items := items acc ++ [it]; errors := errors acc;
             stats := bump_valid (stats acc) |}).
        simpl in IH. rewrite length_app in IH. simpl in IH. lia.
      * simpl error. rewrite Htruthy.
        specialize (IH (S i)
          {| items := items acc; errors := errors acc ++ [message];
             stats := bump_invalid (stats acc) |}).
        simpl in IH. rewrite length_app in IH. simpl in IH. lia.
Qed.


End ReadFacts.

(** ** [Array.prototype.sort] *)

Section SortFacts.
Context {A : Type} (comparefn : A → A → option Q).

Lemma sort_insert_perm x l : Permutation (x :: l) (Js.sort_insert comparefn x l).
Proof.
  induction l as [|y l IH]; simpl; [done|].
  destruct (Js.is_positive _); [|done].
  rewrite perm_swap. by apply perm_skip.
Qed.

Lemma Array_sort_perm l : Permutation l (Js.Array_sort comparefn l).
Proof.
  induction l as [|x l IH]; simpl; [done|].
  rewrite <- sort_insert_perm. by apply perm_skip.
Qed.

Lemma Array_sort_length l : length (Js.Array_sort comparefn l) = length l.
Proof. symmetry. apply Permutation_length, Array_sort_perm. Qed.

(** On a domain [P] where the comparator decides a transitive order [R]
    the sort returns the array in that order. *)
Section Sorted.
Variables (P : A → Prop) (R : A → A → Prop).
Hypothesis R_trans : ∀ x y z, P x → P y → P z → R x y → R y z → R x z.
Hypothesis R_keep : ∀ x y, P x → P y → Js.is_positive (comparefn x y) = false → R x y.
Hypothesis R_swap : ∀ x y, P x → P y → Js.is_positive (comparefn x y) = true → R y x.

Lemma sort_insert_sorted x l :
  P x → Forall P l → StronglySorted R l → StronglySorted R (Js.sort_insert comparefn x l).
Proof.
  intros Hx HP Hs. induction Hs as [|y l Hs IH Hy]; simpl.
  - constructor; [constructor|done].
  - apply Forall_cons in HP as [HPy HP].
    destruct (Js.is_positive (comparefn x y)) eqn:Hc.
    + constructor; [by apply IH|].
      rewrite <- sort_insert_perm. constructor; [by apply R_swap|done].
    + constructor; [by constructor|].
      constructor; [by apply R_keep|].
      rewrite Forall_forall in Hy, HP |- *. intros z Hz.
      apply (R_trans x y z); auto.
Qed.

Lemma Array_sort_sorted l : Forall P l → StronglySorted R (Js.Array_sort comparefn l).
Proof.
  induction l as [|x l IH]; simpl; [constructor|].
  intros [Hx HP]%Forall_cons. apply sort_insert_sorted; [done| |by apply IH].
  by rewrite <- Array_sort_perm.
Qed.
End Sorted.

(** Stability: elements the comparator never orders against each other
    keep their places relative to each other. *)
Lemma sort_insert_filter (keep : A → bool) x l :
  (∀ y, keep x = true → keep y = true → Js.is_positive (comparefn x y) = false) →
  List.filter keep (Js.sort_insert comparefn x l) = List.filter keep (x :: l).
Proof.
  intros Hk. induction l as [|y l IH]; simpl; [done|].
  destruct (Js.is_positive (comparefn x y)) eqn:Hc; [|done].
  simpl. rewrite IH. simpl.
  destruct (keep x) eqn:Hx, (keep y) eqn:Hy; try done.
  by rewrite Hk in Hc.
Qed.

Lemma Array_sort_filter (keep : A → bool) l :
  (∀ x y, keep x = true → keep y = true → Js.is_positive (comparefn x y) = false) →
  List.filter keep (Js.Array_sort comparefn l) = List.filter keep l.
Proof.
  intros Hk. induction l as [|x l IH]; simpl; [done|].
  rewrite sort_insert_filter by auto. simpl. by rewrite IH.
Qed.
End SortFacts.



(** ** The arithmetic of doubles *)

Section DoubleFacts.
Import Double.

Lemma nearest_even_floor y : Qfloor y ≤ nearest_even y ≤ Qfloor y + 1.
Proof.
  unfold nearest_even. destruct (y - inject_Z (Qfloor y) ?= 1 # 2)%Q; [|lia..].
  destruct (Z.even (Qfloor y)); lia.
Qed.

Lemma nearest_even_lower n y : (inject_Z n <= y)%Q → n ≤ nearest_even y.
Proof.
  intros Hn. apply Qfloor_resp_le in Hn. rewrite Qfloor_Z in Hn.
  pose proof (nearest_even_floor y). lia.
Qed.

Lemma nearest_even_upper n y : (y <= inject_Z n)%Q → nearest_even y ≤ n.
Proof.
  intros Hn. pose proof (Qfloor_le y) as Hf.
  destruct (Z.lt_ge_cases (Qfloor y) n) as [Hlt|Hge].
  - pose proof (nearest_even_floor y). lia.
  - assert (Heq : Qfloor y = n).
    { apply Qfloor_resp_le in Hn. rewrite Qfloor_Z in Hn. lia. }
    assert (Hy : (y == inject_Z n)%Q).
    { apply Qle_antisym; [done|]. by rewrite <- Heq. }
    unfold nearest_even. rewrite Heq.
    assert (Hc : (y - inject_Z n ?= 1 # 2)%Q = Lt).
    { rewrite <- Qlt_alt. lra. }
    by rewrite Hc.
Qed.

Lemma nearest_even_mono y1 y2 : (y1 <= y2)%Q → nearest_even y1 ≤ nearest_even y2.
Proof.
  intros Hle. pose proof (Qfloor_resp_le _ _ Hle) as Hf.
  destruct (Z.eq_dec (Qfloor y1) (Qfloor y2)) as [Heq|Hne].
  - unfold nearest_even. rewrite Heq.
    destruct (y1 - inject_Z (Qfloor y2) ?= 1 # 2)%Q eqn:H1;
      destruct (y2 - inject_Z (Qfloor y2) ?= 1 # 2)%Q eqn:H2;
      try (destruct (Z.even (Qfloor y2)); lia); try lia; exfalso;
      (apply (proj2 (Qeq_alt _ _)) in H1 || apply (proj2 (Qlt_alt _ _)) in H1
       || apply (proj2 (Qgt_alt _ _)) in H1);
      (apply (proj2 (Qeq_alt _ _)) in H2 || apply (proj2 (Qlt_alt _ _)) in H2
       || apply (proj2 (Qgt_alt _ _)) in H2); lra.
  - pose proof (nearest_even_floor y1). pose proof (nearest_even_floor y2). lia.
Qed.

Lemma pow2_positive j : 0 ≤ j → (0 < inject_Z (2 ^ j))%Q.
Proof.
  intros Hj. change 0%Q with (inject_Z 0). rewrite <- Zlt_Qlt.
  by apply Z.pow_pos_nonneg.
Qed.

Lemma Qdiv_le_mono x1 x2 c : (0 < c)%Q → (x1 <= x2)%Q → (x1 / c <= x2 / c)%Q.
Proof.
  intros Hc Hle. unfold Qdiv. apply Qmult_le_compat_r; [done|].
  apply Qinv_le_0_compat. by apply Qlt_le_weak.
Qed.

(** Rounding to a multiple of [2 ^ j] stays on the side of a multiple
    of [2 ^ j] the number is on. *)
Lemma nearest_quotient_lower m j x :
  0 ≤ j → (inject_Z (m * 2 ^ j) <= x)%Q → m ≤ nearest_even (x / inject_Z (2 ^ j)).
Proof.
  intros Hj Hle. pose proof (pow2_positive j Hj) as Hpos.
  apply nearest_even_lower.
  apply Qle_shift_div_l; [done|]. by rewrite <- inject_Z_mult.
Qed.

Lemma nearest_quotient_upper m j x :
  0 ≤ j → (x <= inject_Z (m * 2 ^ j))%Q → nearest_even (x / inject_Z (2 ^ j)) ≤ m.
Proof.
  intros Hj Hle. pose proof (pow2_positive j Hj) as Hpos.
  apply nearest_even_upper.
  apply Qle_shift_div_r; [done|]. by rewrite <- inject_Z_mult.
Qed.

Lemma nearest_multiple_lower m j x :
  0 ≤ j → (inject_Z (m * 2 ^ j) <= x)%Q →
  m * 2 ^ j ≤ nearest_even (x / inject_Z (2 ^ j)) * 2 ^ j.
Proof.
  intros Hj Hle. apply Z.mul_le_mono_nonneg_r; [by apply Z.pow_nonneg|].
  by apply nearest_quotient_lower.
Qed.

Lemma nearest_multiple_upper m j x :
  0 ≤ j → (x <= inject_Z (m * 2 ^ j))%Q →
  nearest_even (x / inject_Z (2 ^ j)) * 2 ^ j ≤ m * 2 ^ j.
Proof.
  intros Hj Hle. apply Z.mul_le_mono_nonneg_r; [by apply Z.pow_nonneg|].
  by apply nearest_quotient_upper.
Qed.

Lemma shift_nonneg x : 0 ≤ shift x.
Proof. unfold shift. lia. Qed.

Lemma shift_mono x1 x2 : (x1 <= x2)%Q → shift x1 ≤ shift x2.
Proof.
  intros Hle. unfold shift.
  pose proof (Z.log2_le_mono _ _ (Qfloor_resp_le _ _ Hle)). lia.
Qed.

Lemma round_scaled_mono x1 x2 : (x1 <= x2)%Q → round_scaled x1 ≤ round_scaled x2.
Proof.
  intros Hle. pose proof (shift_mono _ _ Hle) as Hshift. unfold round_scaled.
  destruct (Z.eq_dec (shift x1) (shift x2)) as [Heq|Hne].
  - rewrite Heq. pose proof (pow2_positive _ (shift_nonneg x2)) as Hpos.
    apply Z.mul_le_mono_nonneg_r; [apply Z.pow_nonneg; lia|].
    by apply nearest_even_mono, Qdiv_le_mono.
  - pose proof (shift_nonneg x1) as H1.
    assert (Hlog : shift x2 = Z.log2 (Qfloor x2) - 52) by (unfold shift in *; lia).
    assert (Hpos2 : 0 < Qfloor x2).
    { destruct (Z.le_gt_cases (Qfloor x2) 0) as [Hnp|?]; [|done].
      rewrite (Z.log2_nonpos _ Hnp) in Hlog. lia. }
    assert (Hpos2' : 0 < Qfloor x2) by done.
    apply Z.log2_spec in Hpos2 as [Hlow _].
    transitivity (2 ^ (shift x2 + 52 - shift x1) * 2 ^ shift x1).
    + apply nearest_multiple_upper; [done|].
      rewrite <- Z.pow_add_r by lia.
      replace (shift x2 + 52 - shift x1 + shift x1) with (shift x2 + 52) by lia.
      assert (Hfloor : Qfloor x1 + 1 ≤ 2 ^ (shift x2 + 52)).
      { destruct (Z.le_gt_cases (Qfloor x1) 0) as [Hnp|Hp].
        - assert (0 < 2 ^ (shift x2 + 52)) by (apply Z.pow_pos_nonneg; lia). lia.
        - apply Z.log2_spec in Hp as [_ Hup].
          assert (2 ^ Z.succ (Z.log2 (Qfloor x1)) ≤ 2 ^ (shift x2 + 52)).
          { apply Z.pow_le_mono_r; [lia|]. unfold shift in *. lia. }
          lia. }
      apply Qlt_le_weak. eapply Qlt_le_trans; [apply Qlt_floor|].
      by rewrite <- Zle_Qle.
    + replace (shift x2 + 52 - shift x1) with (shift x2 + 52 - shift x1) by lia.
      rewrite <- Z.pow_add_r by lia.
      replace (shift x2 + 52 - shift x1 + shift x1) with (52 + shift x2) by lia.
      rewrite Z.pow_add_r by lia.
      apply nearest_multiple_lower; [lia|].
      rewrite <- Z.pow_add_r by lia.
      replace (52 + shift x2) with (Z.log2 (Qfloor x2)) by lia.
      eapply Qle_trans; [|apply Qfloor_le]. by rewrite <- Zle_Qle.
Qed.

Lemma round_scaled_nonneg x : (0 <= x)%Q → 0 ≤ round_scaled x.
Proof.
  intros Hx. unfold round_scaled.
  change 0 with (0 * 2 ^ shift x). apply nearest_multiple_lower; [apply shift_nonneg|done].
Qed.

Lemma scale_positive : (0 < scale)%Q.
Proof. by apply pow2_positive. Qed.

(** Rounding keeps the order. *)
Lemma round_mono q1 q2 : (q1 <= q2)%Q → (round q1 <= round q2)%Q.
Proof.
  intros Hle. unfold round. rewrite !Qred_correct.
  pose proof scale_positive as Hs.
  assert (Hup : ∀ x y, x ≤ y → (inject_Z x / scale <= inject_Z y / scale)%Q).
  { intros x y Hxy. apply Qdiv_le_mono; [done|]. by rewrite <- Zle_Qle. }
  destruct (Qle_bool 0 q1) eqn:H1; destruct (Qle_bool 0 q2) eqn:H2.
  - apply Hup, round_scaled_mono. by apply Qmult_le_compat_r; [|apply Qlt_le_weak].
  - apply Qle_bool_iff in H1. assert (¬ (0 <= q2)%Q) by (rewrite <- Qle_bool_iff; congruence).
    lra.
  - assert (Hn : ¬ (0 <= q1)%Q) by (rewrite <- Qle_bool_iff; congruence).
    apply Qle_bool_iff in H2.
    assert (Hpos : ∀ x, (0 <= x)%Q → (0 <= inject_Z (round_scaled x) / scale)%Q).
    { intros x Hx. apply Qle_shift_div_l; [done|]. rewrite Qmult_0_l.
      change 0%Q with (inject_Z 0). rewrite <- Zle_Qle. by apply round_scaled_nonneg. }
    assert (0 <= inject_Z (round_scaled (- q1 * scale)) / scale)%Q by (apply Hpos; nra).
    assert (0 <= inject_Z (round_scaled (q2 * scale)) / scale)%Q by (apply Hpos; nra).
    lra.
  - assert (inject_Z (round_scaled (- q2 * scale)) / scale
            <= inject_Z (round_scaled (- q1 * scale)) / scale)%Q; [|lra].
    apply Hup, round_scaled_mono. nra.
Qed.

#[global] Instance round_proper : Proper (Qeq ==> Qeq) round.
Proof. intros q1 q2 Heq. apply Qle_antisym; apply round_mono; rewrite Heq; apply Qle_refl. Qed.

Lemma nearest_even_Z n : nearest_even (inject_Z n) = n.
Proof.
  pose proof (nearest_even_lower n (inject_Z n) (Qle_refl _)).
  pose proof (nearest_even_upper n (inject_Z n) (Qle_refl _)). lia.
Qed.

Lemma nearest_even_proper y1 y2 : (y1 == y2)%Q → nearest_even y1 = nearest_even y2.
Proof.
  intros Heq. apply Z.le_antisymm; apply nearest_even_mono; rewrite Heq; apply Qle_refl.
Qed.

Lemma round_scaled_proper x1 x2 : (x1 == x2)%Q → round_scaled x1 = round_scaled x2.
Proof.
  intros Heq. apply Z.le_antisymm; apply round_scaled_mono; rewrite Heq; apply Qle_refl.
Qed.

Lemma nearest_multiple_exact m j :
  0 ≤ j → nearest_even (inject_Z (m * 2 ^ j) / inject_Z (2 ^ j)) * 2 ^ j = m * 2 ^ j.
Proof.
  intros Hj. pose proof (pow2_positive j Hj).
  rewrite (nearest_even_proper _ (inject_Z m)); [by rewrite nearest_even_Z|].
  rewrite inject_Z_mult. field. lra.
Qed.

(** A mantissa of at most 53 bits, of 53 bits above the least exponent,
    is a multiple of the unit in its own last place: rounding returns
    it. *)
Lemma round_scaled_fixed m j :
  0 ≤ j → 0 ≤ m ≤ 2 ^ 53 → (0 < j → 2 ^ 52 ≤ m) →
  round_scaled (inject_Z (m * 2 ^ j)) = m * 2 ^ j.
Proof.
  intros Hj Hm Hnormal. unfold round_scaled, shift. rewrite Qfloor_Z.
  assert (Hpow : 0 < 2 ^ j) by (by apply Z.pow_pos_nonneg).
  destruct (Z.eq_dec m (2 ^ 53)) as [->|Hne].
  - rewrite <- Z.pow_add_r, Z.log2_pow2 by lia.
    replace (Z.max 0 (53 + j - 52)) with (j + 1) by lia.
    replace (53 + j) with (52 + (j + 1)) by lia. rewrite Z.pow_add_r by lia.
    apply nearest_multiple_exact. lia.
  - destruct (Z.eq_dec j 0) as [->|Hj0].
    + rewrite Z.mul_1_r.
      assert (Hlog : Z.log2 m ≤ 52).
      { destruct (Z.le_gt_cases m 0) as [Hle|Hgt]; [rewrite Z.log2_nonpos; lia|].
        assert (Z.log2 m < 53) by (apply Z.log2_lt_pow2; lia). lia. }
      replace (Z.max 0 (Z.log2 m - 52)) with 0 by lia.
      rewrite <- (Z.mul_1_r m) at 1. change 1 with (2 ^ 0) at 1.
      rewrite nearest_multiple_exact by lia. lia.
    + assert (Hlog : Z.log2 (m * 2 ^ j) = 52 + j).
      { apply Z.log2_unique; [lia|]. specialize (Hnormal ltac:(lia)).
        replace (Z.succ (52 + j)) with (53 + j) by lia. rewrite !Z.pow_add_r by lia.
        split; [by apply Z.mul_le_mono_nonneg_r; [lia|]|].
        apply Z.mul_lt_mono_pos_r; [done|lia]. }
      rewrite Hlog. replace (Z.max 0 (52 + j - 52)) with j by lia.
      by apply nearest_multiple_exact.
Qed.

(** The mantissa rounding returns. *)
Lemma round_scaled_shape x :
  (0 <= x)%Q →
  0 ≤ nearest_even (x / inject_Z (2 ^ shift x)) ≤ 2 ^ 53 ∧
  (0 < shift x → 2 ^ 52 ≤ nearest_even (x / inject_Z (2 ^ shift x))).
Proof.
  intros Hx. pose proof (shift_nonneg x) as Hj.
  assert (Hfloor : 0 ≤ Qfloor x).
  { change 0 with (Qfloor 0). by apply Qfloor_resp_le. }
  split; [split|].
  - apply nearest_quotient_lower; [done|]. by rewrite Z.mul_0_l.
  - apply nearest_quotient_upper; [done|]. rewrite <- Z.pow_add_r by lia.
    assert (Hup : Qfloor x + 1 ≤ 2 ^ (53 + shift x)).
    { destruct (Z.eq_dec (Qfloor x) 0) as [->|Hne].
      - assert (0 < 2 ^ (53 + shift x)) by (apply Z.pow_pos_nonneg; lia). lia.
      - assert (Hpos : 0 < Qfloor x) by lia.
        apply Z.log2_spec in Hpos as [_ Hlt].
        assert (2 ^ Z.succ (Z.log2 (Qfloor x)) ≤ 2 ^ (53 + shift x)).
        { apply Z.pow_le_mono_r; [lia|]. unfold shift. lia. }
        lia. }
    apply Qlt_le_weak. eapply Qlt_le_trans; [apply Qlt_floor|]. by rewrite <- Zle_Qle.
  - intros Hpos. apply nearest_quotient_lower; [done|]. rewrite <- Z.pow_add_r by lia.
    assert (Hlog : shift x = Z.log2 (Qfloor x) - 52) by (unfold shift in *; lia).
    assert (Hpos' : 0 < Qfloor x).
    { destruct (Z.le_gt_cases (Qfloor x) 0) as [Hnp|?]; [|done].
      rewrite (Z.log2_nonpos _ Hnp) in Hlog. lia. }
    apply Z.log2_spec in Hpos' as [Hlow _].
    replace (52 + shift x) with (Z.log2 (Qfloor x)) by lia.
    eapply Qle_trans; [|apply Qfloor_le]. by rewrite <- Zle_Qle.
Qed.

Lemma round_scaled_idem x :
  (0 <= x)%Q → round_scaled (inject_Z (round_scaled x)) = round_scaled x.
Proof.
  intros Hx. destruct (round_scaled_shape x Hx) as [Hm Hnormal].
  unfold round_scaled at 2 3. by apply round_scaled_fixed; [apply shift_nonneg|..].
Qed.

Lemma round_scaled_zero x : (x == 0)%Q → round_scaled x = 0.
Proof. intros Hx. by rewrite (round_scaled_proper _ _ Hx). Qed.

(** Rounding commutes with the change of sign. *)
Lemma round_opp q : (round (- q) == - round q)%Q.
Proof.
  unfold round. rewrite !Qred_correct. pose proof scale_positive as Hs.
  destruct (Qlt_le_dec 0 q) as [Hpos|Hnp]; [|destruct (Qlt_le_dec q 0) as [Hneg|Hnn]].
  - assert (H1 : Qle_bool 0 q = true) by (apply Qle_bool_iff; lra).
    assert (H2 : Qle_bool 0 (- q) = false).
    { destruct (Qle_bool 0 (- q)) eqn:H2; [|done]. apply Qle_bool_iff in H2. lra. }
    rewrite H1, H2. rewrite (round_scaled_proper (- - q * scale) (q * scale)) by ring.
    reflexivity.
  - assert (H1 : Qle_bool 0 q = false).
    { destruct (Qle_bool 0 q) eqn:H1; [|done]. apply Qle_bool_iff in H1. lra. }
    assert (H2 : Qle_bool 0 (- q) = true) by (apply Qle_bool_iff; lra).
    rewrite H1, H2. ring.
  - assert (Hq : (q == 0)%Q) by lra.
    assert (H1 : Qle_bool 0 q = true) by (apply Qle_bool_iff; lra).
    assert (H2 : Qle_bool 0 (- q) = true) by (apply Qle_bool_iff; lra).
    rewrite H1, H2.
    rewrite (round_scaled_zero (- q * scale)) by (rewrite Hq; ring).
    rewrite (round_scaled_zero (q * scale)) by (rewrite Hq; ring).
    reflexivity.
Qed.

(** A rounded number is a double: rounding returns it. *)
Lemma round_idem q : (round (round q) == round q)%Q.
Proof.
  pose proof scale_positive as Hs.
  assert (Hfix : ∀ x, (0 <= x)%Q →
            (round (inject_Z (round_scaled x) / scale) == inject_Z (round_scaled x) / scale)%Q).
  { intros x Hx. unfold round. rewrite Qred_correct.
    assert (Hnn : (0 <= inject_Z (round_scaled x) / scale)%Q).
    { apply Qle_shift_div_l; [done|]. rewrite Qmult_0_l.
      change 0%Q with (inject_Z 0). rewrite <- Zle_Qle. by apply round_scaled_nonneg. }
    rewrite (proj2 (Qle_bool_iff _ _) Hnn).
    rewrite (round_scaled_proper _ (inject_Z (round_scaled x))) by (field; lra).
    by rewrite round_scaled_idem. }
  destruct (Qle_bool 0 q) eqn:Hq.
  - assert (Hv : (round q == inject_Z (round_scaled (q * scale)) / scale)%Q).
    { unfold round. by rewrite Qred_correct, Hq. }
    rewrite Hv. apply Hfix. apply Qle_bool_iff in Hq. nra.
  - assert (Hv : (round q == - (inject_Z (round_scaled (- q * scale)) / scale))%Q).
    { unfold round. by rewrite Qred_correct, Hq. }
    rewrite Hv, round_opp, Hfix; [reflexivity|].
    assert (¬ (0 <= q)%Q) by (rewrite <- Qle_bool_iff; congruence). nra.
Qed.

Lemma round_0 : (round 0 == 0)%Q.
Proof. reflexivity. Qed.

Lemma round_1 : (round 1 == 1)%Q.
Proof. vm_compute. reflexivity. Qed.

#[global] Instance add_proper : Proper (Qeq ==> Qeq ==> Qeq) add.
Proof. intros a a' Ha b b' Hb. unfold add. by rewrite Ha, Hb. Qed.

#[global] Instance mul_proper : Proper (Qeq ==> Qeq ==> Qeq) mul.
Proof. intros a a' Ha b b' Hb. unfold mul. by rewrite Ha, Hb. Qed.

(** Sums and products of doubles keep the order of their operands. *)
Lemma add_mono a b c d : (a <= c)%Q → (b <= d)%Q → (add a b <= add c d)%Q.
Proof. intros Hac Hbd. apply round_mono. lra. Qed.

Lemma mul_mono w a b : (0 <= w)%Q → (a <= b)%Q → (mul w a <= mul w b)%Q.
Proof. intros Hw Hab. apply round_mono. nra. Qed.


Lemma round_nonneg q : (0 <= q)%Q → (0 <= round q)%Q.
Proof. intros Hq. rewrite <- round_0. by apply round_mono. Qed.

(** Adding a number that is not negative to a double does not lower
    it. *)
Lemma add_increasing_l a b : (round a == a)%Q → (0 <= b)%Q → (a <= add a b)%Q.
Proof. intros Ha Hb. rewrite <- Ha at 1. apply round_mono. lra. Qed.

Lemma add_increasing_r a b : (round b == b)%Q → (0 <= a)%Q → (b <= add a b)%Q.
Proof. intros Hb Ha. rewrite <- Hb at 1. apply round_mono. lra. Qed.

(** *** Rounding returns a double that is nearest *)

Lemma Qabs_le_cases a b :
  ((a <= b)%Q ∧ (- a <= b)%Q) ∨ ((a <= - b)%Q ∧ (- a <= - b)%Q) → (Qabs a <= Qabs b)%Q.
Proof.
  intros Hcases. apply Qabs_Qle_condition.
  pose proof (Qle_Qabs b) as H1. pose proof (Qle_Qabs (- b)) as H2.
  rewrite Qabs_opp in H2. destruct Hcases as [[? ?]|[? ?]]; split; lra.
Qed.

(** No integer is nearer to [y] than [nearest_even y]. *)
Lemma nearest_even_nearest y n :
  (Qabs (inject_Z (nearest_even y) - y) <= Qabs (inject_Z n - y))%Q.
Proof.
  pose proof (Qfloor_le y) as Hlow. pose proof (Qlt_floor y) as Hup.
  rewrite inject_Z_plus in Hup. change (inject_Z 1) with 1%Q in Hup.
  assert (Hn : (inject_Z n <= inject_Z (Qfloor y))%Q ∨ (inject_Z (Qfloor y) + 1 <= inject_Z n)%Q).
  { destruct (Z.le_gt_cases n (Qfloor y)) as [Hle|Hgt].
    - left. by rewrite <- Zle_Qle.
    - right. change 1%Q with (inject_Z 1). rewrite <- inject_Z_plus, <- Zle_Qle. lia. }
  apply Qabs_le_cases. unfold nearest_even.
  destruct (y - inject_Z (Qfloor y) ?= 1 # 2)%Q eqn:Hc.
  - apply (proj2 (Qeq_alt _ _)) in Hc.
    destruct (Z.even (Qfloor y)); rewrite ?inject_Z_plus; change (inject_Z 1) with 1%Q;
      destruct Hn; [right|left|right|left]; split; lra.
  - apply (proj2 (Qlt_alt _ _)) in Hc. destruct Hn; [right|left]; split; lra.
  - apply (proj2 (Qgt_alt _ _)) in Hc. rewrite inject_Z_plus. change (inject_Z 1) with 1%Q.
    destruct Hn; [right|left]; split; lra.
Qed.

(** No multiple of the unit in the last place is nearer to [x] than
    the rounded [x]. *)
Lemma round_scaled_nearest_multiple x n :
  (Qabs (inject_Z (round_scaled x) - x)
   <= Qabs (inject_Z (n * 2 ^ shift x) - x))%Q.
Proof.
  pose proof (pow2_positive _ (shift_nonneg x)) as Hpos. unfold round_scaled.
  set (u := inject_Z (2 ^ shift x)) in *.
  pose proof (nearest_even_nearest (x / u) n) as Hnear.
  rewrite !inject_Z_mult. fold u.
  assert (Hscale : ∀ k, (inject_Z k * u - x == (inject_Z k - x / u) * u)%Q).
  { intros k. field. lra. }
  rewrite !Hscale, !Qabs_Qmult, (Qabs_pos u) by lra.
  apply Qmult_le_compat_r; [done|lra].
Qed.

(** A mantissa of 53 bits at an exponent, brought to the exponent at
    which it has 53 bits, or to the least one. *)
Lemma normalise (k : nat) m :
  0 ≤ m < 2 ^ 53 →
  ∃ m' j, 0 ≤ j ≤ Z.of_nat k ∧ m * 2 ^ Z.of_nat k = m' * 2 ^ j ∧
          0 ≤ m' < 2 ^ 53 ∧ (0 < j → 2 ^ 52 ≤ m').
Proof.
  revert m. induction k as [|k IH]; intros m Hm.
  - exists m, 0. repeat split; lia.
  - destruct (Z.le_gt_cases (2 ^ 52) m) as [Hbig|Hsmall].
    + exists m, (Z.of_nat (S k)). repeat split; lia.
    + destruct (IH (2 * m)) as (m' & j & Hj & Heq & Hm' & Hnormal); [lia|].
      exists m', j. split; [lia|]. split; [|done].
      rewrite <- Heq, Nat2Z.inj_succ, Z.pow_succ_r by lia. lia.
Qed.

Lemma round_scaled_double m e :
  0 ≤ m < 2 ^ 53 → 0 ≤ e → round_scaled (inject_Z (m * 2 ^ e)) = m * 2 ^ e.
Proof.
  intros Hm He. destruct (normalise (Z.to_nat e) m Hm) as (m' & j & Hj & Heq & Hm' & Hnormal).
  rewrite Z2Nat.id in Heq, Hj by done. rewrite Heq.
  apply round_scaled_fixed; [lia|lia|done].
Qed.

(** No double is nearer to [x] than the rounded [x]; the numbers are
    scaled. *)
Lemma round_scaled_nearest x m e :
  (0 <= x)%Q → Z.abs m < 2 ^ 53 → 0 ≤ e →
  (Qabs (inject_Z (round_scaled x) - x) <= Qabs (inject_Z (m * 2 ^ e) - x))%Q.
Proof.
  intros Hx Hm He. pose proof (shift_nonneg x) as Hshift.
  destruct (Z.le_gt_cases m 0) as [Hneg|Hpos].
  { (* the rounded number is between 0 and [x], or nearer than 0 *)
    eapply Qle_trans; [apply (round_scaled_nearest_multiple x 0)|].
    rewrite Z.mul_0_l. change (inject_Z 0) with 0%Q.
    assert (Hd : (inject_Z (m * 2 ^ e) <= 0)%Q).
    { change 0%Q with (inject_Z 0). rewrite <- Zle_Qle.
      apply Z.mul_nonpos_nonneg; [done|by apply Z.pow_nonneg]. }
    apply Qabs_le_cases. right. split; lra. }
  destruct (normalise (Z.to_nat e) m ltac:(lia)) as (m' & j & Hj & Heq & Hm' & Hnormal).
  rewrite Z2Nat.id in Heq, Hj by done. rewrite Heq.
  destruct (Z.le_gt_cases (shift x) j) as [Hge|Hlt].
  - replace (m' * 2 ^ j) with (m' * 2 ^ (j - shift x) * 2 ^ shift x)
      by (rewrite <- Z.mul_assoc, <- Z.pow_add_r by lia; f_equal; f_equal; lia).
    apply round_scaled_nearest_multiple.
  - (* the double lies below the binade of [x] *)
    assert (Hlog : shift x = Z.log2 (Qfloor x) - 52) by (unfold shift in *; lia).
    assert (Hfloor : 0 < Qfloor x).
    { destruct (Z.le_gt_cases (Qfloor x) 0) as [Hnp|?]; [|done].
      rewrite (Z.log2_nonpos _ Hnp) in Hlog. lia. }
    apply Z.log2_spec in Hfloor as [Hlow _].
    assert (Hbelow : (inject_Z (2 ^ 52 * 2 ^ shift x) <= x)%Q).
    { rewrite <- Z.pow_add_r by lia.
      replace (52 + shift x) with (Z.log2 (Qfloor x)) by lia.
      eapply Qle_trans; [|apply Qfloor_le]. by rewrite <- Zle_Qle. }
    assert (Hd : (inject_Z (m' * 2 ^ j) <= inject_Z (2 ^ 52 * 2 ^ shift x))%Q).
    { rewrite <- Zle_Qle.
      transitivity (2 ^ 53 * 2 ^ j).
      - apply Z.mul_le_mono_nonneg_r; [apply Z.pow_nonneg|]; lia.
      - rewrite <- !Z.pow_add_r by lia. apply Z.pow_le_mono_r; lia. }
    eapply Qle_trans; [apply (round_scaled_nearest_multiple x (2 ^ 52))|].
    apply Qabs_le_cases. right. split; lra.
Qed.

Lemma double_opp d : double d → double (- d).
Proof.
  intros (m & e & Hm & He & Heq). exists (- m), e. split; [lia|]. split; [done|].
  rewrite Z.mul_opp_l, inject_Z_opp, <- Heq. ring.
Qed.

(** The value of a rounding, by the sign. *)
Lemma round_nonneg_value q :
  (0 <= q)%Q → (round q == inject_Z (round_scaled (q * scale)) / scale)%Q.
Proof.
  intros Hq. unfold round. by rewrite Qred_correct, (proj2 (Qle_bool_iff _ _) Hq).
Qed.

(** Rounding returns a double. *)
Lemma round_double q : double (round q).
Proof.
  pose proof scale_positive as Hs.
  assert (Hpos : ∀ p, (0 <= p)%Q → double (round p)).
  { intros p Hp.
    assert (Hx : (0 <= p * scale)%Q) by nra.
    destruct (round_scaled_shape _ Hx) as [[Hm0 Hm1] Hnormal].
    pose proof (shift_nonneg (p * scale)) as Hj.
    destruct (Z.eq_dec (nearest_even (p * scale / inject_Z (2 ^ shift (p * scale)))) (2 ^ 53))
      as [Htop|Hne].
    - exists (2 ^ 52), (shift (p * scale) + 1). split; [lia|]. split; [lia|].
      rewrite round_nonneg_value by done. unfold round_scaled. rewrite Htop.
      rewrite (Z.pow_add_r 2 (shift _) 1) by lia.
      replace (2 ^ 52 * (2 ^ shift (p * scale) * 2 ^ 1)) with (2 ^ 53 * 2 ^ shift (p * scale))
        by (change (2 ^ 53) with (2 ^ 52 * 2); change (2 ^ 1) with 2; lia).
      field. lra.
    - exists (nearest_even (p * scale / inject_Z (2 ^ shift (p * scale)))), (shift (p * scale)).
      split; [lia|]. split; [done|].
      rewrite round_nonneg_value by done. unfold round_scaled. field. lra. }
  destruct (Qlt_le_dec q 0) as [Hneg|Hnn]; [|by apply Hpos].
  assert (Hq : (round q == - round (- q))%Q) by (rewrite round_opp; ring).
  destruct (Hpos (- q)%Q ltac:(lra)) as (m & e & Hm & He & Heq).
  exists (- m), e. split; [lia|]. split; [done|].
  rewrite Hq, Z.mul_opp_l, inject_Z_opp, <- Heq. ring.
Qed.

(** Rounding returns a double as it is. *)
Lemma round_fixed d : double d → (round d == d)%Q.
Proof.
  pose proof scale_positive as Hs.
  assert (Hpos : ∀ p, (0 <= p)%Q → double p → (round p == p)%Q).
  { intros p Hp (m & e & Hm & He & Heq).
    assert (Hm0 : 0 ≤ m).
    { destruct (Z.le_gt_cases 0 m) as [?|Hneg]; [done|]. exfalso.
      assert (Hlt : (inject_Z (m * 2 ^ e) < 0)%Q).
      { change 0%Q with (inject_Z 0). rewrite <- Zlt_Qlt.
        apply Z.mul_neg_pos; [done|by apply Z.pow_pos_nonneg]. }
      nra. }
    rewrite round_nonneg_value by done.
    rewrite (round_scaled_proper _ _ Heq), round_scaled_double by lia.
    rewrite <- Heq. field. lra. }
  intros Hd. destruct (Qlt_le_dec d 0) as [Hneg|Hnn]; [|by apply Hpos].
  assert (Hq : (round d == - round (- d))%Q) by (rewrite round_opp; ring).
  rewrite Hq, Hpos; [ring|lra|by apply double_opp].
Qed.

(** No double is nearer to [q] than the rounded [q]. *)
Lemma round_nearest q d :
  double d → (Qabs (round q - q) <= Qabs (d - q))%Q.
Proof.
  pose proof scale_positive as Hs.
  assert (Hpos : ∀ p c, (0 <= p)%Q → double c → (Qabs (round p - p) <= Qabs (c - p))%Q).
  { intros p c Hp (m & e & Hm & He & Heq).
    assert (Hx : (0 <= p * scale)%Q) by nra.
    pose proof (round_scaled_nearest (p * scale) m e Hx Hm He) as Hnear.
    rewrite round_nonneg_value by done.
    assert (H1 : (inject_Z (round_scaled (p * scale)) / scale - p
                  == (inject_Z (round_scaled (p * scale)) - p * scale) / scale)%Q)
      by (field; lra).
    assert (H2 : (c - p == (inject_Z (m * 2 ^ e) - p * scale) / scale)%Q)
      by (rewrite <- Heq; field; lra).
    rewrite H1, H2. unfold Qdiv. rewrite !Qabs_Qmult.
    apply Qmult_le_compat_r; [done|apply Qabs_nonneg]. }
  intros Hd. destruct (Qlt_le_dec q 0) as [Hneg|Hnn]; [|by apply Hpos].
  assert (Hq : (round q - q == - (round (- q) - - q))%Q) by (rewrite round_opp; ring).
  assert (Hc : (d - q == - (- d - - q))%Q) by ring.
  rewrite Hq, Hc, !Qabs_opp. apply Hpos; [lra|by apply double_opp].
Qed.

End DoubleFacts.

(** ** C4, C9: search *)

Section SearchFacts.
Context `{Host}.
Import Retriever.














End SearchFacts.

Section ImportanceFacts.
Context `{Host}.
Import Retriever Double.






End ImportanceFacts.

(** ** The file system *)

Section FsFacts.
Import Fs.

Lemma fault_of_none w op path : faults w = [] → fault_of w op path = None.
Proof. unfold fault_of. by intros ->. Qed.

Lemma guarded_pass {A} op path (m : M A) w :
  fault_of w op path = None → guarded op path m w = m w.
Proof. unfold guarded. by intros ->. Qed.

Lemma guarded_fault {A} op path (m : M A) w code :
  fault_of w op path = Some code →
  guarded op path m w = (Throw (ErrnoException code op path), w).
Proof. unfold guarded. by intros ->. Qed.

Lemma length_append (s t : string) :
  String.length (s +:+ t) = (String.length s + String.length t)%nat.
Proof. induction s as [|c s IH]; simpl; [done|]. by rewrite IH. Qed.

Lemma append_neq (s suffix : string) : suffix ≠ "" → s +:+ suffix ≠ s.
Proof.
  intros Hne Heq. apply (f_equal String.length) in Heq.
  rewrite length_append in Heq.
  destruct suffix; [done|]. simpl in Heq. lia.
Qed.

Lemma append_inj (s a b : string) : s +:+ a = s +:+ b → a = b.
Proof. induction s as [|c s IH]; simpl; [done|]. intros [= Heq]. auto. Qed.

Lemma lockPath_neq filePath : FileLock.lockPathOf filePath ≠ filePath.
Proof. by apply append_neq. Qed.
End FsFacts.

(** ** C5: the lock *)

Section LockFacts.
Context `{Host} {T : Type}.
Import Fs FileLock.
Variables (filePath : string) (operation : M T) (options : FileLockOptions).

Let lockPath := lockPathOf filePath.
Let timeout := default DEFAULT_TIMEOUT_MS (timeoutMs options).
Let retryDelay := default DEFAULT_RETRY_DELAY_MS (retryDelayMs options).
Let stale := default DEFAULT_STALE_MS (staleMs options).

(** A pass whose [open] fails. *)
Lemma pass_open_failed start w error :
  open_wx lockPath w = (Throw error, w) →
  pass filePath operation options start w =
    (if bool_decide (error_code error ≠ Some "EEXIST") then throw error
     else
       let* now := Date_now in
       if timeout <? now - start then throw (Error (timeoutMessage lockPath))
       else
         let* is_stale := isLockStale lockPath stale in
         if is_stale then
           let* _ := unlink_tolerant lockPath in
           ret Continue
         else
           let* _ := delay retryDelay in
           ret Continue) w.
Proof.
  intros Hopen. unfold pass, try_catch at 1, bind at 1.
  fold lockPath. by rewrite Hopen.
Qed.

Lemma open_wx_exists w marker :
  fault_of w OpOpen lockPath = None → files w !! lockPath = Some marker →
  open_wx lockPath w = (Throw (ErrnoException "EEXIST" OpOpen lockPath), w).
Proof. intros Hf Hm. unfold open_wx. rewrite guarded_pass by done. by rewrite Hm. Qed.

Lemma isLockStale_exists w marker :
  fault_of w OpStat lockPath = None → files w !! lockPath = Some marker →
  isLockStale lockPath stale w = (Ok (stale <? clock w - mtimeMs marker), w).
Proof.
  intros Hf Hm. unfold isLockStale, try_catch, bind, stat.
  rewrite guarded_pass by done. by rewrite Hm.
Qed.

(** C5. When the creation of the marker fails because the marker
    exists: past the timeout the acquisition fails with the timeout
    error that names the lock path; otherwise a marker older than the
    staleness threshold is deleted and the acquisition retried at once;
    otherwise the caller sleeps the retry delay and retries.  A failure
    of the creation with any other code aborts at once: nothing is
    deleted, nothing is waited for, nothing is retried. *)
Theorem withFileLock_contention (fuel : nat) (start : Z) (w : World) :
  (∀ marker,
     fault_of w OpOpen lockPath = None → files w !! lockPath = Some marker →
     (timeout < clock w - start →
      lockLoop filePath operation options (S fuel) start w =
        (Throw (Error ("Timed out waiting for lock: " +:+ lockPath)), w)) ∧
     (clock w - start ≤ timeout → fault_of w OpStat lockPath = None →
      stale < clock w - mtimeMs marker → fault_of w OpUnlink lockPath = None →
      lockLoop filePath operation options (S fuel) start w =
        lockLoop filePath operation options fuel start (set_files (delete lockPath) w)) ∧
     (clock w - start ≤ timeout → fault_of w OpStat lockPath = None →
      clock w - mtimeMs marker ≤ stale →
      lockLoop filePath operation options (S fuel) start w =
        lockLoop filePath operation options fuel start
          (set_clock (fun t => t + Z.max 0 retryDelay) w))) ∧
  (∀ code,
     fault_of w OpOpen lockPath = Some code → code ≠ "EEXIST" →
     lockLoop filePath operation options (S fuel) start w =
       (Throw (ErrnoException code OpOpen lockPath), w)).
Proof.
  split.
  - intros marker Hopen Hmarker.
    pose proof (pass_open_failed start w _ (open_wx_exists w marker Hopen Hmarker)) as Hpass.
    rewrite bool_decide_eq_false_2 in Hpass by (simpl; auto).
    unfold bind at 1, Date_now in Hpass.
    split; [|split].
    + intros Hlate. simpl. unfold bind at 1. rewrite Hpass.
      destruct (Z.ltb_spec timeout (clock w - start)); [done|lia].
    + intros Hearly Hstat Hold Hunlink. simpl. unfold bind at 1. rewrite Hpass.
      destruct (Z.ltb_spec timeout (clock w - start)); [lia|].
      unfold bind at 1. rewrite (isLockStale_exists w marker) by done.
      destruct (Z.ltb_spec stale (clock w - mtimeMs marker)); [|lia].
      unfold bind at 1, unlink_tolerant, try_catch, unlink.
      rewrite guarded_pass by done. by rewrite Hmarker.
    + intros Hearly Hstat Hyoung. simpl. unfold bind at 1. rewrite Hpass.
      destruct (Z.ltb_spec timeout (clock w - start)); [lia|].
      unfold bind at 1. rewrite (isLockStale_exists w marker) by done.
      destruct (Z.ltb_spec stale (clock w - mtimeMs marker)); [lia|].
      done.
  - intros code Hfault Hcode.
    assert (Hopen : open_wx lockPath w = (Throw (ErrnoException code OpOpen lockPath), w)).
    { unfold open_wx. by rewrite guarded_fault with (code := code). }
    pose proof (pass_open_failed start w _ Hopen) as Hpass.
    rewrite bool_decide_eq_true_2 in Hpass by (simpl; congruence).
    simpl. unfold bind at 1. by rewrite Hpass.
Qed.

End LockFacts.

(** ** Running the store on a quiet file system *)

Section StoreRuns.
Context `{Host}.
Import Fs FileLock MemoryStore.

Lemma mkdir_p_quiet dir w : faults w = [] → mkdir_p dir w = (Ok tt, w).
Proof. intros Hq. unfold mkdir_p. by rewrite guarded_pass by by apply fault_of_none. Qed.

Lemma access_quiet path w :
  faults w = [] →
  access path w =
    match files w !! path with
    | Some _ => (Ok tt, w)
    | None => (Throw (ErrnoException "ENOENT" OpAccess path), w)
    end.
Proof. intros Hq. unfold access. by rewrite guarded_pass by by apply fault_of_none. Qed.

Lemma readFile_quiet path w :
  faults w = [] →
  readFile path w =
    match files w !! path with
    | Some f => (Ok (data f), w)
    | None => (Throw (ErrnoException "ENOENT" OpReadFile path), w)
    end.
Proof. intros Hq. unfold readFile. by rewrite guarded_pass by by apply fault_of_none. Qed.

Lemma writeFile_quiet path text w :
  faults w = [] →
  writeFile path text w =
    (Ok tt, set_files (insert path {| data := text; mtimeMs := clock w |}) w).
Proof. intros Hq. unfold writeFile. by rewrite guarded_pass by by apply fault_of_none. Qed.

Lemma appendFile_quiet path text w :
  faults w = [] →
  appendFile path text w =
    (Ok tt,
     set_files
       (insert path
          {| data := match files w !! path with Some f => data f | None => "" end +:+ text;
             mtimeMs := clock w |}) w).
Proof. intros Hq. unfold appendFile. by rewrite guarded_pass by by apply fault_of_none. Qed.

Lemma rename_quiet from to w :
  faults w = [] →
  rename from to w =
    match files w !! from with
    | Some f => (Ok tt, set_files (fun fs => <[to := f]> (delete from fs)) w)
    | None => (Throw (ErrnoException "ENOENT" OpRename from), w)
    end.
Proof. intros Hq. unfold rename. by rewrite guarded_pass by by apply fault_of_none. Qed.

Lemma open_wx_quiet path w :
  faults w = [] →
  open_wx path w =
    match files w !! path with
    | Some _ => (Throw (ErrnoException "EEXIST" OpOpen path), w)
    | None => (Ok path, set_files (insert path {| data := ""; mtimeMs := clock w |}) w)
    end.
Proof. intros Hq. unfold open_wx. by rewrite guarded_pass by by apply fault_of_none. Qed.

Lemma unlink_quiet path w :
  faults w = [] →
  unlink path w =
    match files w !! path with
    | Some _ => (Ok tt, set_files (delete path) w)
    | None => (Throw (ErrnoException "ENOENT" OpUnlink path), w)
    end.
Proof. intros Hq. unfold unlink. by rewrite guarded_pass by by apply fault_of_none. Qed.

(** One step of a run on a quiet file system. *)
Ltac quiet_step :=
  first
    [ rewrite mkdir_p_quiet by done
    | rewrite access_quiet by done
    | rewrite readFile_quiet by done
    | rewrite writeFile_quiet by done
    | rewrite appendFile_quiet by done
    | rewrite rename_quiet by done
    | rewrite open_wx_quiet by done
    | rewrite unlink_quiet by done
    | progress cbn beta iota
    | progress unfold bind, try_catch, try_finally, ret, throw, Date_now ].

Ltac quiet := repeat quiet_step.

Lemma ensureFile_exists path w f :
  faults w = [] → files w !! path = Some f → ensureFile path w = (Ok tt, w).
Proof. intros Hq Hf. unfold ensureFile. quiet. by rewrite Hf. Qed.

Lemma ensureFile_missing path w :
  faults w = [] → files w !! path = None →
  ensureFile path w =
    (Ok tt, set_files (insert path {| data := ""; mtimeMs := clock w |}) w).
Proof. intros Hq Hf. unfold ensureFile. quiet. rewrite Hf. by quiet. Qed.

Lemma readAllItems_exists memoryFile w f :
  faults w = [] → files w !! memoryFile = Some f →
  readAllItems memoryFile w = (Ok (readContent (data f)), w).
Proof.
  intros Hq Hf. unfold readAllItems. quiet. rewrite (ensureFile_exists _ _ f) by done.
  quiet. by rewrite Hf.
Qed.

Lemma readAllItems_missing memoryFile w :
  faults w = [] → files w !! memoryFile = None →
  readAllItems memoryFile w =
    (Ok (readContent ""),
     set_files (insert memoryFile {| data := ""; mtimeMs := clock w |}) w).
Proof.
  intros Hq Hf. unfold readAllItems. quiet. rewrite ensureFile_missing by done.
  quiet. simpl. by rewrite lookup_insert_eq.
Qed.

(** With no marker in the way and a quiet file system the lock is
    taken at the first pass, the operation runs in the locked world and
    the marker is gone afterwards. *)
Lemma withFileLock_free {T} filePath (operation : M T) options fuel w t w1 :
  faults w = [] →
  files w !! lockPathOf filePath = None →
  operation (locked filePath w) = (Ok t, w1) →
  faults w1 = [] →
  withFileLock filePath operation options (S fuel) w =
    (Ok t, set_files (delete (lockPathOf filePath)) w1).
Proof.
  intros Hq Hfree Hop Hq1.
  unfold withFileLock. quiet. simpl lockLoop. unfold pass, lockMetadata. quiet.
  rewrite Hfree. quiet.
  change (operation _) with (operation (locked filePath w)). rewrite Hop.
  unfold unlink_tolerant. quiet.
  destruct (files w1 !! lockPathOf filePath) eqn:Hm; simpl; [done|].
  destruct w1 as [fs1 c1 q1]; unfold set_files; simpl in *.
  by rewrite delete_id.
Qed.

Lemma find_id_None id0 l : find_id id0 l = None ↔ ¬ In id0 (List.map id l).
Proof.
  unfold find_id. induction l as [|x l IH]; simpl; [tauto|].
  destruct (String.eqb_spec (id x) id0) as [->|Hne]; [split; [done|tauto]|].
  rewrite IH. tauto.
Qed.

Lemma find_id_Some id0 l x : find_id id0 l = Some x → In x l ∧ id x = id0.
Proof.
  unfold find_id. intros [Hin Heq%String.eqb_eq]%find_some. done.
Qed.

(** C8. For every log and every id absent from its latest view, update
    and hence delete return the not-found signal, the value [null] and
    no thrown error, and append no record: the text of the log is what
    it was and no other file is touched. *)
Theorem updateMemoryItem_not_found fuel memoryFile id0 patch w :
  faults w = [] →
  ¬ In id0 (List.map id (latestView (logText w memoryFile))) →
  ∃ w',
    updateMemoryItem fuel memoryFile id0 patch w = (Ok None, w') ∧
    deleteMemoryItem fuel memoryFile id0 w = (Ok None, w') ∧
    logText w' memoryFile = logText w memoryFile ∧
    (∀ path, path ≠ memoryFile → files w' !! path = files w !! path).
Proof.
  intros Hq Habsent%find_id_None. unfold latestView, logText in *.
  unfold deleteMemoryItem, updateMemoryItem, readLatestItems.
  destruct (files w !! memoryFile) as [f|] eqn:Hf.
  - exists w. quiet. rewrite (readAllItems_exists _ _ f) by done.
    simpl. rewrite Habsent, Hf. done.
  - eexists. quiet. rewrite readAllItems_missing by done.
    cbn [items]. rewrite Habsent. split; [done|]. split; [done|]. cbn [files set_files].
    rewrite lookup_insert_eq. split; [done|].
    intros path Hp. by rewrite lookup_insert_ne.
Qed.

Ltac lookups :=
  repeat first
    [ rewrite lookup_insert_eq
    | rewrite lookup_insert_ne by done
    | rewrite lookup_delete_eq
    | rewrite lookup_delete_ne by done ].

Lemma appendItem_free fuel memoryFile item w f :
  faults w = [] →
  files w !! lockPathOf memoryFile = None →
  files w !! memoryFile = Some f →
  ∃ w',
    appendItem (S fuel) memoryFile item w = (Ok tt, w') ∧
    files w' !! memoryFile =
      Some {| data := data f +:+ (JSON_stringify (itemToJson item) +:+ NEWLINE);
              mtimeMs := clock w |} ∧
    (∀ path, path ≠ memoryFile → files w' !! path = files w !! path).
Proof.
  intros Hq Hfree Hf.
  pose proof (lockPath_neq memoryFile) as Hne.
  assert (Hlocked : files (locked memoryFile w) !! memoryFile = Some f).
  { unfold locked. cbn [files set_files]. by lookups. }
  eexists. split.
  - unfold appendItem. apply withFileLock_free; [done|done| |].
    + quiet. rewrite (ensureFile_exists _ _ f) by done. quiet. rewrite Hlocked. done.
    + done.
  - cbn [files set_files locked]. split.
    + by lookups.
    + intros path Hpath. destruct (decide (path = lockPathOf memoryFile)) as [->|Hl].
      * by lookups.
      * by lookups.
Qed.

(** C2, as the code has it.  For every existing id and every patch,
    update merges the patch onto the latest record of the id: a field
    the patch omits keeps its prior value; a supplied [summary] or
    [metadata] overwrites the stored one, an explicit [null] included;
    supplied [tags] are normalized; a supplied [scope] is normalized
    when it is not the empty string and is ignored when it is; a
    supplied [importance] is clamped; [updatedAt] is the current
    instant; and the merged record is appended to the log as a line of
    its own, the text before it left as it was and no other file
    touched. *)
Theorem updateMemoryItem_merges fuel memoryFile id0 patch w f existing :
  faults w = [] →
  files w !! lockPathOf memoryFile = None →
  files w !! memoryFile = Some f →
  find_id id0 (latestView (data f)) = Some existing →
  ∃ updated w',
    updateMemoryItem (S fuel) memoryFile id0 patch w = (Ok (Some updated), w') ∧
    id updated = id existing ∧
    createdAt updated = createdAt existing ∧
    patched (normalizeScope <$> suppliedScope patch) (scope existing) (scope updated) ∧
    patched (normalizeTags <$> Patch.tags patch) (tags existing) (tags updated) ∧
    patched (Patch.content patch) (content existing) (content updated) ∧
    patched (Patch.summary patch) (summary existing) (summary updated) ∧
    patched (Patch.metadata patch) (metadata existing) (metadata updated) ∧
    patched ((fun i => clampImportance (Some i) (importance existing)) <$> Patch.importance patch)
      (importance existing) (importance updated) ∧
    patched (Patch.deleted patch) (deleted existing) (deleted updated) ∧
    updatedAt updated = Date_toISOString (clock w) ∧
    files w' !! memoryFile =
      Some {| data := data f +:+ (JSON_stringify (itemToJson updated) +:+ NEWLINE);
              mtimeMs := clock w |} ∧
    (∀ path, path ≠ memoryFile → files w' !! path = files w !! path).
Proof.
  intros Hq Hfree Hf Hfind. unfold latestView in Hfind.
  destruct (appendItem_free fuel memoryFile (mergePatch existing patch (clock w)) w f
              Hq Hfree Hf) as (w' & Happend & Hlog & Hother).
  exists (mergePatch existing patch (clock w)), w'. split.
  { unfold updateMemoryItem, readLatestItems. quiet.
    rewrite (readAllItems_exists _ _ f) by done. cbn [items]. rewrite Hfind.
    quiet. by rewrite Happend. }
  unfold patched, suppliedScope. simpl.
  repeat split; try done.
  - destruct (Patch.scope patch) as [s|]; [|done]. simpl.
    destruct s; [done|]. by rewrite bool_decide_eq_false_2.
  - by destruct (Patch.tags patch).
  - by destruct (Patch.content patch).
  - by destruct (Patch.summary patch).
  - by destruct (Patch.metadata patch).
  - by destruct (Patch.importance patch).
  - by destruct (Patch.deleted patch).
Qed.

Lemma selectLatestItems_nil : selectLatestItems [] = [].
Proof. done. Qed.

(** C3, as the code has it.  For every log and every repair on a quiet
    file system: repair rewrites the primary log exactly when at least
    one invalid line was found, or compaction was requested and the log
    holds at least one valid record.  A rewrite leaves the former file
    under the backup path and puts in its place all valid records, or
    their latest-resolved view when compaction was requested; without a
    rewrite the primary log and the backup path are as they were. *)
Theorem repairMemoryFile_rewrites fuel memoryFile options w f :
  faults w = [] →
  files w !! lockPathOf memoryFile = None →
  files w !! memoryFile = Some f →
  let scan := scanContent (data f) in
  let compacting := default false (compact options) in
  let rewriting :=
    (0 < invalidLines (scanStats scan))%nat ∨
    (compacting = true ∧ (0 < length (scanItems scan))%nat) in
  let output :=
    if compacting then selectLatestItems (scanItems scan) else scanItems scan in
  let backupFile := memoryFile +:+ ".bak." +:+ pretty (clock w) in
  ∃ result w',
    repairMemoryFile (S fuel) memoryFile options w = (Ok result, w') ∧
    (rewriting →
     files w' !! memoryFile = Some {| data := serialize output; mtimeMs := clock w |} ∧
     files w' !! backupFile = Some f) ∧
    (¬ rewriting →
     files w' !! memoryFile = Some f ∧
     files w' !! backupFile = files w !! backupFile).
Proof.
  intros Hq Hfree Hf scan compacting rewriting output backupFile.
  set (lockPath := lockPathOf memoryFile) in *.
  set (tempFile := memoryFile +:+ ".tmp").
  set (corruptFile := memoryFile +:+ ".corrupt." +:+ pretty (clock w) +:+ ".jsonl").
  assert (Hml : lockPath ≠ memoryFile) by apply lockPath_neq.
  assert (Hmt : tempFile ≠ memoryFile) by by apply append_neq.
  assert (Hmb : backupFile ≠ memoryFile) by by apply append_neq.
  assert (Hmc : corruptFile ≠ memoryFile) by by apply append_neq.
  assert (Hbl : backupFile ≠ lockPath) by (intros Heq%append_inj; discriminate).
  assert (Hbt : backupFile ≠ tempFile) by (intros Heq%append_inj; discriminate).
  assert (Hbc : backupFile ≠ corruptFile) by (intros Heq%append_inj; discriminate).
  assert (Htc : tempFile ≠ corruptFile) by (intros Heq%append_inj; discriminate).
  assert (Hlocked : files (locked memoryFile w) !! memoryFile = Some f).
  { unfold locked. cbn [files set_files]. by lookups. }
  set (shouldWrite :=
         (0 <? invalidLines (scanStats scan))%nat
         || (compacting && (0 <? length (scanItems scan))%nat)).
  assert (Hshould : shouldWrite = true ↔ rewriting).
  { unfold shouldWrite, rewriting.
    rewrite orb_true_iff, andb_true_iff, !Nat.ltb_lt. done. }
  assert (Houtput :
    (if compacting && (0 <? length (scanItems scan))%nat
     then selectLatestItems (scanItems scan) else scanItems scan) = output).
  { unfold output. destruct compacting; [|done]. simpl.
    destruct (scanItems scan); [done|done]. }
  set (quarantining :=
         default true (quarantine options) && (0 <? length (scanCorrupt scan))%nat).
  destruct quarantining eqn:Hquarantine, shouldWrite eqn:Hwrite.
  all: eexists _, _; split;
    [ unfold repairMemoryFile; apply withFileLock_free; [done|done|..];
      [ quiet; rewrite (ensureFile_exists _ _ f) by done; quiet; rewrite Hlocked; quiet;
        fold scan compacting; fold quarantining shouldWrite;
        rewrite Hquarantine, Hwrite; quiet; cbn [files set_files clock]; lookups;
        rewrite ?Hlocked; quiet; cbn [files set_files clock]; lookups; quiet;
        reflexivity
      | done ]
    | rewrite ?Houtput; cbn [files set_files clock locked];
      fold lockPath tempFile backupFile corruptFile ].
  1, 3: split; [intros _; split; by lookups|intros Hno; destruct Hno; by apply Hshould].
  all: split; [intros Hyes%Hshould; congruence|intros _; split; by lookups].
Qed.

End StoreRuns.

(** ** C6: the dedup pass *)

Section SetFacts.
Lemma Set_add_extends acc l :
  ∃ news, fold_left Js.Set_add l acc = acc ++ news ∧ (news = [] ↔ ∀ x, x ∈ l → x ∈ acc).
Proof.
  revert acc. induction l as [|x l IH]; intros acc; simpl.
  - exists []. rewrite app_nil_r. split; [done|]. split; [|done]. intros _ x Hx. inversion Hx.
  - unfold Js.Set_add at 2. destruct (decide (x ∈ acc)) as [Hin|Hout].
    + rewrite bool_decide_eq_true_2 by done.
      destruct (IH acc) as (news & -> & Hnews). exists news. split; [done|].
      rewrite Hnews. split.
      * intros Hall y [->|Hy]%elem_of_cons; auto.
      * intros Hall y Hy. apply Hall. by right.
    + rewrite bool_decide_eq_false_2 by done.
      destruct (IH (acc ++ [x])) as (news & -> & _). exists (x :: news).
      rewrite <- app_assoc. split; [done|]. split; [done|].
      intros Hall. destruct Hout. apply Hall. by left.
Qed.

Lemma Set_add_NoDup acc l :
  NoDup l → (∀ x, x ∈ l → x ∉ acc) → fold_left Js.Set_add l acc = acc ++ l.
Proof.
  revert acc. induction l as [|x l IH]; intros acc Hnd Hdis; simpl.
  - by rewrite app_nil_r.
  - apply NoDup_cons in Hnd as [Hx Hnd]. unfold Js.Set_add at 2.
    rewrite bool_decide_eq_false_2 by (apply Hdis; by left).
    rewrite IH; [by rewrite <- app_assoc|done|].
    intros y Hy [Hacc| ->%list_elem_of_singleton]%elem_of_app; [|done].
    eapply Hdis; [|done]. by right.
Qed.

Lemma Set_from_app_length (a b : list string) :
  NoDup a →
  (length (Js.Set_from (a ++ b)) =? length a)%nat = true ↔ ∀ x, x ∈ b → x ∈ a.
Proof.
  intros Hnd. unfold Js.Set_from. rewrite fold_left_app.
  rewrite (Set_add_NoDup [] a) by (done || intros x _ Hx; inversion Hx).
  simpl. destruct (Set_add_extends a b) as (news & -> & Hnews).
  rewrite <- Hnews, length_app, Nat.eqb_eq.
  destruct news; simpl; split; (done || lia).
Qed.
End SetFacts.

Section MapSetFacts.
Context {V : Type}.

Lemma Map_get_set (m : list (string * V)) k v k' :
  Js.Map_get (Js.Map_set m k v) k' = if String.eqb k k' then Some v else Js.Map_get m k'.
Proof.
  induction m as [|[k0 v0] m IH]; simpl; [done|].
  destruct (String.eqb_spec k0 k) as [->|Hne]; simpl.
  - by destruct (String.eqb k k').
  - rewrite IH. destruct (String.eqb_spec k0 k') as [->|Hne']; [|done].
    by rewrite (proj2 (String.eqb_neq k k')) by congruence.
Qed.
End MapSetFacts.

Section DedupFacts.
Context `{Host}.
Import Prune.

Lemma canonicalFor_snoc seen item fingerprint :
  canonicalFor (seen ++ [item]) fingerprint =
    match canonicalFor seen fingerprint with
    | Some c => Some c
    | None =>
        if String.eqb (contentFingerprint (content item)) fingerprint then Some item else None
    end.
Proof.
  unfold canonicalFor. induction seen as [|x seen IH]; simpl; [done|].
  destruct (String.eqb (contentFingerprint (content x)) fingerprint); [done|exact IH].
Qed.

Lemma addsTag_length canonical duplicate :
  NoDup (tags canonical) →
  negb (length (Js.Set_from (tags canonical ++ tags duplicate)) =? length (tags canonical))%nat
  = addsTag canonical duplicate.
Proof.
  intros Hnd. pose proof (Set_from_app_length _ (tags duplicate) Hnd) as Hlen.
  unfold addsTag.
  destruct (existsb _ (tags duplicate)) eqn:Hadds.
  - apply existsb_exists in Hadds as (tag & Hin & Hnew%negb_true_iff%bool_decide_eq_false).
    apply negb_true_iff, not_true_is_false. intros Heq. apply Hnew, Hlen; [done|].
    by apply list_elem_of_In.
  - apply negb_false_iff, Hlen. intros tag Hin.
    destruct (decide (tag ∈ tags canonical)) as [|Hnew]; [done|].
    assert (existsb (fun tag => negb (bool_decide (tag ∈ tags canonical))) (tags duplicate) = true);
      [|congruence].
    apply existsb_exists. exists tag. split; [by apply list_elem_of_In|].
    by rewrite bool_decide_eq_false_2.
Qed.

(** The loop against the words of the specification: the map of the
    loop holds, for every fingerprint, the first item seen with it. *)
Lemma dedupeLoop_proposals scopeItems fingerprintMap seen actions stats :
  (∀ fingerprint, Js.Map_get fingerprintMap fingerprint = canonicalFor seen fingerprint) →
  (∀ x, In x seen → NoDup (tags x)) →
  (∀ x, In x scopeItems → deleted x = false → NoDup (tags x)) →
  (dedupeLoop scopeItems fingerprintMap actions stats).1 =
    actions ++ dedupProposals seen scopeItems.
Proof.
  revert fingerprintMap seen actions stats.
  induction scopeItems as [|item rest IH]; intros m seen actions stats Hmap Hseen Htags; simpl.
  - by rewrite app_nil_r.
  - destruct (deleted item) eqn:Hdel.
    + apply IH; auto. intros x Hx. apply Htags. by right.
    + assert (Hitem : NoDup (tags item)) by (apply Htags; [by left|done]).
      assert (Hseen' : ∀ x, In x (seen ++ [item]) → NoDup (tags x)).
      { intros x [Hx|[<-|[]]]%in_app_or; auto. }
      assert (Hrest : ∀ x, In x rest → deleted x = false → NoDup (tags x)).
      { intros x Hx. apply Htags. by right. }
      rewrite Hmap.
      destruct (canonicalFor seen (contentFingerprint (content item))) as [existing|] eqn:Hcan.
      * assert (Hex : NoDup (tags existing)).
        { apply Hseen. unfold canonicalFor in Hcan. by apply find_some in Hcan as [? _]. }
        rewrite IH with (seen := seen ++ [item]); [|  |done|done].
        -- rewrite addsTag_length by done. unfold mergeAction, duplicateAction.
           destruct (addsTag existing item); by rewrite <- !app_assoc.
        -- intros fingerprint. rewrite canonicalFor_snoc, Hmap.
           destruct (canonicalFor seen fingerprint) eqn:Hfp; [done|].
           destruct (String.eqb_spec (contentFingerprint (content item)) fingerprint); [|done].
           congruence.
      * rewrite IH with (seen := seen ++ [item]); [done| |done|done].
        intros fingerprint. rewrite canonicalFor_snoc, Map_get_set, Hmap.
        destruct (String.eqb_spec (contentFingerprint (content item)) fingerprint) as [<-|];
          [by rewrite Hcan|by destruct (canonicalFor seen fingerprint)].
Qed.

Lemma dedupProposals_dedup seen scopeItems :
  Forall (fun a => isDedupAction a = true) (dedupProposals seen scopeItems).
Proof.
  revert seen. induction scopeItems as [|item rest IH]; intros seen; simpl; [constructor|].
  destruct (deleted item); [apply IH|].
  destruct (canonicalFor seen _); [|apply IH].
  apply Forall_app. split; [destruct (addsTag _ _); by repeat constructor|].
  constructor; [done|apply IH].
Qed.

(** The aging pass only appends, and none of its proposals is one of
    the dedup pass. *)
Lemma ageLoop_appends pruneConfig summarizationConfig now keep ranked actions stats :
  ∃ aging,
    (ageLoop pruneConfig summarizationConfig now keep ranked actions stats).1 = actions ++ aging
    ∧ Forall (fun a => isDedupAction a = false) aging.
Proof.
  revert actions stats. induction ranked as [|entry rest IH]; intros actions stats; simpl.
  - exists []. by rewrite app_nil_r.
  - repeat case_match;
      match goal with
      | |- context [ageLoop _ _ _ _ rest (?a ++ [?x]) ?s] =>
          destruct (IH (a ++ [x]) s) as (aging & -> & Hag);
          exists (x :: aging); rewrite <- app_assoc; split; [done|by constructor]
      | |- context [ageLoop _ _ _ _ rest ?a ?s] =>
          destruct (IH a s) as (aging & -> & Hag); by exists aging
      end.
Qed.

Lemma pruneScope_actions pruneConfig summarizationConfig now scopeItems actions stats :
  dedupe pruneConfig = true →
  (∀ x, In x scopeItems → deleted x = false → NoDup (tags x)) →
  ∃ aging,
    (pruneScope pruneConfig summarizationConfig now scopeItems actions stats).1 =
      actions ++ dedupProposals [] scopeItems ++ aging
    ∧ Forall (fun a => isDedupAction a = false) aging.
Proof.
  intros Hdedupe Htags. unfold pruneScope. rewrite Hdedupe.
  pose proof (dedupeLoop_proposals scopeItems [] [] actions stats) as Hloop.
  destruct (dedupeLoop scopeItems [] actions stats) as [actions' stats'].
  simpl in Hloop. rewrite Hloop by (done || by intros x []).
  match goal with
  | |- context [ageLoop ?a ?b ?c ?d ?e ?f ?g] =>
      destruct (ageLoop_appends a b c d e f g) as (aging & -> & Hag)
  end.
  exists aging. by rewrite <- app_assoc.
Qed.

End DedupFacts.

Section GroupFacts.
Context `{Host}.
Import Prune.

Lemma Set_add_fold_elem acc l x :
  x ∈ fold_left Js.Set_add l acc ↔ x ∈ acc ∨ x ∈ l.
Proof.
  revert acc. induction l as [|y l IH]; intros acc; simpl.
  - split; [auto|]. intros [?|Hx]; [done|inversion Hx].
  - rewrite IH. unfold Js.Set_add. rewrite elem_of_cons.
    destruct (decide (y ∈ acc)) as [Hy|Hy].
    + rewrite bool_decide_eq_true_2 by done. split; [tauto|]. intros [?|[->|?]]; auto.
    + rewrite bool_decide_eq_false_2 by done. rewrite elem_of_app, list_elem_of_singleton.
      tauto.
Qed.

Lemma Set_add_fold_NoDup acc l : NoDup acc → NoDup (fold_left Js.Set_add l acc).
Proof.
  revert acc. induction l as [|y l IH]; intros acc Hnd; simpl; [done|].
  apply IH. unfold Js.Set_add. destruct (decide (y ∈ acc)) as [Hy|Hy].
  - by rewrite bool_decide_eq_true_2.
  - rewrite bool_decide_eq_false_2 by done. apply NoDup_app. split; [done|].
    split; [|apply NoDup_singleton]. by intros x Hx ->%list_elem_of_singleton.
Qed.

Lemma Map_get_table {V} (g : string → V) (keys : list string) k :
  Js.Map_get (List.map (fun s => (s, g s)) keys) k =
    if bool_decide (k ∈ keys) then Some (g k) else None.
Proof.
  induction keys as [|s keys IH]; simpl; [done|].
  destruct (String.eqb_spec s k) as [->|Hne].
  - rewrite bool_decide_eq_true_2; [done|by left].
  - rewrite IH. destruct (decide (k ∈ keys)) as [Hk|Hk].
    + rewrite !bool_decide_eq_true_2; [done|by right|done].
    + rewrite !bool_decide_eq_false_2; [done| |done].
      intros [->|?]%elem_of_cons; done.
Qed.

Lemma Map_set_table {V} (g : string → V) (keys : list string) k v :
  NoDup keys → k ∈ keys →
  Js.Map_set (List.map (fun s => (s, g s)) keys) k v =
    List.map (fun s => (s, if String.eqb s k then v else g s)) keys.
Proof.
  induction keys as [|s keys IH]; simpl; [by intros _ Hk; inversion Hk|].
  intros [Hs Hnd]%NoDup_cons Hk.
  destruct (String.eqb_spec s k) as [->|Hne].
  - f_equal. apply map_ext_in. intros s Hin%list_elem_of_In.
    destruct (String.eqb_spec s k) as [->|]; done.
  - f_equal. apply IH; [done|]. apply elem_of_cons in Hk as [->|]; done.
Qed.

Lemma Map_set_last {V} (m : list (string * V)) k v0 v :
  Js.Map_get m k = None → Js.Map_set (m ++ [(k, v0)]) k v = m ++ [(k, v)].
Proof.
  induction m as [|[k' v'] m IH]; simpl.
  - by rewrite String.eqb_refl.
  - destruct (String.eqb_spec k' k); [done|]. intros Hm. by rewrite IH.
Qed.

Lemma inScope_absent s items : s ∉ List.map scope items → inScope s items = [].
Proof.
  induction items as [|x items IH]; simpl; [done|].
  intros Hs. destruct (String.eqb_spec (scope x) s) as [<-|].
  - destruct Hs. by left.
  - apply IH. intros Hin. apply Hs. by right.
Qed.

(** The grouping loop collects, scope by scope in the order of the
    first items, the items of the scope in their order. *)
Lemma groupByScope_table items :
  groupByScope items = List.map (fun s => (s, inScope s items)) (scopesOf items).
Proof.
  unfold groupByScope, scopesOf, Js.Set_from.
  induction items as [|x items IH] using rev_ind; [done|].
  rewrite map_app, !fold_left_app, IH. simpl.
  set (keys := fold_left Js.Set_add (List.map scope items) []) in *.
  assert (Hnd : NoDup keys) by apply Set_add_fold_NoDup, NoDup_nil_2.
  assert (Hkeys : ∀ s, s ∈ keys ↔ s ∈ List.map scope items).
  { intros s. unfold keys. rewrite Set_add_fold_elem. split; [|auto].
    intros [Hs|?]; [inversion Hs|done]. }
  rewrite Map_get_table. unfold Js.Set_add.
  destruct (decide (scope x ∈ keys)) as [Hin|Hout].
  - rewrite !bool_decide_eq_true_2 by done.
    rewrite Map_get_table, bool_decide_eq_true_2 by done. simpl.
    rewrite Map_set_table by done. apply map_ext. intros s.
    unfold inScope. rewrite List.filter_app. simpl.
    rewrite (String.eqb_sym s). destruct (String.eqb_spec (scope x) s) as [<-|]; [done|].
    by rewrite app_nil_r.
  - rewrite !bool_decide_eq_false_2 by done.
    assert (Hget : Js.Map_get (List.map (fun s => (s, inScope s items)) keys) (scope x) = None).
    { rewrite Map_get_table. by rewrite bool_decide_eq_false_2. }
    rewrite (Map_set_fresh _ _ _ Hget).
    assert (Hget' :
      Js.Map_get (List.map (fun s => (s, inScope s items)) keys ++ [(scope x, [])]) (scope x)
      = Some []).
    { rewrite <- (Map_set_fresh _ _ _ Hget), Map_get_set. by rewrite String.eqb_refl. }
    rewrite Hget'. simpl. rewrite Map_set_last by done.
    rewrite map_app. simpl. f_equal.
    + apply map_ext_in. intros s Hs%list_elem_of_In.
      unfold inScope. rewrite List.filter_app. simpl.
      destruct (String.eqb_spec (scope x) s) as [<-|]; [done|]. by rewrite app_nil_r.
    + unfold inScope at 1. rewrite List.filter_app. simpl. rewrite String.eqb_refl.
      fold (inScope (scope x) items). rewrite inScope_absent; [done|].
      by rewrite <- Hkeys.
Qed.

Lemma filter_all {A} (p : A → bool) l : Forall (fun a => p a = true) l → List.filter p l = l.
Proof. induction 1 as [|a l Ha _ IH]; simpl; [done|]. by rewrite Ha, IH. Qed.

Lemma filter_none {A} (p : A → bool) l : Forall (fun a => p a = false) l → List.filter p l = [].
Proof. induction 1 as [|a l Ha _ IH]; simpl; [done|]. by rewrite Ha. Qed.

Lemma pruneMemory_fold pruneConfig summarizationConfig now groups actions stats :
  dedupe pruneConfig = true →
  (∀ g x, In g groups → In x g.2 → deleted x = false → NoDup (tags x)) →
  ∃ more,
    (fold_left
       (fun (acc : list PruneAction * PruneStats) (entry : string * list MemoryItem) =>
          pruneScope pruneConfig summarizationConfig now entry.2 acc.1 acc.2)
       groups (actions, stats)).1 = actions ++ more
    ∧ List.filter isDedupAction more =
        flat_map (fun g : string * list MemoryItem => dedupProposals [] g.2) groups.
Proof.
  intros Hdedupe. revert actions stats.
  induction groups as [|g groups IH]; intros actions stats Htags; simpl.
  - exists []. by rewrite app_nil_r.
  - destruct (pruneScope_actions pruneConfig summarizationConfig now g.2 actions stats Hdedupe)
      as (aging & Hscope & Haging).
    { intros x. apply Htags. by left. }
    destruct (pruneScope pruneConfig summarizationConfig now g.2 actions stats)
      as [actions' stats'] eqn:Hrun.
    simpl in Hscope. subst actions'.
    destruct (IH (actions ++ dedupProposals [] g.2 ++ aging) stats') as (more & -> & Hmore).
    { intros g' x Hg'. apply Htags. by right. }
    exists (dedupProposals [] g.2 ++ aging ++ more). split; [by rewrite <- !app_assoc|].
    rewrite !List.filter_app, Hmore, (filter_none _ aging) by done.
    by rewrite filter_all by apply dedupProposals_dedup.
Qed.

(** C6, as the code has it.  For every item set with dedup enabled and
    duplicate-free tags on the items that are not deleted: the dedup
    proposals of a prune are, scope after scope, those of the scan of
    the scope's items that are not deleted in their order by
    fingerprint of the lower-cased, white-space-normalized content: the
    first item of a fingerprint is canonical and draws none; every
    later item of the fingerprint draws its soft-deletion with reason
    "duplicate content in scope", preceded by a tag-merge patch for the
    canonical item exactly when its tags add a tag that is not in the
    tag set of the canonical item. *)
Theorem pruneMemory_dedup items pruneConfig summarizationConfig now :
  dedupe pruneConfig = true →
  (∀ x, In x items → deleted x = false → NoDup (tags x)) →
  List.filter isDedupAction (pruneMemory items pruneConfig summarizationConfig now).1 =
    flat_map (fun s => dedupProposals [] (inScope s items)) (scopesOf items).
Proof.
  intros Hdedupe Htags. unfold pruneMemory.
  destruct (pruneMemory_fold pruneConfig summarizationConfig now (groupByScope items) []
              {| Stats.deduped := 0; Stats.deleted := 0; Stats.summarized := 0;
                 Stats.retained := 0 |} Hdedupe) as (more & -> & Hmore).
  { intros g x Hg Hx. rewrite groupByScope_table in Hg.
    apply in_map_iff in Hg as (s & <- & _). simpl in Hx.
    apply filter_In in Hx as [Hx _]. by apply Htags. }
  simpl. rewrite Hmore, groupByScope_table.
  induction (scopesOf items) as [|s scopes IH]; simpl; [done|]. by rewrite IH.
Qed.

End GroupFacts.

(** ** C7: the incremental update of the index *)

Section RestrictFacts.
Import Indexer.
Implicit Types (keep : string → bool) (bucket : gmap string (list string)).

Lemma omap_omap {A B C} (f : B → option C) (g : A → option B) (m : gmap string A) :
  omap f (omap g m) = omap (fun x => g x ≫= f) m.
Proof. apply map_eq. intros i. rewrite !lookup_omap. by destruct (m !! i). Qed.

Lemma omap_fmap {A B C} (f : B → option C) (g : A → B) (m : gmap string A) :
  omap f (g <$> m) = omap (fun x => f (g x)) m.
Proof. apply map_eq. intros i. rewrite !lookup_omap, lookup_fmap. by destruct (m !! i). Qed.

Lemma omap_pointwise {A B} (f g : A → option B) (m : gmap string A) :
  (∀ x, f x = g x) → omap f m = omap g m.
Proof. intros Hfg. apply omap_ext. auto. Qed.

(** An entry [u] makes or extends under a key, against a cut [f] that
    keeps what [u] adds ... *)
Lemma omap_upsert_keep {A} (f : A → option A) (u : A → A) (d : A) (m : gmap string A) s :
  f d = None → (∀ x, f (u x) = Some (u (default d (f x)))) →
  omap f (<[s := u (default d (m !! s))]> m) =
    <[s := u (default d (omap f m !! s))]> (omap f m).
Proof.
  intros Hd Hu. rewrite omap_insert, Hu, lookup_omap.
  destruct (m !! s); simpl; by rewrite ?Hd.
Qed.

(** ... and against a cut that drops it. *)
Lemma omap_upsert_drop {A} (f : A → option A) (u : A → A) (d : A) (m : gmap string A) s :
  f d = None → (∀ x, f (u x) = f x) →
  omap f (<[s := u (default d (m !! s))]> m) = omap f m.
Proof.
  intros Hd Hu. rewrite omap_insert, Hu.
  destruct (m !! s) as [x|] eqn:Hs; simpl.
  - destruct (f x) eqn:Hx.
    + apply insert_id. by rewrite lookup_omap, Hs.
    + apply delete_id. by rewrite lookup_omap, Hs.
  - rewrite Hd. apply delete_id. by rewrite lookup_omap, Hs.
Qed.

Lemma keepIds_nil keep : keepIds keep [] = None.
Proof. done. Qed.

Lemma keepIds_default keep ids : default [] (keepIds keep ids) = List.filter keep ids.
Proof. unfold keepIds. by destruct (List.filter keep ids). Qed.

Lemma keepIds_snoc_keep keep ids id0 :
  keep id0 = true → keepIds keep (ids ++ [id0]) = Some (default [] (keepIds keep ids) ++ [id0]).
Proof.
  intros Hk. rewrite keepIds_default. unfold keepIds.
  rewrite List.filter_app. simpl. rewrite Hk.
  by destruct (List.filter keep ids).
Qed.

Lemma keepIds_snoc_drop keep ids id0 :
  keep id0 = false → keepIds keep (ids ++ [id0]) = keepIds keep ids.
Proof.
  intros Hk. unfold keepIds. rewrite List.filter_app. simpl. by rewrite Hk, app_nil_r.
Qed.

Lemma keepIds_compose keep1 keep2 ids :
  keepIds keep2 ids ≫= keepIds keep1 = keepIds (fun e => keep2 e && keep1 e) ids.
Proof.
  unfold keepIds.
  assert (Hff : List.filter keep1 (List.filter keep2 ids)
                = List.filter (fun e => keep2 e && keep1 e) ids).
  { induction ids as [|e ids IH]; simpl; [done|].
    destruct (keep2 e); simpl; [destruct (keep1 e); by rewrite IH|done]. }
  rewrite <- Hff. destruct (List.filter keep2 ids); simpl; done.
Qed.

Lemma keepIds_ext keep keep' ids :
  (∀ e, keep e = keep' e) → keepIds keep ids = keepIds keep' ids.
Proof. intros Hk. unfold keepIds. by rewrite (filter_ext _ _ Hk). Qed.

Lemma push_keep keep bucket key id0 :
  keep id0 = true →
  omap (keepIds keep) (push bucket key id0) = push (omap (keepIds keep) bucket) key id0.
Proof.
  intros Hk. unfold push.
  apply (omap_upsert_keep (keepIds keep) (fun ids => ids ++ [id0]) []); [done|].
  intros ids. by apply keepIds_snoc_keep.
Qed.

Lemma push_drop keep bucket key id0 :
  keep id0 = false → omap (keepIds keep) (push bucket key id0) = omap (keepIds keep) bucket.
Proof.
  intros Hk. unfold push.
  apply (omap_upsert_drop (keepIds keep) (fun ids => ids ++ [id0]) []); [done|].
  intros ids. by apply keepIds_snoc_drop.
Qed.

Lemma push_nonempty bucket key id0 : push bucket key id0 ≠ ∅.
Proof. unfold push. apply insert_non_empty. Qed.

Lemma keepNested_default keep bucket :
  default ∅ (keepNested keep bucket) = omap (keepIds keep) bucket.
Proof. unfold keepNested. case_bool_decide as He; simpl; [by rewrite He|done]. Qed.

Lemma keepNested_empty keep : keepNested keep ∅ = None.
Proof. unfold keepNested. by rewrite omap_empty, bool_decide_eq_true_2. Qed.

Lemma keepNested_push_keep keep bucket key id0 :
  keep id0 = true →
  keepNested keep (push bucket key id0) =
    Some (push (default ∅ (keepNested keep bucket)) key id0).
Proof.
  intros Hk. rewrite keepNested_default. unfold keepNested.
  rewrite push_keep by done.
  by rewrite bool_decide_eq_false_2 by apply push_nonempty.
Qed.

Lemma keepNested_push_drop keep bucket key id0 :
  keep id0 = false → keepNested keep (push bucket key id0) = keepNested keep bucket.
Proof. intros Hk. unfold keepNested. by rewrite push_drop. Qed.

Lemma keepNested_compose keep1 keep2 bucket :
  keepNested keep2 bucket ≫= keepNested keep1
  = keepNested (fun e => keep2 e && keep1 e) bucket.
Proof.
  assert (Hcut : omap (keepIds (fun e => keep2 e && keep1 e)) bucket
                 = omap (keepIds keep1) (omap (keepIds keep2) bucket)).
  { rewrite omap_omap. symmetry. apply omap_pointwise, keepIds_compose. }
  unfold keepNested. rewrite Hcut.
  destruct (decide (omap (keepIds keep2) bucket = ∅)) as [He|He].
  - rewrite (bool_decide_eq_true_2 _ He). simpl.
    by rewrite He, omap_empty, bool_decide_eq_true_2.
  - by rewrite (bool_decide_eq_false_2 _ He).
Qed.

Lemma keepNested_ext keep keep' bucket :
  (∀ e, keep e = keep' e) → keepNested keep bucket = keepNested keep' bucket.
Proof.
  intros Hk. unfold keepNested.
  by rewrite (omap_pointwise _ _ bucket (fun ids => keepIds_ext keep keep' ids Hk)).
Qed.

Lemma restrict_compose keep1 keep2 index :
  restrict keep1 (restrict keep2 index) = restrict (fun e => keep2 e && keep1 e) index.
Proof.
  unfold restrict. simpl. f_equal.
  - rewrite omap_omap. apply omap_pointwise, keepIds_compose.
  - rewrite omap_omap. apply omap_pointwise, keepIds_compose.
  - rewrite omap_omap. apply omap_pointwise, keepNested_compose.
Qed.

Lemma restrict_ext keep keep' index :
  (∀ e, keep e = keep' e) → restrict keep index = restrict keep' index.
Proof.
  intros Hk. unfold restrict. f_equal.
  - apply omap_pointwise. intros ids. by apply keepIds_ext.
  - apply omap_pointwise. intros ids. by apply keepIds_ext.
  - apply omap_pointwise. intros bucket. by apply keepNested_ext.
Qed.

Lemma removeIdFromIndex_restrict index id0 :
  removeIdFromIndex index id0 = restrict (allBut id0) index.
Proof. done. Qed.

Lemma addIdToIndex_fold index item :
  addIdToIndex index item =
    fold_left (tagStep item) (tags item)
      {| Index.version := Index.version index;
         Index.updatedAt := Index.updatedAt index;
         Index.byScope := push (Index.byScope index) (scope item) (id item);
         Index.byTag := Index.byTag index;
         Index.byScopeTag := Index.byScopeTag index |}.
Proof. done. Qed.

Lemma tagStep_keep keep item index tag :
  keep (id item) = true →
  restrict keep (tagStep item index tag) = tagStep item (restrict keep index) tag.
Proof.
  intros Hk. unfold restrict, tagStep. simpl. f_equal.
  - by apply push_keep.
  - apply (omap_upsert_keep (keepNested keep) (fun b => push b tag (id item)) ∅).
    + apply keepNested_empty.
    + intros b. by apply keepNested_push_keep.
Qed.

Lemma tagStep_drop keep item index tag :
  keep (id item) = false → restrict keep (tagStep item index tag) = restrict keep index.
Proof.
  intros Hk. unfold restrict, tagStep. simpl. f_equal.
  - by apply push_drop.
  - apply (omap_upsert_drop (keepNested keep) (fun b => push b tag (id item)) ∅).
    + apply keepNested_empty.
    + intros b. by apply keepNested_push_drop.
Qed.

Lemma addIdToIndex_keep keep index item :
  keep (id item) = true →
  restrict keep (addIdToIndex index item) = addIdToIndex (restrict keep index) item.
Proof.
  intros Hk. rewrite !addIdToIndex_fold.
  match goal with
  | |- restrict keep (fold_left _ _ ?i) = fold_left _ _ ?j =>
      assert (Hstart : restrict keep i = j)
  end.
  { unfold restrict. simpl. f_equal. by apply push_keep. }
  rewrite <- Hstart. clear Hstart.
  match goal with |- context [fold_left _ _ ?i] => generalize i end.
  induction (tags item) as [|tag rest IH]; intros start; simpl; [done|].
  by rewrite IH, tagStep_keep.
Qed.

Lemma addIdToIndex_drop keep index item :
  keep (id item) = false → restrict keep (addIdToIndex index item) = restrict keep index.
Proof.
  intros Hk. rewrite addIdToIndex_fold.
  match goal with
  | |- restrict keep (fold_left _ _ ?i) = _ => assert (Hstart : restrict keep i = restrict keep index)
  end.
  { unfold restrict. simpl. f_equal. by apply push_drop. }
  rewrite <- Hstart. clear Hstart.
  match goal with |- context [fold_left _ _ ?i] => generalize i end.
  induction (tags item) as [|tag rest IH]; intros start; simpl; [done|].
  by rewrite IH, tagStep_drop.
Qed.

End RestrictFacts.

Section IndexFacts.
Context `{Host}.
Import Indexer.

Lemma sortByUpdated_keep keep itemsById ids :
  (∀ a b, keep a = true → keep b = true →
          Js.is_positive (compareIds itemsById a b) = false) →
  keepIds keep (sortByUpdated itemsById ids) = keepIds keep ids.
Proof. intros Hk. unfold keepIds, sortByUpdated. by rewrite Array_sort_filter. Qed.

(** Sorting does not show through a cut to ids that the comparator
    never orders against each other. *)
Lemma sortIndex_restrict keep itemsById index :
  (∀ a b, keep a = true → keep b = true →
          Js.is_positive (compareIds itemsById a b) = false) →
  restrict keep (sortIndex index itemsById) = restrict keep index.
Proof.
  intros Hk. unfold restrict, sortIndex. simpl. f_equal.
  - rewrite omap_fmap. apply omap_pointwise. intros ids. by apply sortByUpdated_keep.
  - rewrite omap_fmap. apply omap_pointwise. intros ids. by apply sortByUpdated_keep.
  - rewrite omap_fmap. apply omap_pointwise. intros bucket. unfold keepNested.
    rewrite omap_fmap.
    by rewrite (omap_pointwise _ (keepIds keep) bucket
                  (fun ids => sortByUpdated_keep keep itemsById ids Hk)).
Qed.

Lemma applyItems_split index items :
  applyItems index items =
    (fold_left indexStep items index,
     fold_left (fun byId item => Js.Map_set byId (id item) item) items []).
Proof.
  unfold applyItems. generalize (@nil (string * MemoryItem)). revert index.
  induction items as [|x items IH]; intros index byId; simpl; [done|].
  by rewrite IH.
Qed.

Lemma itemsById_absent items byId k :
  Js.Map_get (fold_left (fun byId item => Js.Map_set byId (id item) item) items byId) k = None
  ↔ Js.Map_get byId k = None ∧ k ∉ List.map id items.
Proof.
  revert byId. induction items as [|x items IH]; intros byId; simpl.
  - split; [|by intros [? _]]. intros ?. split; [done|]. intros Hk. inversion Hk.
  - rewrite IH, Map_get_set, not_elem_of_cons.
    destruct (String.eqb_spec (id x) k) as [->|Hne]; [split; [by intros [? _]|tauto]|].
    split; [intros [? ?]; auto|tauto].
Qed.

Lemma restrict_indexStep keep item index :
  restrict keep (indexStep index item) =
    if negb (deleted item) && keep (id item)
    then addIdToIndex (restrict (fun e => allBut (id item) e && keep e) index) item
    else restrict (fun e => allBut (id item) e && keep e) index.
Proof.
  unfold indexStep. rewrite removeIdFromIndex_restrict.
  destruct (deleted item); simpl.
  - apply restrict_compose.
  - destruct (keep (id item)) eqn:Hk.
    + by rewrite addIdToIndex_keep, restrict_compose.
    + by rewrite addIdToIndex_drop, restrict_compose.
Qed.

(** The loop leaves the ids of other items where they are. *)
Lemma restrict_fold keep items index :
  (∀ x, In x items → keep (id x) = false) →
  restrict keep (fold_left indexStep items index) = restrict keep index.
Proof.
  revert index. induction items as [|x items IH]; intros index Hk; simpl; [done|].
  rewrite IH by (intros y Hy; apply Hk; by right).
  rewrite restrict_indexStep, (Hk x) by (by left). rewrite andb_false_r.
  apply restrict_ext. intros e. unfold allBut.
  destruct (String.eqb_spec e (id x)) as [->|]; simpl; [|done].
  symmetry. apply Hk. by left.
Qed.

(** What the loop makes of an index depends only on the ids of the
    other items in it. *)
Lemma fold_restrict items index index' :
  items ≠ [] →
  restrict (allButItems items) index = restrict (allButItems items) index' →
  fold_left indexStep items index = fold_left indexStep items index'.
Proof.
  revert index index'. induction items as [|x items IH]; intros index index' Hne Heq; [done|].
  clear Hne. simpl. destruct items as [|y items].
  - simpl. unfold indexStep. rewrite !removeIdFromIndex_restrict.
    assert (Hone : ∀ J, restrict (allBut (id x)) J = restrict (allButItems [x]) J).
    { intros J. apply restrict_ext. intros e. unfold allBut, allButItems. simpl.
      destruct (String.eqb_spec e (id x)) as [->|Hne].
      - rewrite bool_decide_eq_true_2; [done|by left].
      - rewrite bool_decide_eq_false_2; [done|].
        by intros [?|Hin]%elem_of_cons; [|inversion Hin]. }
    by rewrite !Hone, Heq.
  - apply IH; [done|].
    assert (Hcut : ∀ J,
      restrict (fun e => allBut (id x) e && allButItems (y :: items) e) J
      = restrict (allButItems (x :: y :: items)) J).
    { intros J. apply restrict_ext. intros e. unfold allBut, allButItems.
      change (List.map id (x :: y :: items)) with (id x :: List.map id (y :: items)).
      destruct (String.eqb_spec e (id x)) as [->|Hne]; simpl.
      - rewrite bool_decide_eq_true_2; [done|by left].
      - destruct (decide (e ∈ List.map id (y :: items))) as [Hin|Hout].
        + rewrite !bool_decide_eq_true_2; [done|by right|done].
        + rewrite !bool_decide_eq_false_2; [done| |done].
          by intros [?|?]%elem_of_cons. }
    rewrite !restrict_indexStep, !Hcut, Heq. done.
Qed.

Lemma sortByUpdated_unordered ids :
  sortByUpdated [] ids = ids.
Proof.
  unfold sortByUpdated. induction ids as [|a ids IH]; simpl; [done|].
  rewrite IH. by destruct ids.
Qed.

Lemma sortIndex_nothing index : sortIndex index [] = index.
Proof.
  destruct index as [v u byScope byTag byScopeTag]. unfold sortIndex. simpl. f_equal.
  - rewrite <- (map_fmap_id byScope) at 2. apply map_fmap_ext.
    intros ? ids _. apply sortByUpdated_unordered.
  - rewrite <- (map_fmap_id byTag) at 2. apply map_fmap_ext.
    intros ? ids _. apply sortByUpdated_unordered.
  - rewrite <- (map_fmap_id byScopeTag) at 2. apply map_fmap_ext.
    intros ? bucket _. rewrite <- (map_fmap_id bucket) at 2. apply map_fmap_ext.
    intros ? ids _. apply sortByUpdated_unordered.
Qed.

(** The loop and the sort applied twice. *)
Lemma updateIndex_twice (index : MemoryIndex) (items : list MemoryItem) :
  updateIndex (updateIndex index items) items = updateIndex index items.
Proof.
  unfold updateIndex. rewrite !applyItems_split.
  set (itemsById := fold_left (fun byId item => Js.Map_set byId (id item) item) items []).
  destruct items as [|x items].
  - simpl. by rewrite !sortIndex_nothing.
  - f_equal. apply fold_restrict; [done|].
    rewrite sortIndex_restrict.
    + apply restrict_fold. intros y Hy. unfold allButItems.
      rewrite bool_decide_eq_true_2; [done|]. by apply list_elem_of_In, in_map.
    + intros a b Ha%negb_true_iff%bool_decide_eq_false Hb%negb_true_iff%bool_decide_eq_false.
      assert (Hno : ∀ k, k ∉ List.map id (x :: items) → timeOf itemsById k = Some 0).
      { intros k Hk. unfold timeOf, itemsById.
        by rewrite (proj2 (itemsById_absent (x :: items) [] k)). }
      unfold compareIds. by rewrite !Hno.
Qed.

(** The stamp of an index passes through the update untouched. *)
Lemma tagStep_stamped stamp item index tag :
  tagStep item (stamped stamp index) tag = stamped stamp (tagStep item index tag).
Proof. done. Qed.

Lemma indexStep_stamped stamp index item :
  indexStep (stamped stamp index) item = stamped stamp (indexStep index item).
Proof.
  unfold indexStep. destruct (deleted item); simpl; [done|].
  rewrite !addIdToIndex_fold.
  change (removeIdFromIndex (stamped stamp index) (id item))
    with (stamped stamp (removeIdFromIndex index (id item))).
  set (removed := removeIdFromIndex index (id item)).
  match goal with
  | |- fold_left _ _ ?i = stamped stamp (fold_left _ _ ?j) =>
      change i with (stamped stamp j); generalize j
  end.
  induction (tags item) as [|tag rest IH]; intros start; simpl; [done|].
  by rewrite tagStep_stamped, IH.
Qed.

Lemma updateIndex_stamped stamp index items :
  updateIndex (stamped stamp index) items = stamped stamp (updateIndex index items).
Proof.
  unfold updateIndex. rewrite !applyItems_split.
  assert (Hfold : fold_left indexStep items (stamped stamp index)
                  = stamped stamp (fold_left indexStep items index)).
  { revert index. induction items as [|x items IH]; intros index; simpl; [done|].
    by rewrite indexStep_stamped, IH. }
  by rewrite Hfold.
Qed.

Lemma updateIndex_version index items :
  Index.version (updateIndex index items) = Index.version index.
Proof.
  unfold updateIndex. rewrite applyItems_split. simpl.
  induction items as [|x items IH] using rev_ind; [done|].
  rewrite fold_left_app. simpl. unfold indexStep at 1.
  destruct (deleted x); simpl; [done|].
  rewrite addIdToIndex_fold.
  match goal with |- Index.version (fold_left _ _ ?i) = _ =>
    assert (Hstart : Index.version i = Index.version index) by done; revert Hstart; generalize i
  end.
  induction (tags x) as [|tag rest IHt]; intros start Hstart; simpl; [done|].
  by apply IHt.
Qed.

Lemma loadIndex_version clock stored :
  Index.version (loadIndex clock stored) = MEMORY_INDEX_VERSION.
Proof.
  unfold loadIndex. destruct stored as [parsed|]; [|done].
  case_bool_decide as Hv; [done|]. by destruct (decide (Index.version parsed = 1)).
Qed.

(** C7. For every stored index and every list of affected items, the
    incremental update (each item's id removed from every bucket, the
    item added again unless it is soft-deleted, the buckets sorted)
    applied a second time with the same items, to the document the
    first application stored, returns and stores the mappings that the
    first application returned and stored. *)
Theorem updateIndex_idempotent (clock clock' : Z) (stored : option MemoryIndex)
    (items : list MemoryItem) :
  let once := updateIndexFromItems clock stored items in
  let twice := updateIndexFromItems clock' (Some once.2) items in
  mappings twice.1 = mappings once.1 ∧ mappings twice.2 = mappings once.2.
Proof.
  intros once twice. subst once twice. unfold updateIndexFromItems. cbn [fst snd].
  set (loaded := loadIndex clock stored).
  assert (Hload : loadIndex clock' (Some (savedIndex clock (updateIndex loaded items)))
                  = stamped (Date_toISOString clock) (updateIndex loaded items)).
  { unfold loadIndex at 1. cbn [savedIndex Index.version].
    rewrite updateIndex_version. unfold loaded. rewrite loadIndex_version.
    by rewrite bool_decide_eq_false_2 by (intros Hne; by apply Hne). }
  rewrite Hload, updateIndex_stamped, updateIndex_twice. done.
Qed.

End IndexFacts.

(** * Further properties of the code *)

(** ** Strings *)

Section StringFacts.

Lemma str_chars s : Js.str (Js.chars s) = s.
Proof. apply string_of_list_ascii_of_string. Qed.

Lemma chars_str l : Js.chars (Js.str l) = l.
Proof. apply list_ascii_of_string_of_list_ascii. Qed.

Lemma trimStart_fixed l :
  Js.trimStart_chars l = l ↔ match l with [] => True | c :: _ => Js.is_whitespace c = false end.
Proof.
  destruct l as [|c l]; simpl; [done|].
  destruct (Js.is_whitespace c) eqn:Hc; [|done].
  split; [|done]. intros Heq. exfalso.
  assert (Hlen : ∀ k, (length (Js.trimStart_chars k) ≤ length k)%nat).
  { clear. induction k as [|d k IH]; simpl; [done|]. destruct (Js.is_whitespace d); simpl; lia. }
  specialize (Hlen l). rewrite Heq in Hlen. simpl in Hlen. lia.
Qed.

Lemma trimStart_suffix l : ∃ gap, l = gap ++ Js.trimStart_chars l.
Proof.
  induction l as [|c l [gap IH]]; simpl; [by exists []|].
  destruct (Js.is_whitespace c); [|by exists []].
  exists (c :: gap). simpl. by f_equal.
Qed.

Lemma trimStart_idem l : Js.trimStart_chars (Js.trimStart_chars l) = Js.trimStart_chars l.
Proof.
  induction l as [|c l IH]; simpl; [done|].
  destruct (Js.is_whitespace c) eqn:Hc; [done|]. simpl. by rewrite Hc.
Qed.

Lemma trim_chars_fixed l :
  Js.trimStart_chars l = l → Js.trimStart_chars (rev l) = rev l → Js.trim_chars l = l.
Proof. intros H1 H2. unfold Js.trim_chars. by rewrite H1, H2, rev_involutive. Qed.

Lemma trim_chars_trimmed l :
  Js.trimStart_chars (Js.trim_chars l) = Js.trim_chars l ∧
  Js.trimStart_chars (rev (Js.trim_chars l)) = rev (Js.trim_chars l).
Proof.
  unfold Js.trim_chars. set (a := Js.trimStart_chars l).
  assert (Ha : Js.trimStart_chars a = a) by apply trimStart_idem.
  set (b := Js.trimStart_chars (rev a)). split.
  - destruct (trimStart_suffix (rev a)) as [gap Hgap]. fold b in Hgap.
    apply (f_equal (@rev ascii)) in Hgap. rewrite rev_involutive, rev_app_distr in Hgap.
    apply trimStart_fixed. destruct (rev b) as [|c r] eqn:Hr; [done|].
    rewrite Hgap in Ha. simpl in Ha. by apply (trimStart_fixed (c :: r ++ rev gap)) in Ha.
  - rewrite rev_involutive. apply trimStart_idem.
Qed.

Lemma trim_chars_idem l : Js.trim_chars (Js.trim_chars l) = Js.trim_chars l.
Proof. apply trim_chars_fixed; apply trim_chars_trimmed. Qed.

Lemma trim_idem s : Js.trim (Js.trim s) = Js.trim s.
Proof. unfold Js.trim. by rewrite chars_str, trim_chars_idem. Qed.

Lemma lower_char_idem c : Js.lower_char (Js.lower_char c) = Js.lower_char c.
Proof. destruct c as [[] [] [] [] [] [] [] []]; reflexivity. Qed.

Lemma lower_char_whitespace c : Js.is_whitespace (Js.lower_char c) = Js.is_whitespace c.
Proof. destruct c as [[] [] [] [] [] [] [] []]; reflexivity. Qed.

Lemma toLowerCase_idem s : Js.toLowerCase (Js.toLowerCase s) = Js.toLowerCase s.
Proof.
  unfold Js.toLowerCase. rewrite chars_str, List.map_map. f_equal.
  apply map_ext. apply lower_char_idem.
Qed.

Lemma trimStart_lower l :
  Js.trimStart_chars (List.map Js.lower_char l) = List.map Js.lower_char (Js.trimStart_chars l).
Proof.
  induction l as [|c l IH]; simpl; [done|].
  rewrite lower_char_whitespace. by destruct (Js.is_whitespace c).
Qed.

Lemma trim_chars_lower l :
  Js.trim_chars (List.map Js.lower_char l) = List.map Js.lower_char (Js.trim_chars l).
Proof.
  unfold Js.trim_chars. by rewrite trimStart_lower, <- List.map_rev, trimStart_lower, List.map_rev.
Qed.

Lemma trim_toLowerCase s : Js.trim (Js.toLowerCase s) = Js.toLowerCase (Js.trim s).
Proof. unfold Js.trim, Js.toLowerCase. by rewrite !chars_str, trim_chars_lower. Qed.

Lemma normalizeTag_idem tag : normalizeTag (normalizeTag tag) = normalizeTag tag.
Proof.
  unfold normalizeTag. by rewrite trim_toLowerCase, trim_idem, toLowerCase_idem.
Qed.

End StringFacts.

(** ** schema.ts: normal forms and validation *)

Section SchemaFacts.

Lemma Set_from_NoDup l : NoDup (Js.Set_from l).
Proof. apply Set_add_fold_NoDup. constructor. Qed.

Lemma Set_from_elem l x : x ∈ Js.Set_from l ↔ x ∈ l.
Proof.
  unfold Js.Set_from. rewrite Set_add_fold_elem.
  split; [intros [Hx|Hx]; [inversion Hx|done]|auto].
Qed.

Lemma Set_from_fixed l : NoDup l → Js.Set_from l = l.
Proof. intros Hnd. apply (Set_add_NoDup [] l); [done|]. intros x _ Hx. inversion Hx. Qed.

Lemma length_zero (s : string) : (String.length s =? 0)%nat = true ↔ s = "".
Proof. destruct s; simpl; split; done. Qed.

Lemma normalizeTags_elem tags tag :
  tag ∈ normalizeTags tags ↔ tag ≠ "" ∧ ∃ t, t ∈ tags ∧ normalizeTag t = tag.
Proof.
  unfold normalizeTags. rewrite Set_from_elem, list_elem_of_In, filter_In, in_map_iff.
  rewrite negb_true_iff, <- not_true_iff_false, length_zero.
  setoid_rewrite list_elem_of_In. split.
  - intros [(t & Heq & Hin) Hne]. split; [done|]. by exists t.
  - intros [Hne (t & Hin & Heq)]. split; [|done]. by exists t.
Qed.

Lemma normalizeTags_idem (tags : list string) :
  normalizeTags (normalizeTags tags) = normalizeTags tags.
Proof.
  pose proof (normalizeTags_elem tags) as Helem.
  pose proof (Set_from_NoDup
                (List.filter (fun tag => negb (String.length tag =? 0)%nat)
                   (List.map normalizeTag tags))) as Hnd.
  change (Js.Set_from _) with (normalizeTags tags) in Hnd.
  generalize dependent (normalizeTags tags). intros normal Helem Hnd.
  assert (Hfixed : List.map normalizeTag normal = normal).
  { rewrite <- (map_id normal) at 2. apply map_ext_in.
    intros tag Hin. apply (proj2 (list_elem_of_In _ _)), Helem in Hin as (_ & t & _ & <-).
    apply normalizeTag_idem. }
  unfold normalizeTags. rewrite Hfixed, filter_all.
  - by apply Set_from_fixed.
  - apply Forall_forall. intros tag (Hne & _)%Helem.
    apply negb_true_iff, not_true_iff_false. by rewrite length_zero.
Qed.

(** [normalizeTags] returns the distinct non-empty normal forms of the
    tags given, and returns a list of that kind as it is. *)
Theorem normalizeTags_canonical (tags : list string) :
  NoDup (normalizeTags tags) ∧
  (∀ tag, tag ∈ normalizeTags tags ↔ tag ≠ "" ∧ ∃ t, t ∈ tags ∧ normalizeTag t = tag) ∧
  normalizeTags (normalizeTags tags) = normalizeTags tags.
Proof.
  split; [apply Set_from_NoDup|]. split; [apply normalizeTags_elem|apply normalizeTags_idem].
Qed.

Lemma asMemoryItem_itemToJson item : asMemoryItem (itemToJson item) = item.
Proof.
  destruct item as [i c u s t co su me im de].
  unfold asMemoryItem, itemToJson, prop. cbn.
  f_equal.
  - rewrite List.map_map. apply map_id.
  - by destruct su.
  - by destruct me.
Qed.

Lemma validateMemoryItem_itemToJson item :
  (validateMemoryItem (itemToJson item)).2 =
    flat_map
      (fun field => if Js.is_blank field.2 then ["Invalid or missing " +:+ field.1] else [])
      [("id", id item); ("createdAt", createdAt item); ("updatedAt", updatedAt item);
       ("scope", scope item); ("content", content item)].
Proof.
  destruct item as [i c u s t co su me im de].
  unfold validateMemoryItem, itemToJson, prop, isRecord, requiredStringFields. cbn.
  assert (Htags : existsb (fun tag => negb (is_string tag)) (List.map JString t) = false).
  { induction t as [|x t IH]; simpl; [done|exact IH]. }
  rewrite Htags. cbn. destruct su, me; cbn; by rewrite !app_nil_r.
Qed.

Lemma validity_written (item : MemoryItem) :
  (validateMemoryItem (itemToJson item)).1 = true ↔
  Forall (fun text => Js.is_blank text = false)
    [id item; createdAt item; updatedAt item; scope item; content item].
Proof.
  assert (Hok : (validateMemoryItem (itemToJson item)).1
                = bool_decide ((validateMemoryItem (itemToJson item)).2 = [])).
  { unfold validateMemoryItem. by destruct (negb (isRecord (itemToJson item))). }
  rewrite Hok, bool_decide_eq_true, validateMemoryItem_itemToJson. cbn.
  rewrite !Forall_cons.
  destruct (Js.is_blank (id item)), (Js.is_blank (createdAt item)),
    (Js.is_blank (updatedAt item)), (Js.is_blank (scope item)),
    (Js.is_blank (content item)); cbn; split; intros Hx; try done;
    try (by repeat split); intuition congruence.
Qed.

(** A record of the shape the engine writes passes [validateMemoryItem]
    exactly when its [id], [createdAt], [updatedAt], [scope] and
    [content] hold a character that is not white space. *)
Theorem validateMemoryItem_written (item : MemoryItem) :
  (validateMemoryItem (itemToJson item)).1 = true ↔
  Forall (fun text => Js.is_blank text = false)
    [id item; createdAt item; updatedAt item; scope item; content item].
Proof.
  assert (Hok : (validateMemoryItem (itemToJson item)).1
                = bool_decide ((validateMemoryItem (itemToJson item)).2 = [])).
  { unfold validateMemoryItem. by destruct (negb (isRecord (itemToJson item))). }
  rewrite Hok, bool_decide_eq_true, validateMemoryItem_itemToJson. cbn.
  rewrite !Forall_cons.
  destruct (Js.is_blank (id item)), (Js.is_blank (createdAt item)),
    (Js.is_blank (updatedAt item)), (Js.is_blank (scope item)),
    (Js.is_blank (content item)); cbn; split; intros Hx; try done;
    try (by repeat split); intuition congruence.
Qed.

End SchemaFacts.

(** ** The order of the latest view *)

Section LatestOrder.
Context `{Host}.
Import MemoryStore.

Lemma selectLatestItems_fold log :
  selectLatestItems log = Js.Map_values (fold_left latestStep log []).
Proof. reflexivity. Qed.

Lemma Map_keys_latestStep m z :
  Js.Map_keys (latestStep m z) = Js.Set_add (Js.Map_keys m) (id z).
Proof.
  unfold latestStep, Js.Set_add.
  destruct (Js.Map_get m (id z)) as [current|] eqn:Hget.
  - assert (Hin : id z ∈ Js.Map_keys m).
    { apply list_elem_of_In. destruct (in_dec string_dec (id z) (Js.Map_keys m)) as [Hin|Hout]; [done|].
      apply Map_get_None in Hout. congruence. }
    rewrite bool_decide_eq_true_2 by done.
    destruct (getTimestamp current <=? getTimestamp z); [|done].
    apply Map_keys_set_present. by rewrite Hget.
  - rewrite bool_decide_eq_false_2.
    + rewrite Map_set_fresh by done. unfold Js.Map_keys. by rewrite map_app.
    + rewrite list_elem_of_In. by apply Map_get_None.
Qed.

Lemma Map_keys_fold log m :
  Js.Map_keys (fold_left latestStep log m) = fold_left Js.Set_add (List.map id log) (Js.Map_keys m).
Proof.
  revert m. induction log as [|z log IH]; intros m; simpl; [done|].
  by rewrite IH, Map_keys_latestStep.
Qed.

Lemma latest_ids m log :
  latest_inv log m → List.map id (Js.Map_values m) = Js.Map_keys m.
Proof.
  intros (_ & _ & Hwin). unfold Js.Map_values, Js.Map_keys. rewrite map_map.
  apply map_ext_in. intros [k x] Hx. simpl. by destruct (Hwin _ _ Hx).
Qed.

(** The step of the loop on a record that is not older than the record
    the map holds for its id, and on a record that is. *)
Lemma find_id_values (m : list (string * MemoryItem)) k :
  (∀ k' x, In (k', x) m → id x = k') →
  find_id k (Js.Map_values m) = Js.Map_get m k.
Proof.
  unfold find_id. induction m as [|[k0 x0] m IH]; intros Hid; simpl; [done|].
  rewrite (Hid k0 x0) by by left.
  destruct (String.eqb k0 k); [done|]. apply IH. intros k' x Hx. apply Hid. by right.
Qed.

Lemma find_id_latest log k :
  find_id k (selectLatestItems log) = Js.Map_get (fold_left latestStep log []) k.
Proof.
  rewrite selectLatestItems_fold. apply find_id_values.
  intros k' x Hx. by destruct (latest_inv_fold log) as (_ & _ & Hwin), (Hwin _ _ Hx).
Qed.

Lemma Map_get_latestStep m z k :
  Js.Map_get (latestStep m z) k =
    if String.eqb (id z) k then
      match Js.Map_get m k with
      | Some current => if getTimestamp current <=? getTimestamp z then Some z else Some current
      | None => Some z
      end
    else Js.Map_get m k.
Proof.
  unfold latestStep. destruct (String.eqb_spec (id z) k) as [<-|Hne].
  - destruct (Js.Map_get m (id z)) as [current|] eqn:Hget.
    + destruct (getTimestamp current <=? getTimestamp z); [|done].
      by rewrite Map_get_set, String.eqb_refl.
    + by rewrite Map_get_set, String.eqb_refl.
  - destruct (Js.Map_get m (id z)) as [current|].
    + destruct (getTimestamp current <=? getTimestamp z); [|done].
      rewrite Map_get_set. by rewrite (proj2 (String.eqb_neq _ _)).
    + rewrite Map_get_set. by rewrite (proj2 (String.eqb_neq _ _)).
Qed.

(** What the latest view holds for an id once a record is added at the
    end of the log. *)
Lemma find_id_latest_snoc log z k :
  find_id k (selectLatestItems (log ++ [z])) =
    if String.eqb (id z) k then
      match find_id k (selectLatestItems log) with
      | Some current => if getTimestamp current <=? getTimestamp z then Some z else Some current
      | None => Some z
      end
    else find_id k (selectLatestItems log).
Proof.
  rewrite !find_id_latest, fold_left_app. simpl. apply Map_get_latestStep.
Qed.

Lemma fold_latestStep_distinct log m :
  NoDup (List.map id log) →
  (∀ x, In x log → Js.Map_get m (id x) = None) →
  fold_left latestStep log m = m ++ List.map (fun x => (id x, x)) log.
Proof.
  revert m. induction log as [|z log IH]; intros m Hnd Hfresh; simpl.
  - by rewrite app_nil_r.
  - apply NoDup_cons in Hnd as [Hz Hnd].
    unfold latestStep at 2. rewrite Hfresh by by left.
    rewrite Map_set_fresh by (apply Hfresh; by left).
    rewrite IH, <- app_assoc; [done|done|].
    intros x Hx. apply Map_get_None. unfold Js.Map_keys. rewrite map_app. simpl.
    intros [Hin|[Heq|[]]]%in_app_or.
    + apply Map_get_None in Hin; [done|]. apply Hfresh. by right.
    + apply Hz. rewrite Heq. apply list_elem_of_In. by apply in_map.
Qed.

Lemma selectLatestItems_distinct log :
  NoDup (List.map id log) → selectLatestItems log = log.
Proof.
  intros Hnd. rewrite selectLatestItems_fold, fold_latestStep_distinct by done.
  unfold Js.Map_values. simpl. rewrite map_map. apply map_id.
Qed.

Lemma selectLatestItems_ids log :
  List.map id (selectLatestItems log) = Js.Set_from (List.map id log).
Proof.
  rewrite selectLatestItems_fold, (latest_ids _ log) by apply latest_inv_fold.
  by rewrite Map_keys_fold.
Qed.

Lemma selectLatestItems_idem log :
  selectLatestItems (selectLatestItems log) = selectLatestItems log.
Proof.
  apply selectLatestItems_distinct. rewrite selectLatestItems_ids.
  apply Set_add_fold_NoDup. constructor.
Qed.

(** The latest view lists one record per id, the ids in the order in
    which the log first names them, and is its own latest view. *)
Theorem selectLatestItems_order (log : list MemoryItem) :
  List.map id (selectLatestItems log) = Js.Set_from (List.map id log) ∧
  selectLatestItems (selectLatestItems log) = selectLatestItems log.
Proof.
  assert (Hfold : selectLatestItems log = Js.Map_values (fold_left latestStep log []))
    by reflexivity.
  assert (Hids : List.map id (selectLatestItems log) = Js.Set_from (List.map id log)).
  { rewrite Hfold, (latest_ids _ log) by apply latest_inv_fold. by rewrite Map_keys_fold. }
  split; [exact Hids|].
  apply selectLatestItems_distinct. rewrite Hids. unfold Js.Set_from.
  apply Set_add_fold_NoDup. constructor.
Qed.

End LatestOrder.

(** ** Lines of a log *)

Section LineFacts.

Lemma chars_append s t : Js.chars (s +:+ t) = Js.chars s ++ Js.chars t.
Proof. unfold Js.chars. induction s as [|c s IH]; simpl; [done|]. by rewrite IH. Qed.

Lemma append_assoc (a b c : string) : (a +:+ b) +:+ c = a +:+ b +:+ c.
Proof.
  induction a as [|x a IH]; [done|].
  change (String x ((a +:+ b) +:+ c) = String x (a +:+ b +:+ c)). by rewrite IH.
Qed.

(** Splitting at a line feed: what stands before it is split on its
    own. *)
Lemma split_lines_aux_feed (a : list ascii) :
  ∀ rcur, ∃ pieces,
    ∀ rest, Js.split_lines_aux rcur (a ++ "010"%char :: rest)
            = pieces ++ Js.split_lines_aux [] rest.
Proof.
  induction a as [|c a IH]; intros rcur.
  - by exists [Js.str (rev (Js.strip_cr rcur))].
  - simpl. destruct (Js.code c =? 10)%nat.
    + destruct (IH []) as [pieces Hfeed].
      exists (Js.str (rev (Js.strip_cr rcur)) :: pieces). intros rest. by rewrite Hfeed.
    + destruct (IH (c :: rcur)) as [pieces Hfeed]. by exists pieces.
Qed.

Lemma split_lines_aux_line (a : list ascii) :
  forallb (fun c => negb (Js.code c =? 10)%nat) a = true →
  ∀ rcur rest,
    Js.split_lines_aux rcur (a ++ "010"%char :: rest)
    = Js.str (rev (Js.strip_cr (rev a ++ rcur))) :: Js.split_lines_aux [] rest.
Proof.
  induction a as [|c a IH]; intros Hplain rcur rest; [done|].
  simpl in Hplain. apply andb_true_iff in Hplain as [Hc Ha].
  simpl. apply negb_true_iff in Hc. rewrite Hc, IH by done. by rewrite <- app_assoc.
Qed.

Lemma strip_cr_plain (a : list ascii) :
  forallb (fun c => negb (Js.code c =? 13)%nat) a = true → Js.strip_cr (rev a) = rev a.
Proof.
  intros Hplain. destruct (rev a) as [|c r] eqn:Hrev; [done|]. simpl.
  assert (Hin : In c a). { apply in_rev. rewrite Hrev. by left. }
  rewrite forallb_forall in Hplain. apply Hplain, negb_true_iff in Hin. by rewrite Hin.
Qed.

Lemma singleLine_split text :
  singleLine text = true →
  forallb (fun c => negb (Js.code c =? 10)%nat) (Js.chars text) = true ∧
  forallb (fun c => negb (Js.code c =? 13)%nat) (Js.chars text) = true.
Proof.
  unfold singleLine. rewrite !forallb_forall. intros Hall.
  split; intros c Hc; by destruct (andb_prop _ _ (Hall c Hc)).
Qed.

(** A single line followed by a line feed is a line of its own. *)
Lemma split_lines_line line rest :
  singleLine line = true →
  Js.split_lines (line +:+ MemoryStore.NEWLINE +:+ rest) = line :: Js.split_lines rest.
Proof.
  intros [Hlf Hcr]%singleLine_split. unfold Js.split_lines.
  rewrite !chars_append. simpl. rewrite split_lines_aux_line by done.
  by rewrite app_nil_r, strip_cr_plain, rev_involutive, str_chars.
Qed.

Lemma split_lines_last line :
  singleLine line = true → Js.split_lines (line +:+ MemoryStore.NEWLINE) = [line; ""].
Proof. exact (split_lines_line line ""). Qed.

Lemma split_lines_empty : Js.split_lines "" = [""].
Proof. reflexivity. Qed.

(** A terminated text ends with an empty line, in whose place whatever
    is written behind the text begins. *)
Lemma split_lines_terminated text :
  terminated text →
  ∃ pieces, Js.split_lines text = pieces ++ [""] ∧
            ∀ rest, Js.split_lines (text +:+ rest) = pieces ++ Js.split_lines rest.
Proof.
  intros [->|[body ->]].
  - by exists [].
  - destruct (split_lines_aux_feed (Js.chars body) []) as [pieces Hfeed].
    exists pieces. unfold Js.split_lines. split.
    + rewrite chars_append. simpl. by rewrite Hfeed.
    + intros rest. rewrite !chars_append, <- app_assoc. simpl. by rewrite Hfeed.
Qed.

Lemma split_lines_join lines :
  Forall (fun line => singleLine line = true) lines → lines ≠ [] →
  Js.split_lines (Js.join MemoryStore.NEWLINE lines +:+ MemoryStore.NEWLINE) = lines ++ [""].
Proof.
  induction 1 as [|line lines Hline Hlines IH]; intros Hne; [done|].
  destruct lines as [|line' lines].
  - by apply split_lines_last.
  - change (Js.join MemoryStore.NEWLINE (line :: line' :: lines))
      with (line +:+ MemoryStore.NEWLINE +:+ Js.join MemoryStore.NEWLINE (line' :: lines)).
    rewrite !append_assoc, split_lines_line by done. by rewrite IH.
Qed.
End LineFacts.

(** ** Reading back what was written *)

Section ReadBack.
Context `{Host}.
Import Fs FileLock MemoryStore.

Lemma parseLine_item line n errs : item (parseLine line n errs).1 = lineItem line.
Proof.
  unfold parseLine, lineItem. destruct (Js.is_blank line); [done|].
  destruct (JSON_parse line) as [thrown|parsed]; [done|].
  by destruct (validateMemoryItem parsed).1.
Qed.

Lemma readLoop_items lines i acc :
  items (readLoop lines i acc) = items acc ++ omap lineItem lines.
Proof.
  revert i acc. induction lines as [|line lines IH]; intros i acc; simpl.
  - by rewrite app_nil_r.
  - pose proof (parseLine_item line (i + 1) (errors acc)) as Hitem.
    unfold lineItem at 1 in Hitem. unfold lineItem at 1.
    destruct (Js.is_blank line) eqn:Hblank; [by rewrite IH|].
    destruct (parseLine line (i + 1) (errors acc)) as [parsed errors'].
    simpl in Hitem. rewrite Hitem.
    destruct (match JSON_parse line with inl _ => None | inr parsed0 => _ end) as [it|].
    + rewrite IH. simpl. by rewrite <- app_assoc.
    + destruct (truthy (error parsed)); by rewrite IH.
Qed.

Lemma readContent_items text :
  items (readContent text) = omap lineItem (Js.split_lines text).
Proof. unfold readContent. by rewrite readLoop_items. Qed.

Lemma lineItem_empty : lineItem "" = None.
Proof. reflexivity. Qed.

(** A record appended to a terminated log is read as the last record. *)
Lemma readContent_appended text it :
  terminated text → readsBack it →
  items (readContent (text +:+ (JSON_stringify (itemToJson it) +:+ NEWLINE)))
  = items (readContent text) ++ [it].
Proof.
  intros Hterm [Hsingle Hback]. rewrite !readContent_items.
  destruct (split_lines_terminated text Hterm) as (pieces & -> & ->).
  rewrite split_lines_last by done. rewrite !omap_app. simpl.
  by rewrite Hback, app_nil_r.
Qed.

Lemma lines_readBack its :
  Forall readsBack its →
  omap lineItem (List.map (fun it => JSON_stringify (itemToJson it)) its) = its.
Proof.
  induction 1 as [|x l [_ Hx] _ IH]; [done|].
  cbn [List.map]. change (omap lineItem (?a :: ?l)) with
    (match lineItem a with Some y => y :: omap lineItem l | None => omap lineItem l end).
  by rewrite Hx, IH.
Qed.

Lemma readContent_serialize its :
  Forall readsBack its → items (readContent (serialize its)) = its.
Proof.
  intros Hback. rewrite readContent_items. unfold serialize.
  destruct its as [|it its]; [done|].
  rewrite split_lines_join; [| |done].
  - rewrite omap_app, lines_readBack by done. simpl. by rewrite app_nil_r.
  - clear -Hback. induction Hback as [|x l [Hx _] _ IH]; constructor; done.
Qed.

End ReadBack.

(** ** Sequences of operations of the store *)

Section StoreSequences.
Context `{Host}.
Import Fs FileLock MemoryStore.

Ltac quiet_step :=
  first
    [ rewrite mkdir_p_quiet by done
    | rewrite access_quiet by done
    | rewrite readFile_quiet by done
    | rewrite writeFile_quiet by done
    | rewrite appendFile_quiet by done
    | rewrite rename_quiet by done
    | rewrite open_wx_quiet by done
    | rewrite unlink_quiet by done
    | progress cbn beta iota
    | progress unfold bind, try_catch, try_finally, ret, throw, Date_now ].

Ltac quiet := repeat quiet_step.

Ltac lookups :=
  repeat first
    [ rewrite lookup_insert_eq
    | rewrite lookup_insert_ne by done
    | rewrite lookup_delete_eq
    | rewrite lookup_delete_ne by done ].

(** [appendItem] on a quiet file system with the lock free: the line
    of the record is put behind the text of the log, the log created
    when it is missing; the marker is gone again. *)
Lemma appendItem_quiet fuel memoryFile it w :
  faults w = [] →
  files w !! lockPathOf memoryFile = None →
  ∃ w',
    appendItem (S fuel) memoryFile it w = (Ok tt, w') ∧
    faults w' = [] ∧
    clock w' = clock w ∧
    files w' !! memoryFile =
      Some {| data := logText w memoryFile +:+ (JSON_stringify (itemToJson it) +:+ NEWLINE);
              mtimeMs := clock w |} ∧
    (∀ path, path ≠ memoryFile → files w' !! path = files w !! path).
Proof.
  intros Hq Hfree. unfold logText.
  pose proof (lockPath_neq memoryFile) as Hne.
  destruct (files w !! memoryFile) as [f|] eqn:Hf.
  - assert (Hlocked : files (locked memoryFile w) !! memoryFile = Some f).
    { unfold locked. cbn [files set_files]. by lookups. }
    eexists. split; [|split; [|split; [|split]]].
    + unfold appendItem. apply withFileLock_free; [done|done| |].
      * quiet. rewrite (ensureFile_exists _ _ f) by done. quiet. rewrite Hlocked. done.
      * done.
    + done.
    + done.
    + cbn [files set_files locked]. by lookups.
    + intros path Hpath. cbn [files set_files locked].
      destruct (decide (path = lockPathOf memoryFile)) as [->|Hl]; by lookups.
  - assert (Hlocked : files (locked memoryFile w) !! memoryFile = None).
    { unfold locked. cbn [files set_files]. by lookups. }
    eexists. split; [|split; [|split; [|split]]].
    + unfold appendItem. apply withFileLock_free; [done|done| |].
      * quiet. rewrite ensureFile_missing by done. quiet. cbn [files set_files]. lookups. done.
      * done.
    + done.
    + done.
    + cbn [files set_files locked clock]. by lookups.
    + intros path Hpath. cbn [files set_files locked].
      destruct (decide (path = lockPathOf memoryFile)) as [->|Hl]; by lookups.
Qed.

Lemma getMemoryItem_quiet memoryFile id0 w f :
  faults w = [] → files w !! memoryFile = Some f →
  getMemoryItem memoryFile id0 w = (Ok (find_id id0 (latestView (data f))), w).
Proof.
  intros Hq Hf. unfold getMemoryItem, readLatestItems. quiet.
  by rewrite (readAllItems_exists _ _ f).
Qed.

Lemma latestView_appended text it id0 :
  terminated text → readsBack it →
  find_id id0 (latestView (text +:+ (JSON_stringify (itemToJson it) +:+ NEWLINE))) =
    if String.eqb (id it) id0 then
      match find_id id0 (latestView text) with
      | Some current => if getTimestamp current <=? getTimestamp it then Some it else Some current
      | None => Some it
      end
    else find_id id0 (latestView text).
Proof.
  intros Hterm Hback. unfold latestView.
  rewrite readContent_appended by done. apply find_id_latest_snoc.
Qed.

Lemma latestView_fresh text uuid :
  ¬ In uuid (List.map id (items (readContent text))) →
  find_id uuid (latestView text) = None.
Proof.
  intros Hfresh. apply find_id_None. unfold latestView.
  rewrite selectLatestItems_ids. intros Hin. apply Hfresh.
  apply list_elem_of_In, Set_from_elem. by apply list_elem_of_In.
Qed.

(** [addMemoryItem] then [getMemoryItem].  On a quiet file system with
    the lock free and a log that ends with a line feed, a record added
    under an id the log does not hold is what [getMemoryItem] returns
    for that id afterwards, and every other id resolves as before. *)
Theorem addMemoryItem_then_get fuel memoryFile input uuid w :
  faults w = [] →
  files w !! lockPathOf memoryFile = None →
  terminated (logText w memoryFile) →
  readsBack (newItem input uuid (clock w)) →
  ¬ In uuid (List.map id (items (readContent (logText w memoryFile)))) →
  ∃ w',
    addMemoryItem (S fuel) memoryFile input uuid w
      = (Ok (newItem input uuid (clock w)), w') ∧
    getMemoryItem memoryFile uuid w' = (Ok (Some (newItem input uuid (clock w))), w') ∧
    (∀ id0, id0 ≠ uuid →
       getMemoryItem memoryFile id0 w'
       = (Ok (find_id id0 (latestView (logText w memoryFile))), w')).
Proof.
  intros Hq Hfree Hterm Hback Hfresh.
  destruct (appendItem_quiet fuel memoryFile (newItem input uuid (clock w)) w Hq Hfree)
    as (w' & Happend & Hq' & _ & Hlog & _).
  exists w'. split; [|split].
  - unfold addMemoryItem. quiet. by rewrite Happend.
  - rewrite (getMemoryItem_quiet _ _ _ _ Hq' Hlog). cbn [data].
    rewrite latestView_appended by done. cbn [id newItem].
    by rewrite String.eqb_refl, latestView_fresh.
  - intros id0 Hne. rewrite (getMemoryItem_quiet _ _ _ _ Hq' Hlog). cbn [data].
    rewrite latestView_appended by done. cbn [id newItem].
    by rewrite (proj2 (String.eqb_neq _ _)).
Qed.

(** [updateMemoryItem] then [getMemoryItem], on a quiet file system
    with the lock free, for an id the log resolves, when the log ends
    with a line feed or is empty and the merged record reads back from
    its JSON line.  The merged record is appended and returned;
    afterwards the id resolves to the merged record when its resolved
    timestamp is not before that of the record it was merged onto, and
    to that former record otherwise. *)
Theorem updateMemoryItem_then_get fuel memoryFile id0 patch w f existing :
  faults w = [] →
  files w !! lockPathOf memoryFile = None →
  files w !! memoryFile = Some f →
  terminated (data f) →
  find_id id0 (latestView (data f)) = Some existing →
  readsBack (mergePatch existing patch (clock w)) →
  ∃ w',
    updateMemoryItem (S fuel) memoryFile id0 patch w
      = (Ok (Some (mergePatch existing patch (clock w))), w') ∧
    getMemoryItem memoryFile id0 w'
      = (Ok (Some (if getTimestamp existing <=? getTimestamp (mergePatch existing patch (clock w))
                   then mergePatch existing patch (clock w) else existing)), w').
Proof.
  intros Hq Hfree Hf Hterm Hfind Hback.
  set (updated := mergePatch existing patch (clock w)) in *.
  destruct (appendItem_quiet fuel memoryFile updated w Hq Hfree)
    as (w' & Happend & Hq' & _ & Hlog & _).
  unfold logText in Hlog. rewrite Hf in Hlog.
  exists w'. split.
  - unfold updateMemoryItem, readLatestItems. quiet.
    rewrite (readAllItems_exists _ _ f) by done. cbn [items].
    unfold latestView in Hfind. rewrite Hfind. quiet. fold updated. by rewrite Happend.
  - rewrite (getMemoryItem_quiet _ _ _ _ Hq' Hlog). cbn [data].
    rewrite latestView_appended by done. rewrite Hfind.
    apply find_id_Some in Hfind as [_ Hid].
    assert (Hid' : id updated = id0) by done.
    rewrite Hid', String.eqb_refl. by destruct (getTimestamp existing <=? getTimestamp updated).
Qed.

Lemma clampImportance_unit value fallback :
  (0 <= fallback <= 1)%Q → (0 <= clampImportance value fallback <= 1)%Q.
Proof.
  intros Hf. unfold clampImportance. destruct value as [v|]; [|done].
  destruct (Qle_bool 0 v) eqn:H0; simpl; [|lra].
  destruct (Qle_bool v 1) eqn:H1; simpl; [|lra].
  apply Qle_bool_iff in H0, H1. lra.
Qed.

Lemma is_blank_trim text : Js.is_blank (Js.trim text) = Js.is_blank text.
Proof. unfold Js.is_blank, Js.trim. by rewrite chars_str, trim_chars_idem. Qed.

(** [addMemoryItem] on a quiet file system with the lock free.  The
    record is put behind the text of the log as one line and no other
    file is changed; its tags and its scope are their own normal forms
    and its importance lies between 0 and 1.  Nothing validates the
    record: it is one that [validateMemoryItem] accepts exactly when the
    id, the time stamp, the scope and the content are not blank. *)
Theorem addMemoryItem_appends fuel memoryFile input uuid w :
  faults w = [] →
  files w !! lockPathOf memoryFile = None →
  ∃ it w',
    addMemoryItem (S fuel) memoryFile input uuid w = (Ok it, w') ∧
    id it = uuid ∧
    normalizeScope (scope it) = scope it ∧
    normalizeTags (tags it) = tags it ∧
    (0 <= importance it <= 1)%Q ∧
    deleted it = false ∧
    ((validateMemoryItem (itemToJson it)).1 = true ↔
     Forall (fun text => Js.is_blank text = false)
       [uuid; Date_toISOString (clock w); Input.scope input; Input.content input]) ∧
    logText w' memoryFile
      = logText w memoryFile +:+ (JSON_stringify (itemToJson it) +:+ NEWLINE) ∧
    (∀ path, path ≠ memoryFile → files w' !! path = files w !! path).
Proof.
  intros Hq Hfree.
  destruct (appendItem_quiet fuel memoryFile (newItem input uuid (clock w)) w Hq Hfree)
    as (w' & Happend & _ & _ & Hlog & Hother).
  exists (newItem input uuid (clock w)), w'.
  split; [unfold addMemoryItem; quiet; by rewrite Happend|].
  split; [done|]. split; [apply trim_idem|].
  split; [apply normalizeTags_idem|].
  split; [by apply clampImportance_unit|]. split; [done|].
  split; [|split; [unfold logText at 1; by rewrite Hlog|done]].
  rewrite validity_written. cbn [id createdAt updatedAt scope content newItem].
  rewrite !Forall_cons. unfold normalizeScope. rewrite is_blank_trim. tauto.
Qed.

(** [compactMemoryFile] on a quiet file system with the lock free, when
    every record of the latest view reads back from its line: the log
    then holds the records of the latest view, one line each, so its
    latest view is what it was; the former file stands under the backup
    path and the temporary file is gone. *)
Theorem compactMemoryFile_keeps_view fuel memoryFile w f :
  faults w = [] →
  files w !! lockPathOf memoryFile = None →
  files w !! memoryFile = Some f →
  Forall readsBack (latestView (data f)) →
  ∃ w',
    compactMemoryFile (S fuel) memoryFile w = (Ok tt, w') ∧
    items (readContent (logText w' memoryFile)) = latestView (data f) ∧
    latestView (logText w' memoryFile) = latestView (data f) ∧
    files w' !! (memoryFile +:+ ".bak." +:+ pretty (clock w)) = Some f ∧
    files w' !! (memoryFile +:+ ".tmp") = None.
Proof.
  intros Hq Hfree Hf Hback.
  set (lockPath := lockPathOf memoryFile) in *.
  set (tempFile := memoryFile +:+ ".tmp").
  set (backupFile := memoryFile +:+ ".bak." +:+ pretty (clock w)).
  assert (Hml : lockPath ≠ memoryFile) by apply lockPath_neq.
  assert (Hmt : tempFile ≠ memoryFile) by by apply append_neq.
  assert (Hmb : backupFile ≠ memoryFile) by by apply append_neq.
  assert (Hbl : backupFile ≠ lockPath) by (intros Heq%append_inj; discriminate).
  assert (Hbt : backupFile ≠ tempFile) by (intros Heq%append_inj; discriminate).
  assert (Htl : tempFile ≠ lockPath) by (intros Heq%append_inj; discriminate).
  assert (Hlocked : files (locked memoryFile w) !! memoryFile = Some f).
  { unfold locked. cbn [files set_files]. by lookups. }
  eexists. split.
  - unfold compactMemoryFile. apply withFileLock_free; [done|done|..].
    + unfold readLatestItems. quiet. rewrite (readAllItems_exists _ _ f) by done.
      quiet. cbn [files set_files clock]. fold tempFile. lookups. rewrite Hlocked.
      quiet. cbn [files set_files clock]. lookups. reflexivity.
    + done.
  - unfold logText. cbn [files set_files clock locked items]. fold lockPath tempFile backupFile.
    lookups. cbn [data]. fold (latestView (data f)).
    split; [by apply readContent_serialize|].
    split; [|split; [done|by lookups]].
    unfold latestView at 1. rewrite readContent_serialize by done.
    apply selectLatestItems_idem.
Qed.

End StoreSequences.

(** ** getMemoryHealth *)

Section HealthFacts.
Context `{Host}.
Import Fs FileLock MemoryStore.
Variables (Number_toString : Q → string) (Number_toFixed : Q → nat → string).

Lemma Set_add_fold_length acc l :
  (length (fold_left Js.Set_add l acc) ≤ length acc + length l)%nat.
Proof.
  revert acc. induction l as [|x l IH]; intros acc; simpl; [lia|].
  specialize (IH (Js.Set_add acc x)). unfold Js.Set_add in *.
  destruct (bool_decide (x ∈ acc)); [lia|]. rewrite length_app in IH. simpl in IH. lia.
Qed.

Lemma selectLatestItems_length log :
  (length (selectLatestItems log) ≤ length log)%nat.
Proof.
  rewrite <- (length_map id (selectLatestItems log)), selectLatestItems_ids.
  pose proof (Set_add_fold_length [] (List.map id log)) as Hlen.
  rewrite length_map in Hlen. exact Hlen.
Qed.

Lemma readContent_counts text :
  validLines (stats (readContent text)) = length (items (readContent text)) ∧
  invalidLines (stats (readContent text)) = length (errors (readContent text)).
Proof.
  unfold readContent.
  match goal with |- context [readLoop ?l ?i ?a] => pose proof (readLoop_stats l i a) as Hs end.
  simpl in Hs. simpl. lia.
Qed.

Lemma readAllItems_quiet memoryFile w :
  faults w = [] →
  ∃ w',
    readAllItems memoryFile w = (Ok (readContent (logText w memoryFile)), w') ∧
    faults w' = [] ∧
    logText w' memoryFile = logText w memoryFile ∧
    (∀ path, path ≠ memoryFile → files w' !! path = files w !! path).
Proof.
  intros Hq. unfold logText. destruct (files w !! memoryFile) as [f|] eqn:Hf.
  - exists w. rewrite (readAllItems_exists _ _ f) by done. by rewrite Hf.
  - eexists. rewrite readAllItems_missing by done. split; [done|]. split; [done|].
    cbn [files set_files]. rewrite lookup_insert_eq. split; [done|].
    intros path Hpath. by rewrite lookup_insert_ne.
Qed.

(** [getMemoryHealth] on a quiet file system reads the log and leaves
    its text as it is.  The latest view it counts is never longer than
    the valid lines; a log that needs repair is one that should be
    compacted; and a log that should not be compacted has no invalid
    line and fewer bytes than the limit. *)
Theorem getMemoryHealth_reports memoryFile options w :
  faults w = [] →
  ∃ h w',
    getMemoryHealth Number_toString Number_toFixed memoryFile options w = (Ok h, w') ∧
    logText w' memoryFile = logText w memoryFile ∧
    Health.stats h = stats (readContent (logText w memoryFile)) ∧
    Health.latestItems h = length (latestView (logText w memoryFile)) ∧
    (Health.latestItems h ≤ validLines (Health.stats h))%nat ∧
    (Health.needsRepair h = true ↔ (0 < invalidLines (Health.stats h))%nat) ∧
    (Health.needsRepair h = true → Health.shouldCompact h = true) ∧
    (Health.shouldCompact h = false →
     invalidLines (Health.stats h) = 0%nat ∧
     (count (bytes (Health.stats h)) < default 5000000%Q (maxBytes options))%Q).
Proof.
  intros Hq. destruct (readAllItems_quiet memoryFile w Hq) as (w' & Hread & _ & Hlog & _).
  eexists _, w'. split.
  { unfold getMemoryHealth, bind. rewrite Hread. reflexivity. }
  set (all := readContent (logText w memoryFile)).
  cbn [Health.stats Health.latestItems Health.needsRepair Health.shouldCompact].
  split; [done|]. split; [done|]. split; [done|].
  split.
  { pose proof (proj1 (readContent_counts (logText w memoryFile))) as Hvalid.
    fold all in Hvalid. rewrite Hvalid. apply selectLatestItems_length. }
  split; [apply Nat.ltb_lt|].
  split.
  - intros ->. rewrite length_app. simpl. apply Nat.ltb_lt. lia.
  - destruct (0 <? invalidLines (stats all))%nat eqn:Hinvalid.
    { rewrite length_app. simpl. intros Hfalse%Nat.ltb_ge. lia. }
    apply Nat.ltb_ge in Hinvalid.
    destruct (Qle_bool (default 5000000%Q (maxBytes options)) (count (bytes (stats all))))
      eqn:Hbytes.
    { rewrite length_app. simpl. intros Hfalse%Nat.ltb_ge. lia. }
    intros _. split; [lia|].
    apply Qnot_le_lt. intros Hle%Qle_bool_iff. congruence.
Qed.

End HealthFacts.

(** ** repairMemoryFile: what it leaves and what it reports *)

Section RepairFacts.
Context `{Host}.
Import Fs FileLock MemoryStore.

Ltac quiet_step :=
  first
    [ rewrite mkdir_p_quiet by done
    | rewrite access_quiet by done
    | rewrite readFile_quiet by done
    | rewrite writeFile_quiet by done
    | rewrite appendFile_quiet by done
    | rewrite rename_quiet by done
    | rewrite open_wx_quiet by done
    | rewrite unlink_quiet by done
    | progress cbn beta iota
    | progress unfold bind, try_catch, try_finally, ret, throw, Date_now ].

Ltac quiet := repeat quiet_step.

Ltac lookups :=
  repeat first
    [ rewrite lookup_insert_eq
    | rewrite lookup_insert_ne by done
    | rewrite lookup_delete_eq
    | rewrite lookup_delete_ne by done ].

Lemma parseLine_invalid line n errs :
  Js.is_blank line = false → lineItem line = None →
  ∃ message, parseLine line n errs = ({| item := None; error := Some message |}, errs ++ [message])
             ∧ truthy (Some message) = true.
Proof.
  intros Hblank Hnone.
  destruct (parseLine_cases line n errs Hblank) as [[it Hparse]|Hparse]; [|done].
  pose proof (parseLine_item line n errs) as Hitem. rewrite Hparse, Hnone in Hitem. done.
Qed.

Lemma parseLine_valid line n errs it :
  lineItem line = Some it →
  parseLine line n errs = ({| item := Some it; error := None |}, errs).
Proof.
  intros Hsome. assert (Hblank : Js.is_blank line = false).
  { unfold lineItem in Hsome. by destruct (Js.is_blank line). }
  pose proof (parseLine_item line n errs) as Hitem. rewrite Hsome in Hitem.
  destruct (parseLine_cases line n errs Hblank) as [[it' Hparse]|(message & Hparse & _)];
    rewrite Hparse in Hitem; simpl in Hitem; [|done].
  by injection Hitem as ->.
Qed.

(** The loop of [repairMemoryFile] reads what the loop of
    [readAllItems] reads, and sets every invalid line aside. *)
Lemma repairLoop_read lines i sacc racc seen :
  scanItems sacc = items racc → scanErrors sacc = errors racc → scanStats sacc = stats racc →
  List.map raw (scanCorrupt sacc) = seen →
  scanItems (repairLoop lines i sacc) = items (readLoop lines i racc) ∧
  scanErrors (repairLoop lines i sacc) = errors (readLoop lines i racc) ∧
  scanStats (repairLoop lines i sacc) = stats (readLoop lines i racc) ∧
  List.map raw (scanCorrupt (repairLoop lines i sacc)) = seen ++ List.filter invalidLine lines.
Proof.
  revert i sacc racc seen.
  induction lines as [|line lines IH]; intros i sacc racc seen Hi He Hs Hc.
  - simpl. by rewrite app_nil_r.
  - simpl. unfold invalidLine at 1. destruct (Js.is_blank line) eqn:Hblank.
    + simpl. apply IH; simpl; [done|done|by rewrite Hs|done].
    + rewrite He. destruct (lineItem line) as [it|] eqn:Hline.
      * rewrite (parseLine_valid _ _ _ it) by done. simpl.
        rewrite ?bool_decide_eq_true_2 by done. simpl.
        apply IH; simpl; [by rewrite Hi|done|by rewrite Hs|done].
      * destruct (parseLine_invalid line (i + 1) (errors racc) Hblank Hline)
          as (message & -> & Htruthy).
        cbn [item error]. unfold truthy in *. rewrite !Htruthy.
        rewrite ?bool_decide_eq_false_2 by (by intros [? ?]). simpl.
        replace (seen ++ line :: List.filter invalidLine lines)
          with ((seen ++ [line]) ++ List.filter invalidLine lines)
          by (by rewrite <- app_assoc).
        apply IH; simpl; [done|done|by rewrite Hs|].
        rewrite map_app. simpl. by rewrite Hc.
Qed.

Lemma scanContent_read text :
  scanItems (scanContent text) = items (readContent text) ∧
  scanErrors (scanContent text) = errors (readContent text) ∧
  scanStats (scanContent text) = stats (readContent text) ∧
  List.map raw (scanCorrupt (scanContent text)) = List.filter invalidLine (Js.split_lines text).
Proof. unfold scanContent, readContent. by apply (repairLoop_read _ _ _ _ []). Qed.

(** The invalid lines the statistics count are the lines that are
    neither blank nor a record. *)
Lemma readLoop_invalid lines i acc :
  invalidLines (stats (readLoop lines i acc))
  = (invalidLines (stats acc) + length (List.filter invalidLine lines))%nat.
Proof.
  revert i acc. induction lines as [|line lines IH]; intros i acc; simpl; [lia|].
  unfold invalidLine at 1. destruct (Js.is_blank line) eqn:Hblank; simpl.
  - by rewrite IH.
  - destruct (lineItem line) as [it|] eqn:Hline.
    + rewrite (parseLine_valid _ _ _ it) by done. simpl.
      rewrite ?bool_decide_eq_true_2 by done. simpl. by rewrite IH.
    + destruct (parseLine_invalid line (i + 1) (errors acc) Hblank Hline)
        as (message & -> & Htruthy).
      cbn [item error]. unfold truthy in *. rewrite !Htruthy.
      rewrite ?bool_decide_eq_false_2 by (by intros [? ?]). simpl.
      rewrite IH. simpl. lia.
Qed.

Lemma readContent_invalid text :
  invalidLines (stats (readContent text)) = length (List.filter invalidLine (Js.split_lines text)).
Proof. unfold readContent. by rewrite readLoop_invalid. Qed.

Lemma selectLatestItems_In log x : In x (selectLatestItems log) → In x log.
Proof.
  rewrite selectLatestItems_fold. intros [[k x'] [<- Hx]]%in_map_iff.
  destruct (latest_inv_fold log) as (_ & _ & Hwin).
  destruct (Hwin _ _ Hx) as [_ (before & after & -> & _)].
  apply in_or_app. right. by left.
Qed.

(** [repairMemoryFile] on a quiet file system with the lock free: what
    it returns and what it leaves in the log and under the quarantine
    path. *)
Lemma repairMemoryFile_quiet fuel memoryFile options w f :
  faults w = [] →
  files w !! lockPathOf memoryFile = None →
  files w !! memoryFile = Some f →
  let scan := scanContent (data f) in
  let repaired := (0 <? invalidLines (scanStats scan))%nat in
  let compacted := default false (compact options) && (0 <? length (scanItems scan))%nat in
  let quarantined := default true (quarantine options) && (0 <? length (scanCorrupt scan))%nat in
  let corruptFile := memoryFile +:+ ".corrupt." +:+ pretty (clock w) +:+ ".jsonl" in
  ∃ w',
    repairMemoryFile (S fuel) memoryFile options w
    = (Ok {| Repair.repaired := repaired;
             Repair.compacted := compacted;
             Repair.errors := scanErrors scan;
             Repair.stats := scanStats scan;
             Repair.quarantinedFile := if quarantined then Some corruptFile else None;
             Repair.quarantinedLines := length (scanCorrupt scan) |}, w') ∧
    files w' !! memoryFile
    = Some (if repaired || compacted
            then {| data := serialize (if compacted then selectLatestItems (scanItems scan)
                                       else scanItems scan);
                    mtimeMs := clock w |}
            else f) ∧
    files w' !! corruptFile
    = (if quarantined
       then Some {| data := quarantinePayload (scanCorrupt scan); mtimeMs := clock w |}
       else files w !! corruptFile).
Proof.
  intros Hq Hfree Hf scan repaired compacted quarantined corruptFile.
  set (lockPath := lockPathOf memoryFile) in *.
  set (tempFile := memoryFile +:+ ".tmp").
  set (backupFile := memoryFile +:+ ".bak." +:+ pretty (clock w)).
  assert (Hml : lockPath ≠ memoryFile) by apply lockPath_neq.
  assert (Hmt : tempFile ≠ memoryFile) by by apply append_neq.
  assert (Hmb : backupFile ≠ memoryFile) by by apply append_neq.
  assert (Hmc : corruptFile ≠ memoryFile) by by apply append_neq.
  assert (Hbl : backupFile ≠ lockPath) by (intros Heq%append_inj; discriminate).
  assert (Hbt : backupFile ≠ tempFile) by (intros Heq%append_inj; discriminate).
  assert (Hbc : backupFile ≠ corruptFile) by (intros Heq%append_inj; discriminate).
  assert (Htc : tempFile ≠ corruptFile) by (intros Heq%append_inj; discriminate).
  assert (Hlc : lockPath ≠ corruptFile) by (intros Heq%append_inj; discriminate).
  assert (Hlocked : files (locked memoryFile w) !! memoryFile = Some f).
  { unfold locked. cbn [files set_files]. by lookups. }
  assert (Hcorrupt : files (locked memoryFile w) !! corruptFile = files w !! corruptFile).
  { unfold locked. cbn [files set_files]. by lookups. }
  set (shouldWrite := repaired || compacted).
  destruct quarantined eqn:Hquarantine, shouldWrite eqn:Hwrite.
  all: eexists; split;
    [ unfold repairMemoryFile; apply withFileLock_free; [done|done|..];
      [ quiet; rewrite (ensureFile_exists _ _ f) by done; quiet; rewrite Hlocked; quiet;
        fold scan; fold repaired compacted; fold quarantined shouldWrite;
        rewrite Hquarantine, Hwrite; quiet; cbn [files set_files clock]; lookups;
        rewrite ?Hlocked; quiet; cbn [files set_files clock]; lookups; quiet;
        reflexivity
      | done ]
    | cbn [files set_files clock locked];
      fold lockPath tempFile backupFile corruptFile; unfold quarantinePayload;
      split; by lookups ].
Qed.

Lemma readContent_serialize_clean its :
  Forall readsBack its →
  invalidLines (stats (readContent (serialize its))) = 0%nat ∧
  errors (readContent (serialize its)) = [].
Proof.
  intros Hback.
  assert (Hinvalid : invalidLines (stats (readContent (serialize its))) = 0%nat).
  { rewrite readContent_invalid. unfold serialize.
    destruct its as [|it its]; [done|].
    rewrite split_lines_join; [| |done].
    - remember (it :: its) as l eqn:Hl. clear Hl.
      assert (Hlast : List.filter invalidLine [""] = []) by done.
      rewrite List.filter_app, Hlast, app_nil_r.
      rewrite filter_none; [done|]. apply Forall_forall. intros line Hline.
      apply list_elem_of_In, in_map_iff in Hline as (x & <- & Hx).
      rewrite Forall_forall in Hback. destruct (Hback x) as [_ Hsome].
      { by apply list_elem_of_In. }
      unfold invalidLine. rewrite Hsome.
      rewrite bool_decide_eq_true_2 by done. by rewrite andb_false_r.
    - clear -Hback. induction Hback as [|x l [Hx _] _ IH]; constructor; done. }
  split; [done|].
  pose proof (proj2 (readContent_counts (serialize its))) as Hlen.
  rewrite Hinvalid in Hlen. by destruct (errors (readContent (serialize its))).
Qed.

(** [repairMemoryFile] leaves a log that reads without an invalid line.
    On a quiet file system with the lock free, when every valid record
    of the log reads back from its line: after the repair the log has
    no invalid line and no diagnostic, it holds the valid records it
    held, or their latest view when the repair compacted, and its
    latest view is what it was. *)
Theorem repairMemoryFile_heals fuel memoryFile options w f :
  faults w = [] →
  files w !! lockPathOf memoryFile = None →
  files w !! memoryFile = Some f →
  Forall readsBack (items (readContent (data f))) →
  ∃ result w',
    repairMemoryFile (S fuel) memoryFile options w = (Ok result, w') ∧
    invalidLines (stats (readContent (logText w' memoryFile))) = 0%nat ∧
    errors (readContent (logText w' memoryFile)) = [] ∧
    items (readContent (logText w' memoryFile))
    = (if Repair.compacted result then latestView (data f)
       else items (readContent (data f))) ∧
    latestView (logText w' memoryFile) = latestView (data f).
Proof.
  intros Hq Hfree Hf Hback.
  destruct (repairMemoryFile_quiet fuel memoryFile options w f Hq Hfree Hf)
    as (w' & Hrun & Hlog & _).
  destruct (scanContent_read (data f)) as (Hitems & Herrors & Hstats & _).
  rewrite Hitems, Hstats in *.
  eexists _, w'. split; [exact Hrun|]. cbn [Repair.compacted].
  unfold logText. rewrite Hlog. clear Hrun Hlog.
  set (compacted :=
         default false (compact options) && (0 <? length (items (readContent (data f))))%nat).
  assert (Hlatest : Forall readsBack (selectLatestItems (items (readContent (data f))))).
  { apply Forall_forall. intros x Hx%list_elem_of_In%selectLatestItems_In.
    rewrite Forall_forall in Hback. by apply Hback, list_elem_of_In. }
  destruct (0 <? invalidLines (stats (readContent (data f))))%nat eqn:Hrepaired;
    destruct compacted eqn:Hcompacted; cbn [orb data]; unfold latestView.
  - destruct (readContent_serialize_clean _ Hlatest) as [-> ->].
    rewrite readContent_serialize by done. by rewrite selectLatestItems_idem.
  - destruct (readContent_serialize_clean _ Hback) as [-> ->].
    by rewrite readContent_serialize by done.
  - destruct (readContent_serialize_clean _ Hlatest) as [-> ->].
    rewrite readContent_serialize by done. by rewrite selectLatestItems_idem.
  - apply Nat.ltb_ge in Hrepaired.
    assert (Hnone : invalidLines (stats (readContent (data f))) = 0%nat) by lia.
    pose proof (proj2 (readContent_counts (data f))) as Hlen. rewrite Hnone in Hlen.
    by destruct (errors (readContent (data f))).
Qed.

(** What [repairMemoryFile] reports.  The statistics and the
    diagnostics are those of [readAllItems]; [repaired] says that a
    line was invalid; [quarantinedLines] counts the invalid lines
    whether or not they were written out.  With the quarantine not
    switched off and a line invalid, the quarantine file is written
    with one entry per invalid line, in the order of the lines, each
    with the raw text of its line; otherwise no quarantine file is
    named and the path is left as it was. *)
Theorem repairMemoryFile_reports fuel memoryFile options w f :
  faults w = [] →
  files w !! lockPathOf memoryFile = None →
  files w !! memoryFile = Some f →
  let corruptFile := memoryFile +:+ ".corrupt." +:+ pretty (clock w) +:+ ".jsonl" in
  ∃ result w',
    repairMemoryFile (S fuel) memoryFile options w = (Ok result, w') ∧
    Repair.stats result = stats (readContent (data f)) ∧
    Repair.errors result = errors (readContent (data f)) ∧
    (Repair.repaired result = true ↔ (0 < invalidLines (Repair.stats result))%nat) ∧
    Repair.quarantinedLines result = invalidLines (Repair.stats result) ∧
    (if default true (quarantine options) && (0 <? invalidLines (Repair.stats result))%nat
     then
       ∃ corrupt,
         Repair.quarantinedFile result = Some corruptFile ∧
         files w' !! corruptFile
         = Some {| data := quarantinePayload corrupt; mtimeMs := clock w |} ∧
         List.map raw corrupt = List.filter invalidLine (Js.split_lines (data f))
     else
       Repair.quarantinedFile result = None ∧
       files w' !! corruptFile = files w !! corruptFile).
Proof.
  intros Hq Hfree Hf corruptFile.
  destruct (repairMemoryFile_quiet fuel memoryFile options w f Hq Hfree Hf)
    as (w' & Hrun & _ & Hquarantine).
  destruct (scanContent_read (data f)) as (Hitems & Herrors & Hstats & Hraw).
  assert (Hcount : length (scanCorrupt (scanContent (data f)))
                   = invalidLines (stats (readContent (data f)))).
  { by rewrite readContent_invalid, <- Hraw, length_map. }
  eexists _, w'. split; [exact Hrun|].
  cbn [Repair.stats Repair.errors Repair.repaired Repair.quarantinedLines
       Repair.quarantinedFile].
  rewrite Hstats, Herrors, !Hcount. split; [done|]. split; [done|].
  split; [apply Nat.ltb_lt|]. split; [done|].
  fold corruptFile in Hquarantine |- *. rewrite Hcount in Hquarantine.
  destruct (default true (quarantine options)
            && (0 <? invalidLines (stats (readContent (data f))))%nat).
  - by exists (scanCorrupt (scanContent (data f))).
  - done.
Qed.

End RepairFacts.

(** ** file-lock.ts: taking the lock, releasing it, giving up *)

Section LockRuns.
Context `{Host} {T : Type}.
Import Fs FileLock.
Variables (filePath : string) (operation : M T) (options : FileLockOptions).

Let lockPath := lockPathOf filePath.
Let timeout := default DEFAULT_TIMEOUT_MS (timeoutMs options).
Let retryDelay := default DEFAULT_RETRY_DELAY_MS (retryDelayMs options).
Let stale := default DEFAULT_STALE_MS (staleMs options).

Ltac quiet_step :=
  first
    [ rewrite mkdir_p_quiet by done
    | rewrite access_quiet by done
    | rewrite readFile_quiet by done
    | rewrite writeFile_quiet by done
    | rewrite appendFile_quiet by done
    | rewrite rename_quiet by done
    | rewrite open_wx_quiet by done
    | rewrite unlink_quiet by done
    | progress cbn beta iota
    | progress unfold bind, try_catch, try_finally, ret, throw, Date_now ].

Ltac quiet := repeat quiet_step.

(** One pass against a marker that is there. *)
Lemma withFileLock_contention_passes start w marker fuel :
  fault_of w OpOpen lockPath = None → files w !! lockPath = Some marker →
  (timeout < clock w - start →
   lockLoop filePath operation options (S fuel) start w =
     (Throw (Error (timeoutMessage lockPath)), w)) ∧
  (clock w - start ≤ timeout → fault_of w OpStat lockPath = None →
   stale < clock w - mtimeMs marker → fault_of w OpUnlink lockPath = None →
   lockLoop filePath operation options (S fuel) start w =
     lockLoop filePath operation options fuel start (set_files (delete lockPath) w)) ∧
  (clock w - start ≤ timeout → fault_of w OpStat lockPath = None →
   clock w - mtimeMs marker ≤ stale →
   lockLoop filePath operation options (S fuel) start w =
     lockLoop filePath operation options fuel start
       (set_clock (fun t => t + Z.max 0 retryDelay) w)).
Proof.
  intros Hopen Hmarker.
  pose proof (pass_open_failed filePath operation options start w _
                (open_wx_exists filePath w marker Hopen Hmarker)) as Hpass.
  rewrite bool_decide_eq_false_2 in Hpass by (simpl; auto).
  unfold bind at 1, Date_now in Hpass.
  split; [|split].
  - intros Hlate. simpl. unfold bind at 1. rewrite Hpass.
    destruct (Z.ltb_spec (default DEFAULT_TIMEOUT_MS (timeoutMs options)) (clock w - start));
      [done|unfold timeout in Hlate; lia].
  - intros Hearly Hstat Hold Hunlink. simpl. unfold bind at 1. rewrite Hpass.
    destruct (Z.ltb_spec (default DEFAULT_TIMEOUT_MS (timeoutMs options)) (clock w - start));
      [unfold timeout in Hearly; lia|].
    unfold bind at 1. rewrite (isLockStale_exists filePath options w marker) by done.
    destruct (Z.ltb_spec (default DEFAULT_STALE_MS (staleMs options)) (clock w - mtimeMs marker));
      [|unfold stale in Hold; lia].
    unfold bind at 1, unlink_tolerant, try_catch, unlink.
    rewrite guarded_pass by done. fold lockPath. by rewrite Hmarker.
  - intros Hearly Hstat Hyoung. simpl. unfold bind at 1. rewrite Hpass.
    destruct (Z.ltb_spec (default DEFAULT_TIMEOUT_MS (timeoutMs options)) (clock w - start));
      [unfold timeout in Hearly; lia|].
    unfold bind at 1. rewrite (isLockStale_exists filePath options w marker) by done.
    destruct (Z.ltb_spec (default DEFAULT_STALE_MS (staleMs options)) (clock w - mtimeMs marker));
      [unfold stale in Hyoung; lia|].
    done.
Qed.

Lemma delete_marker (w1 : World) :
  files w1 !! lockPath = None → set_files (delete lockPath) w1 = w1.
Proof. intros Hm. destruct w1 as [fs c q]. unfold set_files. simpl in *. by rewrite delete_id. Qed.

(** A pass that takes the lock and runs the operation to a thrown
    error: the marker is removed, then the [catch] of the loop sees the
    error. *)
Lemma pass_operation_throws start w e w1 :
  faults w = [] →
  files w !! lockPath = None →
  operation (locked filePath w) = (Throw e, w1) →
  faults w1 = [] →
  pass filePath operation options start w =
    (if bool_decide (error_code e ≠ Some "EEXIST") then throw e
     else
       let* now := Date_now in
       if timeout <? now - start then throw (Error (timeoutMessage lockPath))
       else
         let* is_stale := isLockStale lockPath stale in
         if is_stale then
           let* _ := unlink_tolerant lockPath in
           ret Continue
         else
           let* _ := delay retryDelay in
           ret Continue) (set_files (delete lockPath) w1).
Proof.
  intros Hq Hfree Hop Hq1. unfold pass, lockMetadata. fold lockPath.
  unfold try_catch at 1. unfold bind at 1. rewrite open_wx_quiet by done. rewrite Hfree.
  quiet. change (operation _) with (operation (locked filePath w)). rewrite Hop.
  unfold unlink_tolerant. quiet.
  destruct (files w1 !! lockPath) eqn:Hm; simpl.
  - reflexivity.
  - by rewrite delete_marker.
Qed.

(** The marker does not outlive the operation.  With the lock free on
    a quiet file system, [withFileLock] runs the operation in the locked
    world and hands on what it returned, or the error it threw when
    that is not an [EEXIST]; the marker is gone in both cases. *)
Theorem withFileLock_releases fuel w (r : Result T) w1 :
  faults w = [] →
  files w !! lockPath = None →
  operation (locked filePath w) = (r, w1) →
  faults w1 = [] →
  match r with
  | Ok _ => True
  | Throw e => error_code e ≠ Some "EEXIST"
  | OutOfFuel => False
  end →
  withFileLock filePath operation options (S fuel) w = (r, set_files (delete lockPath) w1) ∧
  files (set_files (delete lockPath) w1) !! lockPath = None.
Proof.
  intros Hq Hfree Hop Hq1 Hr. split; [|cbn [files set_files]; by rewrite lookup_delete_eq].
  destruct r as [t|e|]; [|
  |done].
  - by apply withFileLock_free.
  - unfold withFileLock. quiet. simpl lockLoop. unfold bind at 1.
    rewrite (pass_operation_throws _ _ e w1) by done.
    by rewrite bool_decide_eq_true_2.
Qed.

Lemma lockLoop_free fuel start w t w1 :
  faults w = [] →
  files w !! lockPath = None →
  operation (locked filePath w) = (Ok t, w1) →
  faults w1 = [] →
  lockLoop filePath operation options (S fuel) start w
  = (Ok t, set_files (delete lockPath) w1).
Proof.
  intros Hq Hfree Hop Hq1. simpl lockLoop. unfold pass, lockMetadata. fold lockPath. quiet.
  rewrite Hfree. quiet.
  change (operation _) with (operation (locked filePath w)). rewrite Hop.
  unfold unlink_tolerant. quiet.
  destruct (files w1 !! lockPath) eqn:Hm; simpl; [done|]. by rewrite delete_marker.
Qed.

Lemma isLockStale_missing w :
  faults w = [] → files w !! lockPath = None → isLockStale lockPath stale w = (Ok false, w).
Proof.
  intros Hq Hm. unfold isLockStale, try_catch, bind, stat.
  rewrite guarded_pass by by apply fault_of_none. by rewrite Hm.
Qed.

(** An [EEXIST] thrown by the operation is taken for contention.  The
    marker is removed, the caller waits the retry delay and the
    operation is run a second time; what it returns then is what the
    caller gets. *)
Theorem withFileLock_reruns_operation fuel w e w1 t w2 :
  faults w = [] →
  files w !! lockPath = None →
  operation (locked filePath w) = (Throw e, w1) →
  faults w1 = [] →
  error_code e = Some "EEXIST" →
  clock w1 - clock w ≤ timeout →
  operation
    (locked filePath
       (set_clock (fun now => now + Z.max 0 retryDelay) (set_files (delete lockPath) w1)))
  = (Ok t, w2) →
  faults w2 = [] →
  withFileLock filePath operation options (S (S fuel)) w
  = (Ok t, set_files (delete lockPath) w2).
Proof.
  intros Hq Hfree Hop Hq1 Hcode Hearly Hop2 Hq2.
  unfold withFileLock. quiet.
  change (lockLoop filePath operation options (S (S fuel)) (clock w) w)
    with ((let* p := pass filePath operation options (clock w) in
           match p with
           | Return t => ret t
           | Continue => lockLoop filePath operation options (S fuel) (clock w)
           end) w).
  unfold bind at 1. rewrite (pass_operation_throws _ _ e w1) by done.
  rewrite bool_decide_eq_false_2 by (rewrite Hcode; by intros Hne).
  unfold bind at 1, Date_now. cbn [clock set_files].
  destruct (Z.ltb_spec timeout (clock w1 - clock w)); [lia|].
  unfold bind at 1. rewrite isLockStale_missing;
    [|done|cbn [files set_files]; by rewrite lookup_delete_eq].
  unfold bind at 1, delay, ret.
  apply lockLoop_free; [done| |done|done].
  cbn [files set_files set_clock]. by rewrite lookup_delete_eq.
Qed.

(** A stale marker is broken.  When the marker is older than the
    staleness threshold, the first pass removes it and the second
    takes the lock and runs the operation. *)
Theorem withFileLock_breaks_stale fuel w marker t w1 :
  faults w = [] →
  files w !! lockPath = Some marker →
  stale < clock w - mtimeMs marker →
  0 ≤ timeout →
  operation (locked filePath (set_files (delete lockPath) w)) = (Ok t, w1) →
  faults w1 = [] →
  withFileLock filePath operation options (S (S fuel)) w
  = (Ok t, set_files (delete lockPath) w1).
Proof.
  intros Hq Hmarker Hold Htimeout Hop Hq1.
  unfold withFileLock. quiet.
  change (lockLoop filePath operation options (S (S fuel)) (clock w) w)
    with ((let* p := pass filePath operation options (clock w) in
           match p with
           | Return t => ret t
           | Continue => lockLoop filePath operation options (S fuel) (clock w)
           end) w).
  unfold bind at 1.
  rewrite (pass_open_failed filePath operation options (clock w) w
             (ErrnoException "EEXIST" OpOpen lockPath))
    by (apply (open_wx_exists filePath w marker); [by apply fault_of_none|done]).
  rewrite bool_decide_eq_false_2 by (simpl; by intros Hne).
  unfold bind at 1, Date_now.
  replace (clock w - clock w) with 0 by lia.
  destruct (Z.ltb_spec (default DEFAULT_TIMEOUT_MS (timeoutMs options)) 0) as [Hlate|_];
    [unfold timeout in Htimeout; lia|].
  unfold bind at 1.
  rewrite (isLockStale_exists filePath options w marker) by (by apply fault_of_none || done).
  fold stale. destruct (Z.ltb_spec stale (clock w - mtimeMs marker)); [|lia].
  unfold bind at 1, unlink_tolerant, try_catch. rewrite unlink_quiet by done.
  fold lockPath. rewrite Hmarker. unfold ret.
  apply lockLoop_free; [done| |done|done].
  cbn [files set_files]. by rewrite lookup_delete_eq.
Qed.

Lemma set_clock_zero (w : World) : set_clock (fun now => now + 0) w = w.
Proof. destruct w as [fs c q]. unfold set_clock. simpl. by rewrite Z.add_0_r. Qed.

Lemma set_clock_twice (w : World) a b :
  set_clock (fun now => now + b) (set_clock (fun now => now + a) w)
  = set_clock (fun now => now + (a + b)) w.
Proof. destruct w as [fs c q]. unfold set_clock. simpl. by rewrite Z.add_assoc. Qed.

(** The passes of the loop against a marker that stays and stays
    fresh: each waits the retry delay, until the time-out is passed. *)
Lemma lockLoop_times_out start marker (n : nat) :
  0 < retryDelay →
  start + timeout - mtimeMs marker ≤ stale →
  ∀ fuel w,
    faults w = [] →
    files w !! lockPath = Some marker →
    timeout - (clock w - start) < Z.of_nat n * retryDelay →
    (n < fuel)%nat →
    ∃ waited,
      lockLoop filePath operation options fuel start w
      = (Throw (Error (timeoutMessage lockPath)), set_clock (fun now => now + waited) w) ∧
      (timeout < clock w - start → waited = 0) ∧
      (clock w - start ≤ timeout →
       timeout < clock w + waited - start ≤ timeout + retryDelay).
Proof.
  intros Hdelay Hfresh. induction n as [|n IH]; intros fuel w Hq Hmarker Hleft Hfuel.
  - destruct fuel as [|fuel]; [lia|]. exists 0. rewrite set_clock_zero.
    split; [|split; [done|lia]].
    destruct (withFileLock_contention_passes start w marker fuel) as (Hlate & _);
      [by apply fault_of_none|done|]. apply Hlate. lia.
  - destruct fuel as [|fuel]; [lia|].
    destruct (withFileLock_contention_passes start w marker fuel) as (Hlate & _ & Hwait);
      [by apply fault_of_none|done|].
    destruct (Z.lt_ge_cases timeout (clock w - start)) as [Hover|Hearly].
    + exists 0. rewrite set_clock_zero. split; [by apply Hlate|]. split; [done|lia].
    + rewrite Hwait; [|done|by apply fault_of_none|lia].
      destruct (IH fuel (set_clock (fun now => now + Z.max 0 retryDelay) w))
        as (waited & Hloop & Hzero & Hbound); [done|done| |lia|].
      { cbn [clock set_clock]. lia. }
      exists (Z.max 0 retryDelay + waited). rewrite Hloop, set_clock_twice.
      split; [done|]. split; [lia|]. intros _. cbn [clock set_clock] in Hbound, Hzero.
      destruct (Z.le_gt_cases (clock w + Z.max 0 retryDelay - start) timeout) as [Hin|Hout].
      * specialize (Hbound Hin). lia.
      * rewrite Hzero by lia. lia.
Qed.

(** A marker that stays and stays fresh makes the caller give up.
    With a positive retry delay [withFileLock] waits, one delay after
    the other, until more than the time-out has passed, and then throws
    the time-out error; the operation is never run and no file is
    touched.  Time is the clock of the file system model, which moves
    only while the caller sleeps; the passes this takes are bounded by
    the time-out over the delay. *)
Theorem withFileLock_times_out fuel w marker :
  faults w = [] →
  files w !! lockPath = Some marker →
  0 < retryDelay →
  0 ≤ timeout →
  clock w + timeout - mtimeMs marker ≤ stale →
  (Z.to_nat (timeout / retryDelay) + 1 < fuel)%nat →
  ∃ waited,
    withFileLock filePath operation options fuel w
    = (Throw (Error ("Timed out waiting for lock: " +:+ lockPath)),
       set_clock (fun now => now + waited) w) ∧
    timeout < waited ≤ timeout + retryDelay.
Proof.
  intros Hq Hmarker Hdelay Htimeout Hfresh Hfuel.
  destruct (lockLoop_times_out (clock w) marker (Z.to_nat (timeout / retryDelay) + 1)
              Hdelay Hfresh fuel w Hq Hmarker) as (waited & Hloop & _ & Hbound); [|done|].
  { rewrite Nat2Z.inj_add, Z2Nat.id by (apply Z.div_pos; lia).
    pose proof (Z.mul_succ_div_gt timeout retryDelay Hdelay). lia. }
  exists waited. split; [|lia].
  unfold withFileLock, bind, Date_now. rewrite mkdir_p_quiet by done. exact Hloop.
Qed.

End LockRuns.

(** ** retriever.ts: bounds of the score *)

Section RetrieverFacts.
Context `{Host}.
Import Retriever Double.

Lemma fraction_unit matches total :
  (matches ≤ total)%nat → (0 < total)%nat → (0 <= fraction matches total <= 1)%Q.
Proof.
  intros Hle Hpos. unfold fraction, div.
  assert (Htotal : (0 < inject_Z (Z.of_nat total))%Q).
  { rewrite <- (Zlt_Qlt 0). lia. }
  assert (Hmatches : (0 <= inject_Z (Z.of_nat matches))%Q).
  { rewrite <- (Zle_Qle 0). lia. }
  assert (Hbound : (inject_Z (Z.of_nat matches) <= inject_Z (Z.of_nat total))%Q).
  { rewrite <- Zle_Qle. lia. }
  split.
  - apply round_nonneg. apply Qle_shift_div_l; [done|]. lra.
  - rewrite <- round_1. apply round_mono. apply Qle_shift_div_r; [done|]. lra.
Qed.

Lemma filter_length_le {A} (p : A → bool) l : (length (List.filter p l) ≤ length l)%nat.
Proof. induction l as [|x l IH]; simpl; [done|]. destruct (p x); simpl; lia. Qed.

(** The signals of a score other than the decay lie between 0 and 1. *)
Lemma signals_bounds (item : MemoryItem) (query : SearchQuery) :
  (0 <= scopeScore item query <= 1)%Q ∧
  (0 <= tagScore item (queryTags query) <= 1)%Q ∧
  (0 <= textScore item (queryTokens query) <= 1)%Q.
Proof.
  split; [|split].
  - unfold scopeScore. destruct (given (Query.scope query)) as [s|]; [|lra].
    destruct (String.eqb (scope item) s); lra.
  - unfold tagScore. destruct (length (queryTags query)) eqn:Hlen; simpl; [lra|].
    rewrite <- Hlen. apply fraction_unit; [apply filter_length_le|lia].
  - unfold textScore. destruct (length (queryTokens query)) eqn:Hlen; simpl; [lra|].
    rewrite <- Hlen. apply fraction_unit; [apply filter_length_le|lia].
Qed.

(** The product of a weight that is not negative and a signal between
    0 and 1 lies between 0 and the product with the signal 1. *)
Lemma mul_unit w x :
  (0 <= w)%Q → (0 <= x <= 1)%Q → (0 <= mul w x <= mul w 1)%Q.
Proof.
  intros Hw [Hx0 Hx1]. split; [apply round_nonneg; nra|by apply mul_mono].
Qed.

Lemma finite_between q top :
  (0 <= q <= top)%Q → finite top → finite q.
Proof.
  unfold finite. intros [Hq0 Hq1] Htop.
  rewrite Qabs_pos in Htop by lra. rewrite Qabs_pos by done.
  by apply Qle_lt_trans with top.
Qed.

(** A score and the sum of the weights, both as the doubles the
    expression of [scoreItem] computes.  When no weight is negative,
    the importance of the record lies between 0 and 1 and so does its
    decay, the score lies between 0 and the score of the signals 1, the
    five weights added in the order of the expression; and when that
    sum is in the range of doubles, so is every product and partial sum
    of the score. *)
Theorem scoreItem_bounded clock (item : MemoryItem) (query : SearchQuery)
    (config : ScoringConfig) :
  (0 <= Scoring.scope config)%Q → (0 <= Scoring.tag config)%Q →
  (0 <= Scoring.recency config)%Q → (0 <= Scoring.importance config)%Q →
  (0 <= Scoring.text config)%Q →
  (0 <= importance item <= 1)%Q →
  (0 <= recencyScore item (Scoring.halfLifeDays config) (default clock (Query.now query)) <= 1)%Q →
  (0 <= scoreItem clock item query config <= fullScore config)%Q ∧
  (finite (fullScore config) → Forall finite (scoreSteps clock query config item)).
Proof.
  intros Hs Ht Hr Hi Hx Himp Hrec.
  destruct (signals_bounds item query) as (Hscope & Htag & Htext).
  pose proof (mul_unit _ _ Hs Hscope) as [Hp1 Hq1].
  pose proof (mul_unit _ _ Ht Htag) as [Hp2 Hq2].
  pose proof (mul_unit _ _ Hr Hrec) as [Hp3 Hq3].
  pose proof (mul_unit _ _ Hi Himp) as [Hp4 Hq4].
  pose proof (mul_unit _ _ Hx Htext) as [Hp5 Hq5].
  unfold scoreItem, fullScore, scoreSteps. cbv zeta.
  set (p1 := mul (Scoring.scope config) (scopeScore item query)) in *.
  set (p2 := mul (Scoring.tag config) (tagScore item (queryTags query))) in *.
  set (p3 := mul (Scoring.recency config) (recencyScore _ _ _)) in *.
  set (p4 := mul (Scoring.importance config) (importance item)) in *.
  set (p5 := mul (Scoring.text config) (textScore item (queryTokens query))) in *.
  set (q1 := mul (Scoring.scope config) 1) in *.
  set (q2 := mul (Scoring.tag config) 1) in *.
  set (q3 := mul (Scoring.recency config) 1) in *.
  set (q4 := mul (Scoring.importance config) 1) in *.
  set (q5 := mul (Scoring.text config) 1) in *.
  assert (Hs2 : (0 <= add p1 p2 <= add q1 q2)%Q).
  { split; [apply round_nonneg; lra|by apply add_mono]. }
  assert (Hs3 : (0 <= add (add p1 p2) p3 <= add (add q1 q2) q3)%Q).
  { split; [apply round_nonneg; lra|apply add_mono; [apply Hs2|done]]. }
  assert (Hs4 : (0 <= add (add (add p1 p2) p3) p4 <= add (add (add q1 q2) q3) q4)%Q).
  { split; [apply round_nonneg; lra|apply add_mono; [apply Hs3|done]]. }
  assert (Hs5 : (0 <= add (add (add (add p1 p2) p3) p4) p5
                 <= add (add (add (add q1 q2) q3) q4) q5)%Q).
  { split; [apply round_nonneg; lra|apply add_mono; [apply Hs4|done]]. }
  split; [exact Hs5|]. intros Htop.
  assert (Hq1' : (0 <= q1)%Q) by lra. assert (Hq2' : (0 <= q2)%Q) by lra.
  assert (Hq3' : (0 <= q3)%Q) by lra. assert (Hq4' : (0 <= q4)%Q) by lra.
  assert (Hq5' : (0 <= q5)%Q) by lra.
  assert (Ht2a : (q1 <= add q1 q2)%Q) by (apply add_increasing_l; [apply round_idem|done]).
  assert (Ht2b : (q2 <= add q1 q2)%Q) by (apply add_increasing_r; [apply round_idem|done]).
  assert (Ht3a : (add q1 q2 <= add (add q1 q2) q3)%Q)
    by (apply add_increasing_l; [apply round_idem|done]).
  assert (Ht3b : (q3 <= add (add q1 q2) q3)%Q)
    by (apply add_increasing_r; [apply round_idem|lra]).
  assert (Ht4a : (add (add q1 q2) q3 <= add (add (add q1 q2) q3) q4)%Q)
    by (apply add_increasing_l; [apply round_idem|done]).
  assert (Ht4b : (q4 <= add (add (add q1 q2) q3) q4)%Q)
    by (apply add_increasing_r; [apply round_idem|lra]).
  assert (Ht5a : (add (add (add q1 q2) q3) q4 <= add (add (add (add q1 q2) q3) q4) q5)%Q)
    by (apply add_increasing_l; [apply round_idem|done]).
  assert (Ht5b : (q5 <= add (add (add (add q1 q2) q3) q4) q5)%Q)
    by (apply add_increasing_r; [apply round_idem|lra]).
  repeat apply Forall_cons_2; [..|apply Forall_nil_2];
    (eapply finite_between; [|exact Htop]); split; lra.
Qed.

End RetrieverFacts.

(** ** retriever.ts: tokens *)

Section TokenFacts.
Import Retriever.

(** The pieces of a split at white space are made of the characters
    given that are not white space. *)
Lemma split_ws_aux_chars (P : ascii → Prop) l :
  Forall (fun c => Js.is_whitespace c = false → P c) l →
  ∀ cur gap,
    Forall P cur →
    Forall (fun piece => Forall P (Js.chars piece)) (Js.split_ws_aux cur gap l).
Proof.
  induction 1 as [|c l Hc Hl IH]; intros cur gap Hcur; simpl.
  - constructor; [|constructor]. rewrite chars_str. by apply Forall_rev.
  - destruct (Js.is_whitespace c) eqn:Hws.
    + destruct gap; [by apply IH|].
      constructor; [|by apply IH]. rewrite chars_str. by apply Forall_rev.
    + apply IH. constructor; [by apply Hc|done].
Qed.

Lemma trim_chars_plain l :
  Forall (fun c => Js.is_whitespace c = false) l → Js.trim_chars l = l.
Proof.
  intros Hplain. apply trim_chars_fixed.
  - apply trimStart_fixed. by destruct Hplain.
  - apply trimStart_fixed. apply Forall_rev in Hplain. by destruct Hplain.
Qed.

(** The tokens of a text are not empty, hold no white space and are in
    lower case, and the case of the text does not show in them. *)
Theorem tokenize_tokens (text : string) :
  Forall
    (fun token =>
       token ≠ "" ∧
       Forall (fun c => Js.is_whitespace c = false) (Js.chars token) ∧
       Js.toLowerCase token = token)
    (tokenize text) ∧
  tokenize (Js.toLowerCase text) = tokenize text.
Proof.
  split; [|unfold tokenize; by rewrite toLowerCase_idem].
  unfold tokenize.
  pose proof (split_ws_aux_chars
                (fun c => Js.is_whitespace c = false ∧ Js.lower_char c = c)
                (Js.chars (Js.toLowerCase text))) as Hpieces.
  specialize (Hpieces
    ltac:(unfold Js.toLowerCase; rewrite chars_str; apply Forall_forall;
          intros c [c0 [<- _]]%list_elem_of_In%in_map_iff Hws;
          split; [done|apply lower_char_idem])
    [] false ltac:(constructor)).
  fold (Js.split_ws (Js.toLowerCase text)) in Hpieces.
  induction Hpieces as [|piece pieces Hpiece _ IH]; [constructor|].
  assert (Hplain : Forall (fun c => Js.is_whitespace c = false) (Js.chars piece)).
  { eapply Forall_impl; [exact Hpiece|]. by intros c [? _]. }
  assert (Htrim : Js.trim piece = piece).
  { unfold Js.trim. by rewrite trim_chars_plain, str_chars. }
  cbn [List.map List.filter]. rewrite Htrim.
  destruct (negb (String.length piece =? 0)%nat) eqn:Hlen; [|exact IH].
  constructor; [|exact IH]. split; [|split; [done|]].
  - intros ->. done.
  - unfold Js.toLowerCase. rewrite <- (str_chars piece) at 2. f_equal.
    rewrite <- (map_id (Js.chars piece)) at 2. apply map_ext_in.
    intros c Hc. rewrite Forall_forall in Hpiece. by apply Hpiece, list_elem_of_In.
Qed.

End TokenFacts.

(** ** summarizer.ts: the length of a summary *)

Section SummaryFacts.
Import Summarizer.

Lemma length_str l : String.length (Js.str l) = length l.
Proof. unfold Js.str. induction l as [|c l IH]; simpl; [done|]. by rewrite IH. Qed.

Lemma length_chars s : length (Js.chars s) = String.length s.
Proof. by rewrite <- length_str, str_chars. Qed.

Lemma trimStart_length l : (length (Js.trimStart_chars l) ≤ length l)%nat.
Proof. induction l as [|c l IH]; simpl; [done|]. destruct (Js.is_whitespace c); simpl; lia. Qed.

Lemma trim_length s : (String.length (Js.trim s) ≤ String.length s)%nat.
Proof.
  unfold Js.trim, Js.trim_chars. rewrite length_str, length_rev.
  etransitivity; [apply trimStart_length|]. rewrite length_rev.
  etransitivity; [apply trimStart_length|]. by rewrite length_chars.
Qed.

Lemma slice0_length {A} (l : list A) (e : Q) :
  (0 <= e)%Q → (Z.of_nat (length (Js.slice0 l e)) ≤ Qfloor e)%Z.
Proof.
  intros He. unfold Js.slice0, Js.trunc.
  rewrite (proj2 (Qle_bool_iff 0 e)) by done.
  assert (Hfloor : 0 ≤ Qfloor e).
  { change 0 with (Qfloor 0). by apply Qfloor_resp_le. }
  destruct (Z.leb_spec 0 (Qfloor e)); [|lia].
  rewrite length_take. lia.
Qed.

Lemma slice0_shorter {A} (l : list A) (e : Q) :
  (0 <= e)%Q → (length (Js.slice0 l e) ≤ length l)%nat.
Proof.
  intros He. unfold Js.slice0, Js.trunc.
  rewrite (proj2 (Qle_bool_iff 0 e)) by done.
  assert (Hfloor : 0 ≤ Qfloor e).
  { change 0 with (Qfloor 0). by apply Qfloor_resp_le. }
  destruct (Z.leb_spec 0 (Qfloor e)); [|lia].
  rewrite length_take. lia.
Qed.

(** A content that fits is its own summary, and no summary is longer
    than the limit and the three dots. *)
Theorem summarizeContent_bounded (content : string) (maxLength : Q) :
  (0 <= maxLength)%Q →
  (Qle_bool (len content) maxLength = true → summarizeContent content maxLength = content) ∧
  (len (summarizeContent content maxLength) <= maxLength + 3)%Q.
Proof.
  intros Hmax. split; [unfold summarizeContent; by intros ->|].
  unfold summarizeContent.
  destruct (Qle_bool (len content) maxLength) eqn:Hfits.
  { apply Qle_bool_iff in Hfits. lra. }
  set (snippet := slice0 content maxLength).
  assert (Hsnippet : (len snippet <= maxLength)%Q).
  { unfold len, snippet, slice0. rewrite length_str.
    apply (Qle_trans _ (inject_Z (Qfloor maxLength))); [|apply Qfloor_le].
    rewrite <- Zle_Qle. by apply slice0_length. }
  set (lastSentence := Z.max _ _).
  destruct (Qle_bool (inject_Z lastSentence) (maxLength * (6 # 10))) eqn:Hlast; simpl.
  - unfold len in *. rewrite length_append. simpl String.length.
    pose proof (trim_length snippet) as Htrim.
    rewrite Nat2Z.inj_add, inject_Z_plus.
    assert ((inject_Z (Z.of_nat (String.length (Js.trim snippet)))
             <= inject_Z (Z.of_nat (String.length snippet)))%Q).
    { rewrite <- Zle_Qle. lia. }
    change (inject_Z (Z.of_nat 3)) with 3%Q. lra.
  - assert (Hpos : (0 <= inject_Z (lastSentence + 1))%Q).
    { assert (Hnot : ¬ (inject_Z lastSentence <= maxLength * (6 # 10))%Q).
      { intros Hle%Qle_bool_iff. congruence. }
      apply Qnot_le_lt in Hnot. rewrite inject_Z_plus. change (inject_Z 1) with 1%Q. nra. }
    unfold len at 1. unfold slice0 at 1. rewrite length_str.
    pose proof (slice0_shorter (Js.chars snippet) _ Hpos) as Hshort.
    rewrite length_chars in Hshort.
    assert ((inject_Z (Z.of_nat (length (Js.slice0 (Js.chars snippet)
                                           (inject_Z (lastSentence + 1)))))
             <= inject_Z (Z.of_nat (String.length snippet)))%Q).
    { rewrite <- Zle_Qle. lia. }
    unfold len in Hsnippet. lra.
Qed.

End SummaryFacts.

(** ** indexer.ts: what the index lists *)

Section IndexViews.
Context `{Host}.
Import Indexer.

Lemma idsAt_push m key id0 k :
  idsAt (push m key id0) k = if decide (k = key) then idsAt m k ++ [id0] else idsAt m k.
Proof.
  unfold idsAt, push. destruct (decide (k = key)) as [->|Hne].
  - by rewrite lookup_insert_eq.
  - by rewrite lookup_insert_ne.
Qed.

Lemma idsAt_keep keep m k :
  idsAt (omap (keepIds keep) m) k = List.filter keep (idsAt m k).
Proof.
  unfold idsAt. rewrite lookup_omap. destruct (m !! k) as [ids|]; simpl; [|done].
  apply keepIds_default.
Qed.

Lemma idsAt_sort byId (m : gmap string (list string)) k :
  idsAt (sortByUpdated byId <$> m) k = sortByUpdated byId (idsAt m k).
Proof. unfold idsAt. rewrite lookup_fmap. by destruct (m !! k). Qed.

Lemma slotIds_restrict keep index slot :
  slotIds (restrict keep index) slot = List.filter keep (slotIds index slot).
Proof.
  destruct slot as [s|t|s t]; simpl; [apply idsAt_keep|apply idsAt_keep|].
  unfold idsAt2. rewrite lookup_omap.
  destruct (Index.byScopeTag index !! s) as [bucket|]; simpl; [|done].
  by rewrite keepNested_default, idsAt_keep.
Qed.

Lemma slotIds_sortIndex index byId slot :
  slotIds (sortIndex index byId) slot = sortByUpdated byId (slotIds index slot).
Proof.
  destruct slot as [s|t|s t]; simpl; [apply idsAt_sort|apply idsAt_sort|].
  unfold idsAt2. rewrite lookup_fmap.
  destruct (Index.byScopeTag index !! s) as [bucket|]; simpl; [|done].
  apply idsAt_sort.
Qed.

Lemma slotIds_tagStep item index tag slot id0 :
  id0 ∈ slotIds (tagStep item index tag) slot ↔
  id0 ∈ slotIds index slot ∨
  (match slot with
   | ByScope _ => False
   | ByTag t => t = tag
   | ByScopeTag s t => scope item = s ∧ t = tag
   end ∧ id0 = id item).
Proof.
  destruct slot as [s|t|s t]; simpl.
  - tauto.
  - rewrite idsAt_push. destruct (decide (t = tag)) as [->|Hne].
    + rewrite elem_of_app, list_elem_of_singleton. tauto.
    + tauto.
  - unfold idsAt2. destruct (decide (s = scope item)) as [->|Hne].
    + rewrite lookup_insert_eq. simpl. rewrite idsAt_push.
      destruct (decide (t = tag)) as [->|Hnt].
      * rewrite elem_of_app, list_elem_of_singleton. tauto.
      * tauto.
    + rewrite lookup_insert_ne by done. split; [auto|]. intros [?|[[? _] _]]; [done|].
      congruence.
Qed.

Lemma slotIds_tagSteps item tags0 index slot id0 :
  id0 ∈ slotIds (fold_left (tagStep item) tags0 index) slot ↔
  id0 ∈ slotIds index slot ∨
  (match slot with
   | ByScope _ => False
   | ByTag t => In t tags0
   | ByScopeTag s t => scope item = s ∧ In t tags0
   end ∧ id0 = id item).
Proof.
  revert index. induction tags0 as [|tag tags0 IH]; intros index; simpl.
  - destruct slot; tauto.
  - rewrite IH, slotIds_tagStep. destruct slot as [s|t|s t]; [tauto| |].
    + split; [intros [[?|[-> ->]]|[? ->]]; auto|]. intros [?|[[->|?] ->]]; auto.
    + split; [intros [[?|[[-> ->] ->]]|[[-> ?] ->]]; auto|].
      intros [?|[[-> [->|?]] ->]]; auto.
Qed.

(** What [addIdToIndex] lists: what was listed, and the id of the item
    at the places the item belongs to. *)
Lemma slotIds_addIdToIndex index item slot id0 :
  id0 ∈ slotIds (addIdToIndex index item) slot ↔
  id0 ∈ slotIds index slot ∨ (belongs item slot ∧ id0 = id item).
Proof.
  rewrite addIdToIndex_fold, slotIds_tagSteps.
  destruct slot as [s|t|s t]; simpl; [|tauto|tauto].
  rewrite idsAt_push. destruct (decide (s = scope item)) as [->|Hne].
  - rewrite elem_of_app, list_elem_of_singleton. tauto.
  - split; [intros [?|[[] _]]; auto|]. intros [?|[? _]]; [auto|congruence].
Qed.

Lemma keepIds_filled keep ids : keepIds keep ids ≠ Some [].
Proof. unfold keepIds. by destruct (List.filter keep ids). Qed.

Lemma restrict_noEmptyBucket keep index : noEmptyBucket (restrict keep index).
Proof.
  unfold noEmptyBucket, restrict. simpl. split; [|split; [|split]].
  - intros s. rewrite lookup_omap. destruct (Index.byScope index !! s); simpl; [|done].
    apply keepIds_filled.
  - intros t. rewrite lookup_omap. destruct (Index.byTag index !! t); simpl; [|done].
    apply keepIds_filled.
  - intros s. rewrite lookup_omap.
    destruct (Index.byScopeTag index !! s) as [bucket|]; simpl; [|done].
    unfold keepNested. case_bool_decide; [done|congruence].
  - intros s bucket t. rewrite lookup_omap.
    destruct (Index.byScopeTag index !! s) as [bucket0|]; simpl; [|done].
    unfold keepNested. case_bool_decide; [done|]. intros [= <-].
    rewrite lookup_omap. destruct (bucket0 !! t); simpl; [|done]. apply keepIds_filled.
Qed.

(** [removeIdFromIndex] takes the id out of every place, leaves the
    other ids of each place in their order, and leaves no key with
    nothing under it. *)
Theorem removeIdFromIndex_removes (index : MemoryIndex) (id0 : string) :
  (∀ slot,
     slotIds (removeIdFromIndex index id0) slot
     = List.filter (fun existing => negb (String.eqb existing id0)) (slotIds index slot)) ∧
  noEmptyBucket (removeIdFromIndex index id0).
Proof.
  rewrite removeIdFromIndex_restrict. split.
  - intros slot. apply slotIds_restrict.
  - apply restrict_noEmptyBucket.
Qed.

Lemma buildIndex_fold (items : list MemoryItem) index byId :
  fold_left
    (fun '(index, itemsById) item =>
       if deleted item then (index, itemsById)
       else (addIdToIndex index item, Js.Map_set itemsById (id item) item))
    items (index, byId)
  = (fold_left addIdToIndex (List.filter (fun item => negb (deleted item)) items) index,
     fold_left (fun byId item => Js.Map_set byId (id item) item)
       (List.filter (fun item => negb (deleted item)) items) byId).
Proof.
  revert index byId. induction items as [|x items IH]; intros index byId; simpl; [done|].
  destruct (deleted x); simpl; by rewrite IH.
Qed.

Lemma slotIds_addAll (items : list MemoryItem) index slot id0 :
  id0 ∈ slotIds (fold_left addIdToIndex items index) slot ↔
  id0 ∈ slotIds index slot ∨ ∃ item, In item items ∧ belongs item slot ∧ id item = id0.
Proof.
  revert index. induction items as [|x items IH]; intros index; simpl.
  - split; [auto|]. by intros [?|(? & [] & _)].
  - rewrite IH, slotIds_addIdToIndex. split.
    + intros [[?|[? ->]]|(item & ? & ? & ?)]; [auto|right; by exists x; auto|].
      right. exists item. auto.
    + intros [?|(item & [<-|?] & ? & <-)]; [auto|auto|]. right. by exists item.
Qed.

Lemma elem_of_sortByUpdated byId ids id0 : id0 ∈ sortByUpdated byId ids ↔ id0 ∈ ids.
Proof. unfold sortByUpdated. by rewrite <- (Array_sort_perm (compareIds byId) ids). Qed.

Lemma slotIds_empty clock slot : slotIds (createEmptyIndex clock) slot = [].
Proof. by destruct slot. Qed.

Lemma slotIds_buildIndex clock (items : list MemoryItem) (slot : Slot) (id0 : string) :
  id0 ∈ slotIds (buildIndex clock items) slot ↔
  ∃ item, In item items ∧ deleted item = false ∧ belongs item slot ∧ id item = id0.
Proof.
  unfold buildIndex. rewrite buildIndex_fold.
  rewrite slotIds_sortIndex, elem_of_sortByUpdated, slotIds_addAll, slotIds_empty.
  split.
  - intros [Hnone|(item & [Hin Hlive]%filter_In & Hslot & Hid)]; [by inversion Hnone|].
    exists item. by apply negb_true_iff in Hlive.
  - intros (item & Hin & Hlive & Hslot & Hid). right. exists item.
    split; [|done]. apply filter_In. by rewrite Hlive.
Qed.

(** What a built index lists.  An id stands at a place of the index
    exactly when an item that is not deleted has the id and belongs to
    the place: its scope for [byScope], one of its tags for [byTag],
    both for [byScopeTag]. *)
Theorem buildIndex_lists clock (items : list MemoryItem) (slot : Slot) (id0 : string) :
  id0 ∈ slotIds (buildIndex clock items) slot ↔
  ∃ item, In item items ∧ deleted item = false ∧ belongs item slot ∧ id item = id0.
Proof.
  unfold buildIndex. rewrite buildIndex_fold.
  rewrite slotIds_sortIndex, elem_of_sortByUpdated, slotIds_addAll, slotIds_empty.
  split.
  - intros [Hnone|(item & [Hin Hlive]%filter_In & Hslot & Hid)]; [by inversion Hnone|].
    exists item. by apply negb_true_iff in Hlive.
  - intros (item & Hin & Hlive & Hslot & Hid). right. exists item.
    split; [|done]. apply filter_In. by rewrite Hlive.
Qed.

Lemma slotIds_indexStep index x slot id0 :
  id0 ∈ slotIds (indexStep index x) slot ↔
  (id0 ≠ id x ∧ id0 ∈ slotIds index slot) ∨
  (id0 = id x ∧ deleted x = false ∧ belongs x slot).
Proof.
  assert (Hrest : id0 ∈ slotIds (removeIdFromIndex index (id x)) slot
                  ↔ id0 ≠ id x ∧ id0 ∈ slotIds index slot).
  { rewrite removeIdFromIndex_restrict, slotIds_restrict, list_elem_of_In, filter_In.
    unfold allBut. rewrite negb_true_iff, String.eqb_neq, <- list_elem_of_In. tauto. }
  unfold indexStep. destruct (deleted x); simpl.
  - rewrite Hrest. split; [auto|]. by intros [?|(_ & ? & _)].
  - rewrite slotIds_addIdToIndex, Hrest. tauto.
Qed.

Lemma lastOf_snoc id0 items x :
  lastOf id0 (items ++ [x]) = if String.eqb (id x) id0 then Some x else lastOf id0 items.
Proof. unfold lastOf. by rewrite rev_app_distr. Qed.

Lemma slotIds_indexSteps items index slot id0 :
  id0 ∈ slotIds (fold_left indexStep items index) slot ↔
  match lastOf id0 items with
  | Some item => deleted item = false ∧ belongs item slot
  | None => id0 ∈ slotIds index slot
  end.
Proof.
  induction items as [|x items IH] using rev_ind; [done|].
  rewrite fold_left_app, lastOf_snoc. simpl. rewrite slotIds_indexStep, IH.
  destruct (String.eqb_spec (id x) id0) as [<-|Hne].
  - split; [by intros [[? _]|(_ & ? & ?)]|]. intros [? ?]. by right.
  - split; [by intros [[_ ?]|[? _]]|]. intros ?. left. split; [congruence|done].
Qed.

Lemma slotIds_updateIndex (index : MemoryIndex) (items : list MemoryItem)
    (slot : Slot) (id0 : string) :
  id0 ∈ slotIds (updateIndex index items) slot ↔
  match lastOf id0 items with
  | Some item => deleted item = false ∧ belongs item slot
  | None => id0 ∈ slotIds index slot
  end.
Proof.
  unfold updateIndex. rewrite applyItems_split.
  by rewrite slotIds_sortIndex, elem_of_sortByUpdated, slotIds_indexSteps.
Qed.

(** What an update of the index lists.  For an id among the items
    given, the last item given under the id decides: the id stands at
    the places that item belongs to, and nowhere when that item is
    deleted.  Every other id stands where it stood. *)
Theorem updateIndex_replaces (index : MemoryIndex) (items : list MemoryItem)
    (slot : Slot) (id0 : string) :
  id0 ∈ slotIds (updateIndex index items) slot ↔
  match lastOf id0 items with
  | Some item => deleted item = false ∧ belongs item slot
  | None => id0 ∈ slotIds index slot
  end.
Proof.
  unfold updateIndex. rewrite applyItems_split.
  by rewrite slotIds_sortIndex, elem_of_sortByUpdated, slotIds_indexSteps.
Qed.

End IndexViews.

(** ** indexer.ts: the order within a place *)

Section IndexOrder.
Context `{Host}.
Import Indexer.

Lemma itemsById_other (items : list MemoryItem) byId k :
  ¬ In k (List.map id items) →
  Js.Map_get (fold_left (fun byId item => Js.Map_set byId (id item) item) items byId) k
  = Js.Map_get byId k.
Proof.
  revert byId. induction items as [|x items IH]; intros byId Hk; simpl; [done|].
  rewrite IH by (intros Hin; apply Hk; by right).
  rewrite Map_get_set. destruct (String.eqb_spec (id x) k) as [Heq|]; [|done].
  destruct Hk. by left.
Qed.

Lemma itemsById_present (items : list MemoryItem) byId x :
  NoDup (List.map id items) → In x items →
  Js.Map_get (fold_left (fun byId item => Js.Map_set byId (id item) item) items byId) (id x)
  = Some x.
Proof.
  revert byId. induction items as [|x0 items IH]; intros byId Hnd Hin; [done|].
  simpl in Hnd. apply NoDup_cons in Hnd as [Hx0 Hnd]. simpl.
  destruct Hin as [->|Hin]; [|by apply IH].
  rewrite itemsById_other by (by rewrite <- list_elem_of_In).
  by rewrite Map_get_set, String.eqb_refl.
Qed.

(** The ids at every place of a built index stand newest first, when
    no two items that are not deleted share an id and the [updatedAt]
    of each of them is a date. *)
Theorem buildIndex_newest_first clock (items : list MemoryItem) (slot : Slot) :
  NoDup (List.map id (List.filter (fun item => negb (deleted item)) items)) →
  (∀ item, In item items → deleted item = false → Date_parse (updatedAt item) ≠ None) →
  StronglySorted (newerFirst items) (slotIds (buildIndex clock items) slot).
Proof.
  intros Hnd Hdates. unfold buildIndex. rewrite buildIndex_fold, slotIds_sortIndex.
  set (alive := List.filter (fun item => negb (deleted item)) items) in *.
  set (byId := fold_left (fun byId item => Js.Map_set byId (id item) item) alive []).
  assert (Halive : ∀ x, In x alive ↔ In x items ∧ deleted x = false).
  { intros x. unfold alive. rewrite filter_In, negb_true_iff. done. }
  assert (Htime : ∀ x, In x items → deleted x = false →
                       timeOf byId (id x) = Date_parse (updatedAt x)).
  { intros x Hx Hlive. unfold timeOf, byId.
    rewrite itemsById_present; [done|done|]. by apply Halive. }
  unfold sortByUpdated.
  apply (Array_sort_sorted (compareIds byId)
           (fun a => ∃ x, In x items ∧ deleted x = false ∧ id x = a)).
  - intros a b c _ (y & Hy & Hylive & <-) _ Hab Hbc x z aTime cTime Hx Hz Hxl Hzl Hxa Hzc Ha Hc.
    destruct (Date_parse (updatedAt y)) as [bTime|] eqn:Hb; [|by destruct (Hdates y)].
    specialize (Hab x y aTime bTime Hx Hy Hxl Hylive Hxa eq_refl Ha Hb).
    specialize (Hbc y z bTime cTime Hy Hz Hylive Hzl eq_refl Hzc Hb Hc). lia.
  - intros a b _ _ Hkeep x y aTime bTime Hx Hy Hxl Hyl <- <- Ha Hb.
    unfold compareIds in Hkeep. rewrite !Htime, Ha, Hb in Hkeep by done.
    simpl in Hkeep. apply negb_false_iff, Qle_bool_iff in Hkeep.
    rewrite <- (Zle_Qle _ 0) in Hkeep. lia.
  - intros a b _ _ Hswap y x bTime aTime Hy Hx Hyl Hxl <- <- Hb Ha.
    unfold compareIds in Hswap. rewrite !Htime, Ha, Hb in Hswap by done.
    simpl in Hswap. apply negb_true_iff in Hswap.
    assert (Hnot : ¬ (inject_Z (bTime - aTime) <= 0)%Q).
    { intros Hle%Qle_bool_iff. congruence. }
    rewrite <- (Zle_Qle _ 0) in Hnot. lia.
  - apply Forall_forall. intros a Ha.
    apply slotIds_addAll in Ha as [Ha|(x & Hx & _ & Hid)].
    + rewrite slotIds_empty in Ha. inversion Ha.
    + exists x. apply Halive in Hx as [? ?]. done.
Qed.

End IndexOrder.

(** ** prune.ts: the statistics count the actions *)

Section PruneAccounts.
Context `{Host}.
Import Prune.

Lemma reasonCount_snoc reason actions a :
  reasonCount reason (actions ++ [a])
  = (reasonCount reason actions + if String.eqb (Action.reason a) reason then 1 else 0)%nat.
Proof.
  unfold reasonCount. rewrite List.filter_app, length_app. simpl.
  by destruct (String.eqb (Action.reason a) reason).
Qed.

Lemma dedupeLoop_accounted scopeItems fingerprintMap actions stats :
  accounted actions stats →
  accounted (dedupeLoop scopeItems fingerprintMap actions stats).1
            (dedupeLoop scopeItems fingerprintMap actions stats).2.
Proof.
  revert fingerprintMap actions stats.
  induction scopeItems as [|x rest IH]; intros fingerprintMap actions stats Hacc; [done|].
  simpl. destruct (deleted x); [by apply IH|].
  destruct (Js.Map_get fingerprintMap (contentFingerprint (content x))) as [existing|];
    [|by apply IH].
  apply IH. destruct Hacc as (Hd & Ha & Hs). unfold accounted.
  destruct (negb _); rewrite !reasonCount_snoc; simpl; repeat split; lia.
Qed.

Lemma ageLoop_accounted pruneConfig summarizationConfig now keep ranked actions stats :
  accounted actions stats →
  accounted (ageLoop pruneConfig summarizationConfig now keep ranked actions stats).1
            (ageLoop pruneConfig summarizationConfig now keep ranked actions stats).2.
Proof.
  revert actions stats.
  induction ranked as [|entry rest IH]; intros actions stats Hacc; [done|].
  simpl. destruct Hacc as (Hd & Ha & Hs).
  destruct (bool_decide (id (item entry) ∈ keep)); [by apply IH|].
  destruct (Qle_bool (deleteOlderThanDays pruneConfig) (ageDays entry)).
  { apply IH. unfold accounted. rewrite !reasonCount_snoc. simpl. repeat split; lia. }
  destruct (Qle_bool (compressOlderThanDays pruneConfig) (ageDays entry)); [|by apply IH].
  destruct (Summarizer.summarizeItem (item entry) summarizationConfig now) as [text|];
    [|by apply IH].
  destruct (negb (String.length text =? 0)%nat
            && negb (bool_decide (Some text = summary (item entry)))); [|by apply IH].
  apply IH. unfold accounted. rewrite !reasonCount_snoc. simpl. repeat split; lia.
Qed.

Lemma pruneScope_accounted pruneConfig summarizationConfig now scopeItems actions stats :
  accounted actions stats →
  accounted (pruneScope pruneConfig summarizationConfig now scopeItems actions stats).1
            (pruneScope pruneConfig summarizationConfig now scopeItems actions stats).2.
Proof.
  intros Hacc. unfold pruneScope. destruct (dedupe pruneConfig).
  - pose proof (dedupeLoop_accounted scopeItems [] actions stats Hacc) as Hdedupe.
    destruct (dedupeLoop scopeItems [] actions stats) as [actions' stats'].
    by apply ageLoop_accounted.
  - by apply ageLoop_accounted.
Qed.

Lemma pruneFold_accounted pruneConfig summarizationConfig now
    (groups : list (string * list MemoryItem)) actions stats :
  accounted actions stats →
  accounted
    (fold_left
       (fun (acc : list PruneAction * PruneStats) (entry : string * list MemoryItem) =>
          pruneScope pruneConfig summarizationConfig now entry.2 acc.1 acc.2)
       groups (actions, stats)).1
    (fold_left
       (fun (acc : list PruneAction * PruneStats) (entry : string * list MemoryItem) =>
          pruneScope pruneConfig summarizationConfig now entry.2 acc.1 acc.2)
       groups (actions, stats)).2.
Proof.
  revert actions stats. induction groups as [|g groups IH]; intros actions stats Hacc; [done|].
  simpl. pose proof (pruneScope_accounted pruneConfig summarizationConfig now g.2
                       actions stats Hacc) as Hscope.
  destruct (pruneScope pruneConfig summarizationConfig now g.2 actions stats)
    as [actions' stats'].
  by apply IH.
Qed.

(** The statistics of a prune count its actions: [deduped] the
    deletions of duplicates, [deleted] the items aged out, [summarized]
    the summaries proposed. *)
Theorem pruneMemory_accounted (items : list MemoryItem) pruneConfig summarizationConfig now :
  accounted (pruneMemory items pruneConfig summarizationConfig now).1
            (pruneMemory items pruneConfig summarizationConfig now).2.
Proof. unfold pruneMemory. by apply pruneFold_accounted. Qed.

End PruneAccounts.

(** ** prune.ts: whom the actions name *)

Section PruneTargets.
Context `{Host}.
Import Prune.

Lemma Forall_snoc {A} (P : A → Prop) l x : Forall P l → P x → Forall P (l ++ [x]).
Proof. intros Hl Hx. apply Forall_app. split; [done|]. by constructor. Qed.

Lemma dedupeLoop_targets items scopeItems fingerprintMap actions stats :
  (∀ x, In x scopeItems → In x items) →
  (∀ k v, Js.Map_get fingerprintMap k = Some v → In v items ∧ deleted v = false) →
  Forall (targetsAlive items) actions →
  Forall (targetsAlive items) (dedupeLoop scopeItems fingerprintMap actions stats).1.
Proof.
  revert fingerprintMap actions stats.
  induction scopeItems as [|x rest IH]; intros fingerprintMap actions stats Hin Hmap Hacts;
    [done|].
  assert (Hrest : ∀ y, In y rest → In y items) by (intros y Hy; apply Hin; by right).
  simpl. destruct (deleted x) eqn:Hx; [by apply IH|].
  destruct (Js.Map_get fingerprintMap (contentFingerprint (content x))) as [existing|] eqn:Hget.
  - destruct (Hmap _ _ Hget) as [Hexisting Hlive].
    apply IH; [done|done|]. apply Forall_snoc.
    + destruct (negb _); [|done]. apply Forall_snoc; [done|]. by exists existing.
    + exists x. split; [apply Hin; by left|done].
  - apply IH; [done| |done]. intros k v. rewrite Map_get_set.
    destruct (String.eqb _ k); [|by apply Hmap]. intros [= <-]. split; [apply Hin; by left|done].
Qed.

Lemma ageLoop_targets items pruneConfig summarizationConfig now keep ranked actions stats :
  (∀ entry, In entry ranked → In (item entry) items ∧ deleted (item entry) = false) →
  Forall (targetsAlive items) actions →
  Forall (targetsAlive items)
    (ageLoop pruneConfig summarizationConfig now keep ranked actions stats).1.
Proof.
  revert actions stats.
  induction ranked as [|entry rest IH]; intros actions stats Hranked Hacts; [done|].
  assert (Hrest : ∀ e, In e rest → In (item e) items ∧ deleted (item e) = false)
    by (intros e He; apply Hranked; by right).
  assert (Hentry : targetsAlive items
            {| Action.id := id (item entry); Action.patch := deletePatch;
               Action.reason := "aged out" |}).
  { exists (item entry). destruct (Hranked entry) as [? ?]; [by left|done]. }
  simpl. destruct (bool_decide (id (item entry) ∈ keep)); [by apply IH|].
  destruct (Qle_bool (deleteOlderThanDays pruneConfig) (ageDays entry)).
  { apply IH; [done|]. by apply Forall_snoc. }
  destruct (Qle_bool (compressOlderThanDays pruneConfig) (ageDays entry)); [|by apply IH].
  destruct (Summarizer.summarizeItem (item entry) summarizationConfig now) as [text|];
    [|by apply IH].
  destruct (negb (String.length text =? 0)%nat
            && negb (bool_decide (Some text = summary (item entry)))); [|by apply IH].
  apply IH; [done|]. apply Forall_snoc; [done|]. destruct Hentry as (x & ? & ? & ?).
  by exists x.
Qed.

Lemma rank_entries now scopeItems entry :
  In entry (rank now scopeItems) → In (item entry) scopeItems ∧ deleted (item entry) = false.
Proof.
  unfold rank. intros Hin.
  apply (Permutation_in _ (Permutation_sym (Array_sort_perm _ _))) in Hin.
  apply in_map_iff in Hin as (x & <- & [Hx Hlive]%filter_In). simpl.
  by apply negb_true_iff in Hlive.
Qed.

Lemma pruneScope_targets items pruneConfig summarizationConfig now scopeItems actions stats :
  (∀ x, In x scopeItems → In x items) →
  Forall (targetsAlive items) actions →
  Forall (targetsAlive items)
    (pruneScope pruneConfig summarizationConfig now scopeItems actions stats).1.
Proof.
  intros Hin Hacts. unfold pruneScope.
  assert (Hranked : ∀ entry, In entry (rank now scopeItems) →
                             In (item entry) items ∧ deleted (item entry) = false).
  { intros entry [? ?]%rank_entries. auto. }
  destruct (dedupe pruneConfig).
  - pose proof (dedupeLoop_targets items scopeItems [] actions stats Hin) as Hdedupe.
    destruct (dedupeLoop scopeItems [] actions stats) as [actions' stats'].
    apply ageLoop_targets; [done|]. apply Hdedupe; [|done]. by intros k v.
  - by apply ageLoop_targets.
Qed.

Lemma pruneFold_targets items pruneConfig summarizationConfig now
    (groups : list (string * list MemoryItem)) actions stats :
  (∀ g x, In g groups → In x g.2 → In x items) →
  Forall (targetsAlive items) actions →
  Forall (targetsAlive items)
    (fold_left
       (fun (acc : list PruneAction * PruneStats) (entry : string * list MemoryItem) =>
          pruneScope pruneConfig summarizationConfig now entry.2 acc.1 acc.2)
       groups (actions, stats)).1.
Proof.
  revert actions stats. induction groups as [|g groups IH]; intros actions stats Hin Hacts;
    [done|].
  simpl. pose proof (pruneScope_targets items pruneConfig summarizationConfig now g.2
                       actions stats) as Hscope.
  destruct (pruneScope pruneConfig summarizationConfig now g.2 actions stats)
    as [actions' stats'].
  apply IH; [intros g' x Hg'; apply Hin; by right|].
  apply Hscope; [|done]. intros x. apply Hin. by left.
Qed.

(** A prune proposes nothing for an item that is deleted or not among
    the items given: every action names an item that is there and not
    deleted. *)
Theorem pruneMemory_targets_alive (items : list MemoryItem) pruneConfig
    summarizationConfig now :
  Forall (targetsAlive items) (pruneMemory items pruneConfig summarizationConfig now).1.
Proof.
  unfold pruneMemory. apply pruneFold_targets; [|done].
  rewrite groupByScope_table. intros g x [s [<- _]]%in_map_iff. simpl.
  unfold inScope. by intros [? _]%filter_In.
Qed.

End PruneTargets.

(** ** prune.ts: within the cap *)

Section PruneCap.
Context `{Host}.
Import Prune.

Lemma slice0_whole {A} (l : list A) (e : Q) :
  (inject_Z (Z.of_nat (length l)) <= e)%Q → Js.slice0 l e = l.
Proof.
  intros Hlen. unfold Js.slice0, Js.trunc.
  assert (Hpos : (0 <= e)%Q).
  { apply (Qle_trans _ (inject_Z (Z.of_nat (length l)))); [|done].
    rewrite <- (Zle_Qle 0). lia. }
  rewrite (proj2 (Qle_bool_iff 0 e)) by done.
  assert (Hfloor : Z.of_nat (length l) ≤ Qfloor e).
  { rewrite <- (Qfloor_Z (Z.of_nat (length l))). by apply Qfloor_resp_le. }
  destruct (Z.leb_spec 0 (Qfloor e)); [|lia].
  apply firstn_all2. lia.
Qed.

(** The loop over [ranked] when every id is kept: nothing is proposed
    and every entry is counted as retained. *)
Lemma ageLoop_kept pruneConfig summarizationConfig now keep ranked actions stats :
  (∀ entry, In entry ranked → id (item entry) ∈ keep) →
  ageLoop pruneConfig summarizationConfig now keep ranked actions stats
  = (actions, Nat.iter (length ranked) bump_retained stats).
Proof.
  revert stats. induction ranked as [|entry rest IH]; intros stats Hkeep; [done|].
  simpl. rewrite bool_decide_eq_true_2 by (apply Hkeep; by left).
  rewrite IH by (intros e He; apply Hkeep; by right).
  f_equal. clear. induction (length rest) as [|n IHn]; simpl; [done|]. by rewrite IHn.
Qed.

Lemma retained_iter n stats :
  Stats.retained (Nat.iter n bump_retained stats) = (Stats.retained stats + n)%nat ∧
  Stats.deleted (Nat.iter n bump_retained stats) = Stats.deleted stats ∧
  Stats.summarized (Nat.iter n bump_retained stats) = Stats.summarized stats ∧
  Stats.deduped (Nat.iter n bump_retained stats) = Stats.deduped stats.
Proof.
  induction n as [|n (Hr & Hd & Hs & Hp)]; simpl; [repeat split; lia|].
  rewrite Hr, Hd, Hs, Hp. repeat split; lia.
Qed.

Lemma dedupeLoop_appends scopeItems fingerprintMap actions stats :
  ∃ more,
    (dedupeLoop scopeItems fingerprintMap actions stats).1 = actions ++ more ∧
    Forall (fun a => isDedupAction a = true) more ∧
    Stats.retained (dedupeLoop scopeItems fingerprintMap actions stats).2
    = Stats.retained stats ∧
    Stats.deleted (dedupeLoop scopeItems fingerprintMap actions stats).2
    = Stats.deleted stats ∧
    Stats.summarized (dedupeLoop scopeItems fingerprintMap actions stats).2
    = Stats.summarized stats.
Proof.
  revert fingerprintMap actions stats.
  induction scopeItems as [|x rest IH]; intros fingerprintMap actions stats.
  - exists []. by rewrite app_nil_r.
  - simpl. destruct (deleted x); [apply IH|].
    destruct (Js.Map_get fingerprintMap (contentFingerprint (content x))) as [existing|];
      [|apply IH].
    match goal with |- context [dedupeLoop rest fingerprintMap ?a ?s] =>
      destruct (IH fingerprintMap a s) as (more & -> & Hmore & -> & -> & ->) end.
    destruct (negb _).
    + eexists (_ :: _ :: more). rewrite <- !app_assoc. split; [done|].
      split; [|done]. by repeat constructor.
    + eexists (_ :: more). rewrite <- !app_assoc. split; [done|].
      split; [|done]. by repeat constructor.
Qed.

Lemma rank_length now scopeItems : length (rank now scopeItems) = length (alive scopeItems).
Proof. unfold rank. by rewrite Array_sort_length, length_map. Qed.

(** One scope within the cap. *)
Lemma pruneScope_within_cap pruneConfig summarizationConfig now scopeItems actions stats :
  (inject_Z (Z.of_nat (length (alive scopeItems))) <= maxPerScope pruneConfig)%Q →
  ∃ more,
    (pruneScope pruneConfig summarizationConfig now scopeItems actions stats).1
    = actions ++ more ∧
    Forall (fun a => isDedupAction a = true) more ∧
    Stats.retained (pruneScope pruneConfig summarizationConfig now scopeItems actions stats).2
    = (Stats.retained stats + length (alive scopeItems))%nat ∧
    Stats.deleted (pruneScope pruneConfig summarizationConfig now scopeItems actions stats).2
    = Stats.deleted stats ∧
    Stats.summarized (pruneScope pruneConfig summarizationConfig now scopeItems actions stats).2
    = Stats.summarized stats.
Proof.
  intros Hcap. unfold pruneScope.
  rewrite slice0_whole by by rewrite rank_length.
  assert (Hkeep : ∀ entry, In entry (rank now scopeItems) →
            id (item entry) ∈
              Js.Set_from (List.map (fun entry => id (item entry)) (rank now scopeItems))).
  { intros entry Hentry. apply Set_from_elem, list_elem_of_In, in_map_iff. by exists entry. }
  destruct (dedupe pruneConfig).
  - destruct (dedupeLoop_appends scopeItems [] actions stats)
      as (more & Hacts & Hmore & Hr & Hd & Hs).
    destruct (dedupeLoop scopeItems [] actions stats) as [actions' stats'].
    simpl in *. subst actions'. rewrite ageLoop_kept by done. exists more. simpl.
    destruct (retained_iter (length (rank now scopeItems)) stats') as (-> & -> & -> & _).
    rewrite rank_length, Hr, Hd, Hs. done.
  - rewrite ageLoop_kept by done. exists []. simpl. rewrite app_nil_r.
    destruct (retained_iter (length (rank now scopeItems)) stats) as (-> & -> & -> & _).
    by rewrite rank_length.
Qed.

Lemma indicator_sum (keys : list string) k :
  NoDup keys → k ∈ keys →
  list_sum (List.map (fun s => if String.eqb k s then 1%nat else 0%nat) keys) = 1%nat.
Proof.
  induction keys as [|s keys IH]; intros Hnd Hk; [by inversion Hk|].
  apply NoDup_cons in Hnd as [Hs Hnd]. simpl.
  destruct (String.eqb_spec k s) as [->|Hne].
  - f_equal. clear IH Hk Hnd. induction keys as [|s' keys IH]; [done|]. simpl.
    apply not_elem_of_cons in Hs as [Hne Hs].
    rewrite (proj2 (String.eqb_neq _ _)) by done. by apply IH.
  - apply IH; [done|]. by apply elem_of_cons in Hk as [?|?].
Qed.

Lemma list_sum_add {A} (f g : A → nat) l :
  list_sum (List.map (fun x => (f x + g x)%nat) l)
  = (list_sum (List.map f l) + list_sum (List.map g l))%nat.
Proof. induction l as [|x l IH]; simpl; [done|]. rewrite IH. lia. Qed.

Lemma list_sum_zero {A} (l : list A) : list_sum (List.map (fun _ => 0%nat) l) = 0%nat.
Proof. by induction l. Qed.

(** The items that are not deleted, counted scope by scope. *)
Lemma alive_by_scope (items : list MemoryItem) (keys : list string) :
  NoDup keys → (∀ x, In x items → scope x ∈ keys) →
  list_sum (List.map (fun s => length (alive (inScope s items))) keys)
  = length (alive items).
Proof.
  intros Hnd. induction items as [|x items IH]; intros Hkeys; simpl.
  - apply list_sum_zero.
  - assert (Hstep : ∀ s, length (alive (inScope s (x :: items)))
                = ((if String.eqb (scope x) s then if deleted x then 0 else 1 else 0)
                   + length (alive (inScope s items)))%nat).
    { intros s. unfold inScope, alive. simpl.
      destruct (String.eqb (scope x) s); [|done]. simpl. by destruct (deleted x). }
    rewrite (map_ext _ _ Hstep), list_sum_add, IH by (intros y Hy; apply Hkeys; by right).
    unfold alive at 2. simpl. destruct (deleted x); simpl.
    + rewrite (map_ext _ (fun _ => 0%nat)) by (intros s; by destruct (String.eqb _ _)).
      by rewrite list_sum_zero.
    + rewrite indicator_sum; [done|done|]. apply Hkeys. by left.
Qed.

Lemma pruneFold_within_cap pruneConfig summarizationConfig now
    (groups : list (string * list MemoryItem)) actions stats :
  (∀ g, In g groups →
        (inject_Z (Z.of_nat (length (alive g.2))) <= maxPerScope pruneConfig)%Q) →
  let result :=
    fold_left
      (fun (acc : list PruneAction * PruneStats) (entry : string * list MemoryItem) =>
         pruneScope pruneConfig summarizationConfig now entry.2 acc.1 acc.2)
      groups (actions, stats) in
  ∃ more,
    result.1 = actions ++ more ∧
    Forall (fun a => isDedupAction a = true) more ∧
    Stats.retained result.2
    = (Stats.retained stats
       + list_sum (List.map (fun g : string * list MemoryItem => length (alive g.2)) groups))%nat
    ∧ Stats.deleted result.2 = Stats.deleted stats
    ∧ Stats.summarized result.2 = Stats.summarized stats.
Proof.
  revert actions stats. induction groups as [|g groups IH]; intros actions stats Hcap; simpl.
  - exists []. rewrite app_nil_r. repeat split; (done || lia).
  - destruct (pruneScope_within_cap pruneConfig summarizationConfig now g.2 actions stats)
      as (more & Hacts & Hmore & Hr & Hd & Hs); [apply Hcap; by left|].
    destruct (pruneScope pruneConfig summarizationConfig now g.2 actions stats)
      as [actions' stats'].
    simpl in *. subst actions'.
    destruct (IH (actions ++ more) stats') as (more' & -> & Hmore' & -> & -> & ->).
    { intros g' Hg'. apply Hcap. by right. }
    exists (more ++ more'). rewrite <- app_assoc. split; [done|].
    split; [by apply Forall_app|]. rewrite Hr, Hd, Hs. repeat split; lia.
Qed.

(** Within the cap nothing is pruned by age.  When no scope holds more
    items that are not deleted than [maxPerScope], every such item is
    counted as retained, nothing is aged out or compressed, and the
    only actions are those of the dedup pass. *)
Theorem pruneMemory_within_cap (items : list MemoryItem) pruneConfig
    summarizationConfig now :
  (∀ s, (inject_Z (Z.of_nat (length (alive (inScope s items))))
         <= maxPerScope pruneConfig)%Q) →
  Forall (fun a => isDedupAction a = true)
    (pruneMemory items pruneConfig summarizationConfig now).1 ∧
  Stats.retained (pruneMemory items pruneConfig summarizationConfig now).2
  = length (alive items) ∧
  Stats.deleted (pruneMemory items pruneConfig summarizationConfig now).2 = 0%nat ∧
  Stats.summarized (pruneMemory items pruneConfig summarizationConfig now).2 = 0%nat.
Proof.
  intros Hcap. unfold pruneMemory. rewrite groupByScope_table.
  destruct (pruneFold_within_cap pruneConfig summarizationConfig now
              (List.map (fun s => (s, inScope s items)) (scopesOf items)) []
              {| Stats.deduped := 0; Stats.deleted := 0; Stats.summarized := 0;
                 Stats.retained := 0 |}) as (more & -> & Hmore & -> & -> & ->).
  { intros g [s [<- _]]%in_map_iff. apply Hcap. }
  split; [done|]. split; [|done]. simpl. rewrite map_map. simpl.
  apply alive_by_scope.
  - apply Set_from_NoDup.
  - intros x Hx. apply Set_from_elem, list_elem_of_In, in_map_iff. by exists x.
Qed.

End PruneCap.

(** ** memory-store.ts: ensureFile *)

Section EnsureFacts.
Context `{Host}.
Import Fs MemoryStore.

(** [ensureFile] leaves a file that is there as it is and creates a
    missing one empty; and it takes every failure of [access] for
    absence: when [access] is refused, for whatever reason, the file is
    written anew and empty, whatever it held. *)
Theorem ensureFile_cases (path : string) (w : World) :
  (faults w = [] → ∀ f, files w !! path = Some f → ensureFile path w = (Ok tt, w)) ∧
  (faults w = [] → files w !! path = None →
   ensureFile path w
   = (Ok tt, set_files (insert path {| data := ""; mtimeMs := clock w |}) w)) ∧
  (∀ code,
     fault_of w OpMkdir (dirname path) = None →
     fault_of w OpAccess path = Some code →
     fault_of w OpWriteFile path = None →
     ensureFile path w
     = (Ok tt, set_files (insert path {| data := ""; mtimeMs := clock w |}) w)).
Proof.
  split; [|split].
  - intros Hq f Hf. by apply (ensureFile_exists _ _ f).
  - intros Hq Hf. by apply ensureFile_missing.
  - intros code Hmkdir Haccess Hwrite. unfold ensureFile, bind, mkdir_p.
    rewrite guarded_pass by done. unfold ret, try_catch, access.
    rewrite (guarded_fault _ _ _ _ code) by done. unfold writeFile.
    by rewrite guarded_pass.
Qed.

End EnsureFacts.

(** ** indexer.ts: an update against a build *)

Section IndexAgreement.
Context `{Host}.
Import Indexer.

Lemma lastOf_distinct id0 (items : list MemoryItem) x :
  NoDup (List.map id items) → In x items → id x = id0 → lastOf id0 items = Some x.
Proof.
  intros Hnd Hx Hid. unfold lastOf.
  destruct (List.find _ (rev items)) as [y|] eqn:Hfind.
  - apply find_some in Hfind as [Hy Heq%String.eqb_eq]. apply in_rev in Hy.
    f_equal. clear -Hnd Hx Hy Hid Heq. rewrite <- Hid in Heq. clear Hid.
    induction items as [|z items IH]; [done|].
    simpl in Hnd. apply NoDup_cons in Hnd as [Hz Hnd].
    destruct Hx as [->|Hx], Hy as [->|Hy]; [done| | |by apply IH].
    + destruct Hz. rewrite <- Heq. apply list_elem_of_In. by apply in_map.
    + destruct Hz. rewrite Heq. apply list_elem_of_In. by apply in_map.
  - exfalso. eapply find_none in Hfind; [|apply in_rev; by rewrite rev_involutive].
    by rewrite Hid, String.eqb_refl in Hfind.
Qed.

(** An update of the empty index with items of distinct ids lists what
    a build of the index from these items lists. *)
Theorem updateIndex_agrees_with_build clock clock' (items : list MemoryItem)
    (slot : Slot) (id0 : string) :
  NoDup (List.map id items) →
  id0 ∈ slotIds (updateIndex (createEmptyIndex clock) items) slot ↔
  id0 ∈ slotIds (buildIndex clock' items) slot.
Proof.
  intros Hnd. rewrite slotIds_updateIndex, slotIds_buildIndex. split.
  - destruct (lastOf id0 items) as [x|] eqn:Hlast.
    + intros [Hlive Hslot]. exists x. unfold lastOf in Hlast.
      apply find_some in Hlast as [Hx Hid%String.eqb_eq]. apply in_rev in Hx. done.
    + rewrite slotIds_empty. intros Hnone. inversion Hnone.
  - intros (x & Hx & Hlive & Hslot & Hid).
    by rewrite (lastOf_distinct id0 items x).
Qed.

End IndexAgreement.

(** * Worked examples *)

Section Worked.
Import Fs Examples.

(** C1 on a log of three records of one id: the second and the third
    tie, the third is returned. *)
Example selectLatestItems_tie :
  MemoryStore.selectLatestItems (H := Reference.host)
    [record "a" "2025-01-01T00:00:00.000Z" [] "first" (1 # 2);
     record "a" "2025-01-02T00:00:00.000Z" [] "second" (1 # 2);
     record "a" "2025-01-02T00:00:00.000Z" [] "third" (1 # 2)]
  = [record "a" "2025-01-02T00:00:00.000Z" [] "third" (1 # 2)].
Proof. vm_compute. reflexivity. Qed.

(** C2: a supplied scope that is the empty string is not applied; the
    record keeps its scope, which is not the normalized empty string. *)
Lemma updateMemoryItem_empty_scope_kept :
  Patch.scope emptyScopePatch = Some "" ∧
  (MemoryStore.updateMemoryItem (H := Reference.host) 1 memoryFile "a" emptyScopePatch
     (world (line older) today)).1
  = Ok (Some (record "a" "2025-01-10T00:00:00.000Z" [] "notes" (1 # 2))) ∧
  scope (record "a" "2025-01-10T00:00:00.000Z" [] "notes" (1 # 2)) ≠ normalizeScope "".
Proof.
  split; [done|]. split; [vm_compute; reflexivity|]. vm_compute. discriminate.
Qed.

Lemma updateMemoryItem_merges_witness :
  ∃ updated w',
    MemoryStore.updateMemoryItem (H := Reference.host) 1 memoryFile "a" clearSummaryPatch
      (world (line older) today) = (Ok (Some updated), w') ∧
    scope updated = "notes" ∧ tags updated = ["b"; "a"] ∧ summary updated = None ∧
    content updated = "notes" ∧
    files w' !! memoryFile =
      Some {| data := line older +:+ line updated; mtimeMs := today |}.
Proof.
  destruct (updateMemoryItem_merges (H := Reference.host) 0 memoryFile "a" clearSummaryPatch
              (world (line older) today) {| data := line older; mtimeMs := 0 |} older)
    as (updated & w' & Hrun & _ & _ & Hscope & Htags & Hcontent & Hsummary & _ & _ & _ & _
        & Hlog & _).
  - reflexivity.
  - vm_compute. reflexivity.
  - vm_compute. reflexivity.
  - vm_compute. reflexivity.
  - exists updated, w'. split; [exact Hrun|].
    split; [exact Hscope|]. split; [exact Htags|]. split; [exact Hsummary|].
    split; [exact Hcontent|]. exact Hlog.
Defined.

(** C3: compaction requested on a log without a record: nothing is
    rewritten, the world after the repair holds the files it held. *)
Lemma repairMemoryFile_compact_empty_log :
  MemoryStore.compact compacting = Some true ∧
  (MemoryStore.repairMemoryFile (H := Reference.host) 1 memoryFile compacting
     (world "" today)).1
  = Ok {| MemoryStore.Repair.repaired := false;
          MemoryStore.Repair.compacted := false;
          MemoryStore.Repair.errors := [];
          MemoryStore.Repair.stats :=
            {| MemoryStore.totalLines := 1; MemoryStore.emptyLines := 1;
               MemoryStore.validLines := 0; MemoryStore.invalidLines := 0;
               MemoryStore.bytes := 0 |};
          MemoryStore.Repair.quarantinedFile := None;
          MemoryStore.Repair.quarantinedLines := 0 |} ∧
  files (MemoryStore.repairMemoryFile (H := Reference.host) 1 memoryFile compacting
           (world "" today)).2
  = files (world "" today).
Proof.
  split; [done|]. split; vm_compute; reflexivity.
Qed.

Lemma repairMemoryFile_rewrites_witness :
  ∃ result w',
    MemoryStore.repairMemoryFile (H := Reference.host) 1 memoryFile compacting
      (world (line older +:+ "garbage" +:+ MemoryStore.NEWLINE +:+ line older) today)
    = (Ok result, w') ∧
    files w' !! memoryFile = Some {| data := line older; mtimeMs := today |}.
Proof.
  destruct (repairMemoryFile_rewrites (H := Reference.host) 0 memoryFile compacting
              (world (line older +:+ "garbage" +:+ MemoryStore.NEWLINE +:+ line older) today)
              {| data := line older +:+ "garbage" +:+ MemoryStore.NEWLINE +:+ line older;
                 mtimeMs := 0 |})
    as (result & w' & Hrun & Hrewrite & _).
  - reflexivity.
  - vm_compute. reflexivity.
  - vm_compute. reflexivity.
  - exists result, w'. split; [exact Hrun|].
    destruct Hrewrite as [Hlog _].
    + left. vm_compute. lia.
    + exact Hlog.
Defined.



(** C5 at four worlds: past the timeout; a stale marker; a fresh
    marker; a file system that refuses the creation. *)
Lemma withFileLock_contention_witness :
  FileLock.lockLoop (H := Reference.host) memoryFile (ret tt) FileLock.no_options 1 0
    (contended 0 6000)
  = (Throw (Error "Timed out waiting for lock: data/memory.jsonl.lock"), contended 0 6000) ∧
  FileLock.lockLoop (H := Reference.host) memoryFile (ret tt) FileLock.no_options 2 39000
    (contended 0 40000)
  = FileLock.lockLoop (H := Reference.host) memoryFile (ret tt) FileLock.no_options 1 39000
      (set_files (delete (FileLock.lockPathOf memoryFile)) (contended 0 40000)) ∧
  FileLock.lockLoop (H := Reference.host) memoryFile (ret tt) FileLock.no_options 2 1500
    (contended 1000 2000)
  = FileLock.lockLoop (H := Reference.host) memoryFile (ret tt) FileLock.no_options 1 1500
      (set_clock (fun t => t + 50) (contended 1000 2000)) ∧
  FileLock.lockLoop (H := Reference.host) memoryFile (ret tt) FileLock.no_options 1 0 refusing
  = (Throw (ErrnoException "EACCES" OpOpen (FileLock.lockPathOf memoryFile)), refusing).
Proof.
  split; [|split; [|split]].
  - destruct (withFileLock_contention (H := Reference.host) memoryFile (ret tt)
                FileLock.no_options 0 0 (contended 0 6000)) as [Hexists _].
    destruct (Hexists {| data := ""; mtimeMs := 0 |}) as (Hlate & _ & _);
      [reflexivity|vm_compute; reflexivity|].
    apply Hlate. vm_compute. reflexivity.
  - destruct (withFileLock_contention (H := Reference.host) memoryFile (ret tt)
                FileLock.no_options 1 39000 (contended 0 40000)) as [Hexists _].
    destruct (Hexists {| data := ""; mtimeMs := 0 |}) as (_ & Hstale & _);
      [reflexivity|vm_compute; reflexivity|].
    apply Hstale; [vm_compute; discriminate|reflexivity|vm_compute; reflexivity|reflexivity].
  - destruct (withFileLock_contention (H := Reference.host) memoryFile (ret tt)
                FileLock.no_options 1 1500 (contended 1000 2000)) as [Hexists _].
    destruct (Hexists {| data := ""; mtimeMs := 1000 |}) as (_ & _ & Hfresh);
      [reflexivity|vm_compute; reflexivity|].
    apply Hfresh; [vm_compute; discriminate|reflexivity|vm_compute; discriminate].
  - destruct (withFileLock_contention (H := Reference.host) memoryFile (ret tt)
                FileLock.no_options 0 0 refusing) as [_ Hother].
    apply Hother; [reflexivity|discriminate].
Defined.

(** C6: the canonical record lists a tag twice; the duplicate adds a
    tag and no merge is proposed. *)
Lemma pruneMemory_repeated_tag_no_merge :
  addsTag repeated repeating = true ∧
  List.filter isDedupAction
    (Prune.pruneMemory (H := Reference.host) [repeated; repeating] pruning summarizing today).1
  = [duplicateAction repeating] ∧
  flat_map (fun s => dedupProposals (H := Reference.host) [] (inScope s [repeated; repeating]))
    (scopesOf [repeated; repeating])
  = [mergeAction repeated repeating; duplicateAction repeating].
Proof. split; [|split]; vm_compute; reflexivity. Qed.

Lemma pruneMemory_dedup_witness :
  List.filter isDedupAction
    (Prune.pruneMemory (H := Reference.host) [tagged; repeating] pruning summarizing today).1
  = [mergeAction tagged repeating; duplicateAction repeating].
Proof.
  rewrite (pruneMemory_dedup (H := Reference.host) [tagged; repeating] pruning summarizing today).
  - vm_compute. reflexivity.
  - reflexivity.
  - intros x [<-|[<-|[]]] _; apply (bool_decide_unpack _); vm_compute; exact I.
Defined.

Lemma updateMemoryItem_not_found_witness :
  ∃ w',
    MemoryStore.updateMemoryItem (H := Reference.host) 1 memoryFile "zz" clearSummaryPatch
      (world (line older) today) = (Ok None, w') ∧
    logText w' memoryFile = line older.
Proof.
  destruct (updateMemoryItem_not_found (H := Reference.host) 1 memoryFile "zz" clearSummaryPatch
              (world (line older) today)) as (w' & Hupdate & _ & Hlog & _).
  - reflexivity.
  - vm_compute. intros [Heq|[]]. discriminate.
  - exists w'. split; [exact Hupdate|]. rewrite Hlog. vm_compute. reflexivity.
Defined.


(** The four scores of the example are the scores the binary64
    arithmetic of the kernel gives: the signals of the two records
    under [anyQuery] are 0 for the scope, the tags and the text and 1
    for the decay. *)
Lemma importance_weight_binary64 :
  binary64Score (weights 1) 0 0 1 (importance whole) 0
  = Some (Retriever.scoreItem (H := Reference.host) today whole anyQuery (weights 1)) ∧
  binary64Score (weights 1) 0 0 1 (importance nearlyWhole) 0
  = Some (Retriever.scoreItem (H := Reference.host) today nearlyWhole anyQuery (weights 1)) ∧
  binary64Score (weights raised) 0 0 1 (importance whole) 0
  = Some (Retriever.scoreItem (H := Reference.host) today whole anyQuery (weights raised)) ∧
  binary64Score (weights raised) 0 0 1 (importance nearlyWhole) 0
  = Some (Retriever.scoreItem (H := Reference.host) today nearlyWhole anyQuery
            (weights raised)).
Proof. repeat split; vm_compute; reflexivity. Qed.


End Worked.

(** * Worked examples of the further properties *)

Section WorkedFurther.
Import Fs Examples.

Lemma addMemoryItem_then_get_witness :
  ∃ w',
    MemoryStore.addMemoryItem (H := Reference.host) 1 memoryFile note "u-1"
      (world (line older) today)
    = (Ok (MemoryStore.newItem (H := Reference.host) note "u-1" today), w') ∧
    MemoryStore.getMemoryItem (H := Reference.host) memoryFile "u-1" w'
    = (Ok (Some (MemoryStore.newItem (H := Reference.host) note "u-1" today)), w').
Proof.
  destruct (addMemoryItem_then_get (H := Reference.host) 0 memoryFile note "u-1"
              (world (line older) today)) as (w' & Hadd & Hget & _).
  - reflexivity.
  - vm_compute. reflexivity.
  - right. exists (Reference.stringify (itemToJson older)). vm_compute. reflexivity.
  - split; vm_compute; reflexivity.
  - vm_compute. intros [Heq|[]]. discriminate.
  - exists w'. split; [exact Hadd|exact Hget].
Defined.

Lemma updateMemoryItem_then_get_witness :
  ∃ updated w',
    MemoryStore.updateMemoryItem (H := Reference.host) 1 memoryFile "a" clearSummaryPatch
      (world (line older) today) = (Ok (Some updated), w') ∧
    MemoryStore.getMemoryItem (H := Reference.host) memoryFile "a" w' = (Ok (Some updated), w').
Proof.
  destruct (updateMemoryItem_then_get (H := Reference.host) 0 memoryFile "a" clearSummaryPatch
              (world (line older) today) {| data := line older; mtimeMs := 0 |} older)
    as (w' & Hupdate & Hget).
  - reflexivity.
  - vm_compute. reflexivity.
  - vm_compute. reflexivity.
  - right. exists (Reference.stringify (itemToJson older)). vm_compute. reflexivity.
  - vm_compute. reflexivity.
  - split; vm_compute; reflexivity.
  - eexists _, w'. split; [exact Hupdate|]. rewrite Hget. reflexivity.
Defined.

Lemma addMemoryItem_appends_witness :
  ∃ it w',
    MemoryStore.addMemoryItem (H := Reference.host) 1 memoryFile note "u-1"
      (world (line older) today) = (Ok it, w') ∧
    scope it = "project" ∧ tags it = ["todo"] ∧ (importance it == 1)%Q ∧
    logText w' memoryFile = line older +:+ line it.
Proof.
  destruct (addMemoryItem_appends (H := Reference.host) 0 memoryFile note "u-1"
              (world (line older) today))
    as (it & w' & Hadd & _ & _ & _ & _ & _ & _ & Hlog & _).
  - reflexivity.
  - vm_compute. reflexivity.
  - exists it, w'. split; [exact Hadd|].
    assert (Hit : it = MemoryStore.newItem (H := Reference.host) note "u-1" today).
    { vm_compute in Hadd. by injection Hadd as <- _. }
    rewrite Hlog, Hit. repeat split; vm_compute; reflexivity.
Defined.

Lemma compactMemoryFile_keeps_view_witness :
  ∃ w',
    MemoryStore.compactMemoryFile (H := Reference.host) 1 memoryFile
      (world (line older +:+ line newer +:+ line older) today) = (Ok tt, w') ∧
    logText w' memoryFile = line older +:+ line newer.
Proof.
  destruct (compactMemoryFile_keeps_view (H := Reference.host) 0 memoryFile
              (world (line older +:+ line newer +:+ line older) today)
              {| data := line older +:+ line newer +:+ line older; mtimeMs := 0 |})
    as (w' & Hrun & _).
  - reflexivity.
  - vm_compute. reflexivity.
  - vm_compute. reflexivity.
  - assert (Hview : latestView (H := Reference.host) (line older +:+ line newer +:+ line older)
                    = [older; newer]) by (vm_compute; reflexivity).
    cbn [data]. rewrite Hview. repeat constructor; vm_compute; reflexivity.
  - exists w'. split; [exact Hrun|]. vm_compute in Hrun. injection Hrun as <-.
    vm_compute. reflexivity.
Defined.

Lemma getMemoryHealth_reports_witness :
  ∃ h w',
    MemoryStore.getMemoryHealth (H := Reference.host) Reference.print_number
      (fun x _ => Reference.print_number x) memoryFile
      {| MemoryStore.maxLineRatio := None; MemoryStore.minLines := None;
         MemoryStore.maxBytes := None |}
      (world (line older +:+ "garbage" +:+ MemoryStore.NEWLINE +:+ line older) today)
    = (Ok h, w') ∧
    MemoryStore.Health.latestItems h = 1%nat ∧ MemoryStore.Health.needsRepair h = true ∧
    MemoryStore.Health.shouldCompact h = true.
Proof.
  destruct (getMemoryHealth_reports (H := Reference.host) Reference.print_number
              (fun x _ => Reference.print_number x) memoryFile
              {| MemoryStore.maxLineRatio := None; MemoryStore.minLines := None;
         MemoryStore.maxBytes := None |}
              (world (line older +:+ "garbage" +:+ MemoryStore.NEWLINE +:+ line older) today))
    as (h & w' & Hrun & _ & Hstats & Hlatest & _ & Hrepair & Hcompact & _).
  - reflexivity.
  - exists h, w'. split; [exact Hrun|].
    assert (Hneeds : MemoryStore.Health.needsRepair h = true).
    { apply Hrepair. rewrite Hstats. vm_compute. lia. }
    split; [rewrite Hlatest; vm_compute; reflexivity|]. split; [exact Hneeds|].
    by apply Hcompact.
Defined.

Lemma repairMemoryFile_heals_witness :
  ∃ result w',
    MemoryStore.repairMemoryFile (H := Reference.host) 1 memoryFile
      {| MemoryStore.compact := None; MemoryStore.quarantine := None |}
      (world (line older +:+ "garbage" +:+ MemoryStore.NEWLINE +:+ line newer) today)
    = (Ok result, w') ∧
    MemoryStore.items (MemoryStore.readContent (H := Reference.host) (logText w' memoryFile))
    = [older; newer] ∧
    MemoryStore.errors (MemoryStore.readContent (H := Reference.host) (logText w' memoryFile))
    = [].
Proof.
  destruct (repairMemoryFile_heals (H := Reference.host) 0 memoryFile
              {| MemoryStore.compact := None; MemoryStore.quarantine := None |}
              (world (line older +:+ "garbage" +:+ MemoryStore.NEWLINE +:+ line newer) today)
              {| data := line older +:+ "garbage" +:+ MemoryStore.NEWLINE +:+ line newer;
                 mtimeMs := 0 |})
    as (result & w' & Hrun & _ & Herrors & Hitems & _).
  - reflexivity.
  - vm_compute. reflexivity.
  - vm_compute. reflexivity.
  - assert (Hread :
      MemoryStore.items
        (MemoryStore.readContent (H := Reference.host)
           (line older +:+ "garbage" +:+ MemoryStore.NEWLINE +:+ line newer))
      = [older; newer]) by (vm_compute; reflexivity).
    cbn [data]. rewrite Hread. repeat constructor; vm_compute; reflexivity.
  - exists result, w'. split; [exact Hrun|]. split; [|exact Herrors].
    rewrite Hitems.
    assert (Hresult : MemoryStore.Repair.compacted result = false).
    { vm_compute in Hrun. by injection Hrun as <- _. }
    rewrite Hresult. vm_compute. reflexivity.
Defined.

Lemma repairMemoryFile_reports_witness :
  ∃ result w',
    MemoryStore.repairMemoryFile (H := Reference.host) 1 memoryFile
      {| MemoryStore.compact := None; MemoryStore.quarantine := None |}
      (world (line older +:+ "garbage" +:+ MemoryStore.NEWLINE +:+ line newer) today)
    = (Ok result, w') ∧
    MemoryStore.Repair.repaired result = true ∧
    MemoryStore.Repair.quarantinedLines result = 1%nat.
Proof.
  destruct (repairMemoryFile_reports (H := Reference.host) 0 memoryFile
              {| MemoryStore.compact := None; MemoryStore.quarantine := None |}
              (world (line older +:+ "garbage" +:+ MemoryStore.NEWLINE +:+ line newer) today)
              {| data := line older +:+ "garbage" +:+ MemoryStore.NEWLINE +:+ line newer;
                 mtimeMs := 0 |})
    as (result & w' & Hrun & Hstats & _ & Hrepaired & Hlines & _).
  - reflexivity.
  - vm_compute. reflexivity.
  - vm_compute. reflexivity.
  - exists result, w'. split; [exact Hrun|].
    assert (Hinvalid : MemoryStore.invalidLines (MemoryStore.Repair.stats result) = 1%nat).
    { rewrite Hstats. vm_compute. reflexivity. }
    split; [apply Hrepaired; lia|]. by rewrite Hlines.
Defined.

Lemma withFileLock_releases_witness :
  (FileLock.withFileLock (H := Reference.host) memoryFile failing FileLock.no_options 1
     (world "" today)).1 = Throw (Error "disk full") ∧
  files (FileLock.withFileLock (H := Reference.host) memoryFile failing FileLock.no_options 1
           (world "" today)).2 !! FileLock.lockPathOf memoryFile = None.
Proof.
  destruct (withFileLock_releases (H := Reference.host) memoryFile failing FileLock.no_options
              0 (world "" today) (Throw (Error "disk full"))
              (locked (H := Reference.host) memoryFile (world "" today)))
    as [Hrun Hgone].
  - reflexivity.
  - vm_compute. reflexivity.
  - reflexivity.
  - reflexivity.
  - discriminate.
  - rewrite Hrun. split; [reflexivity|exact Hgone].
Defined.

Lemma withFileLock_reruns_operation_witness :
  (FileLock.withFileLock (H := Reference.host) memoryFile colliding FileLock.no_options 2
     (world "" today)).1 = Ok tt.
Proof.
  rewrite (withFileLock_reruns_operation (H := Reference.host) memoryFile colliding
             FileLock.no_options 0 (world "" today)
             (ErrnoException "EEXIST" OpMkdir "data/archive")
             (locked (H := Reference.host) memoryFile (world "" today)) tt
             (locked (H := Reference.host) memoryFile
                (set_clock (fun now => now + 50)
                   (set_files (delete (FileLock.lockPathOf memoryFile))
                      (locked (H := Reference.host) memoryFile (world "" today)))))).
  - reflexivity.
  - reflexivity.
  - vm_compute. reflexivity.
  - vm_compute. reflexivity.
  - reflexivity.
  - reflexivity.
  - vm_compute. discriminate.
  - vm_compute. reflexivity.
  - reflexivity.
Defined.

Lemma withFileLock_breaks_stale_witness :
  FileLock.withFileLock (H := Reference.host) memoryFile (ret tt) FileLock.no_options 2
    (contended 0 40000)
  = (Ok tt,
     set_files (delete (FileLock.lockPathOf memoryFile))
       (locked (H := Reference.host) memoryFile
          (set_files (delete (FileLock.lockPathOf memoryFile)) (contended 0 40000)))).
Proof.
  apply (withFileLock_breaks_stale (H := Reference.host) memoryFile (ret tt)
           FileLock.no_options 0 (contended 0 40000) {| data := ""; mtimeMs := 0 |}).
  - reflexivity.
  - vm_compute. reflexivity.
  - vm_compute. reflexivity.
  - vm_compute. discriminate.
  - reflexivity.
  - reflexivity.
Defined.

Lemma withFileLock_times_out_witness :
  ∃ waited,
    FileLock.withFileLock (H := Reference.host) memoryFile (ret tt) FileLock.no_options 103
      (contended 1000 2000)
    = (Throw (Error "Timed out waiting for lock: data/memory.jsonl.lock"),
       set_clock (fun now => now + waited) (contended 1000 2000)) ∧
    5000 < waited ≤ 5050.
Proof.
  apply (withFileLock_times_out (H := Reference.host) memoryFile (ret tt)
           FileLock.no_options 103 (contended 1000 2000) {| data := ""; mtimeMs := 1000 |}).
  - reflexivity.
  - vm_compute. reflexivity.
  - reflexivity.
  - vm_compute. discriminate.
  - vm_compute. discriminate.
  - vm_compute. lia.
Defined.

Lemma scoreItem_bounded_witness :
  (0 <= Retriever.scoreItem (H := Reference.host) today older anyQuery (weights (12 # 10))
   <= fullScore (weights (12 # 10)))%Q.
Proof.
  apply (scoreItem_bounded (H := Reference.host) today older anyQuery (weights (12 # 10))).
  - vm_compute. discriminate.
  - vm_compute. discriminate.
  - vm_compute. discriminate.
  - vm_compute. discriminate.
  - vm_compute. discriminate.
  - split; vm_compute; discriminate.
  - split; vm_compute; discriminate.
Defined.

Lemma summarizeContent_bounded_witness :
  (Summarizer.len (Summarizer.summarizeContent "One. Two and then some more" 12) <= 12 + 3)%Q.
Proof.
  apply (summarizeContent_bounded "One. Two and then some more" 12).
  vm_compute. discriminate.
Defined.

Lemma buildIndex_newest_first_witness :
  slotIds (Indexer.buildIndex (H := Reference.host) today [older; newer]) (ByScope "project")
  = ["b"; "a"] ∧
  StronglySorted (newerFirst (H := Reference.host) [older; newer])
    (slotIds (Indexer.buildIndex (H := Reference.host) today [older; newer])
       (ByScope "project")).
Proof.
  split; [vm_compute; reflexivity|].
  apply (buildIndex_newest_first (H := Reference.host) today [older; newer]
           (ByScope "project")).
  - vm_compute. repeat constructor; intros Hin; inversion Hin as [|? ? ? Hin']; subst;
      inversion Hin'.
  - intros item [<-|[<-|[]]] _; vm_compute; discriminate.
Defined.

Lemma pruneMemory_within_cap_witness :
  Prune.Stats.retained
    (Prune.pruneMemory (H := Reference.host) [tagged; repeating] pruning summarizing today).2
  = 2%nat ∧
  Prune.Stats.deleted
    (Prune.pruneMemory (H := Reference.host) [tagged; repeating] pruning summarizing today).2
  = 0%nat.
Proof.
  destruct (pruneMemory_within_cap (H := Reference.host) [tagged; repeating] pruning
              summarizing today) as (_ & Hretained & Hdeleted & _).
  - intros s.
    assert (Hlen : (length (alive (inScope s [tagged; repeating])) ≤ 2)%nat).
    { unfold alive, inScope.
      etransitivity; [apply filter_length_le|]. apply (filter_length_le _ [tagged; repeating]). }
    apply (Qle_trans _ 2); [|vm_compute; discriminate].
    rewrite <- (Zle_Qle _ 2). lia.
  - split; [exact Hretained|exact Hdeleted].
Defined.

Lemma ensureFile_cases_witness :
  MemoryStore.ensureFile memoryFile (world (line older) today)
  = (Ok tt, world (line older) today) ∧
  logText (snd (MemoryStore.ensureFile memoryFile unreadable)) memoryFile = "".
Proof.
  split.
  - destruct (ensureFile_cases memoryFile (world (line older) today)) as (Hthere & _).
    apply (Hthere eq_refl {| data := line older; mtimeMs := 0 |}). vm_compute. reflexivity.
  - destruct (ensureFile_cases memoryFile unreadable) as (_ & _ & Hrefused).
    rewrite (Hrefused "EIO"); [|reflexivity|reflexivity|reflexivity].
    vm_compute. reflexivity.
Defined.

Lemma updateIndex_agrees_with_build_witness :
  "b" ∈ slotIds (Indexer.updateIndex (H := Reference.host)
                   (Indexer.createEmptyIndex (H := Reference.host) today) [older; newer])
          (ByScope "project").
Proof.
  apply (updateIndex_agrees_with_build (H := Reference.host) today today [older; newer]
           (ByScope "project") "b").
  - vm_compute. repeat constructor; intros Hin; inversion Hin as [|? ? ? Hin']; subst;
      inversion Hin'.
  - vm_compute. apply list_elem_of_here.
Defined.

End WorkedFurther.
